(** * Farcaster Plinko: voucher lifecycle

    A shallow embedding of the reward-voucher core of the repository:
    - [Plinko]  : the outcome generator  (server/lib/plinko.ts, PlinkoSimulator)
    - [Tickets] : the quota ledger       (server/lib/redis.ts, RedisTicketManager)
    - [Vault]   : the redemption validator (contracts/ClaimVault.sol)
    - [Issuer]  : the voucher issuer     (server/lib/crypto.ts, CryptoService)
    - [Routes]  : the draw endpoint      (server/routes.ts, POST /api/drop),
                  with the tables it writes (server/storage.ts, PostgresStorage)

    The first part of the file holds the embedding, the second part the
    properties proved about it. *)

From Stdlib Require Import ZArith NArith QArith Qround List String Ascii Lia Bool.
From Stdlib Require Strings.Byte.
From stdpp Require Import gmap strings list pretty.

(* ===================================================================== *)
(** * Part I: the embedding                                               *)
(* ===================================================================== *)

(** ** JavaScript values shared by the server modules *)

(** A JavaScript string is a sequence of UTF-16 code units. *)
Abbreviation JsString := (list Z) (only parsing).

(** The code units of a Latin-1 literal. *)
Definition js (s : string) : JsString :=
  map (fun c => Z.of_N (N_of_ascii c)) (list_ascii_of_string s).

(** [ToInt32]: the wrap-around of the bitwise operators. *)
Definition to_int32 (z : Z) : Z := ((z + 2 ^ 31) mod 2 ^ 32 - 2 ^ 31)%Z.

(** [a << n] and [a & b] on JavaScript numbers holding integers. *)
Definition shl32 (a n : Z) : Z := to_int32 (Z.shiftl (to_int32 a) n).
Definition and32 (a b : Z) : Z := to_int32 (Z.land (to_int32 a) (to_int32 b)).

(** [a < b] on numbers; [Qle_bool] is [a <= b]. *)
Definition Qlt_bool (a b : Q) : bool := negb (Qle_bool b a).

(** A number is an IEEE double: a rational with a mantissa of 53 bits.
    [to_double] rounds a rational to the nearest double, ties to the even
    mantissa ([nearest_even] on the mantissa; [binade_shift n d] is the
    [s] with [2 ^ 52 <= n / d * 2 ^ s < 2 ^ 53]).  The range of the
    exponent is left out: no number of the server comes near its ends. *)
Definition nearest_even (n d : Z) : Z :=
  let q := (n / d)%Z in
  match (2 * (n mod d) ?= d)%Z with
  | Lt => q
  | Gt => (q + 1)%Z
  | Eq => if Z.even q then q else (q + 1)%Z
  end.

Definition binade_shift (n d : Z) : Z :=
  let s0 := (52 + Z.log2 d - Z.log2 n)%Z in
  if (0 <=? s0)%Z
  then if (2 ^ 52 * d <=? n * 2 ^ s0)%Z then s0 else (s0 + 1)%Z
  else if (2 ^ 52 * d * 2 ^ (- s0) <=? n)%Z then s0 else (s0 + 1)%Z.

Definition round53 (n d : Z) : Q :=
  let s := binade_shift n d in
  if (0 <=? s)%Z
  then Qmake (nearest_even (n * 2 ^ s) d) (Z.to_pos (2 ^ s))
  else inject_Z (nearest_even n (d * 2 ^ (- s)) * 2 ^ (- s)).

Definition to_double (x : Q) : Q :=
  match Qnum x with
  | Z0 => 0%Q
  | Zpos _ => round53 (Qnum x) (Zpos (Qden x))
  | Zneg _ => Qopp (round53 (- Qnum x) (Zpos (Qden x)))
  end.

(** [a * b] on numbers: the product, rounded. *)
Definition js_mul (a b : Q) : Q := to_double (a * b).

(* --------------------------------------------------------------------- *)
(** ** Outcome generator: PlinkoSimulator                                 *)
(* --------------------------------------------------------------------- *)

Module Plinko.
Local Open Scope Z_scope.

Inductive Direction : Type := Left | Right.

Record PlinkoPath : Type := { x : Z; y : Z; direction : Direction }.

Record DropResult : Type :=
  { path : list PlinkoPath; finalSlot : Z; amountCents : Z }.

Definition BOARD_WIDTH : Z := 7.
Definition BOARD_HEIGHT : Z := 8.
Definition PEG_SPACING : Z := 1.

Record Tier : Type := { tier_min : Z; tier_max : Z; weight : Z }.

Definition PRIZE_DISTRIBUTION : list Tier :=
  [ {| tier_min := 1;  tier_max := 5;   weight := 40 |};
    {| tier_min := 6;  tier_max := 15;  weight := 30 |};
    {| tier_min := 16; tier_max := 35;  weight := 20 |};
    {| tier_min := 36; tier_max := 65;  weight := 8 |};
    {| tier_min := 66; tier_max := 100; weight := 2 |} ].

(** A random source [rng : () => number] is a closure over some private
    state [St]; a call returns the sample and the closure's next state.

    JavaScript numbers are IEEE doubles.  The integers of the simulator
    (columns, rows, weights, prizes, the [hash] of the seeded closure)
    are kept as [Z]: they stay below [2 ^ 53], where doubles are exact.
    A sample and its products [rng() * totalWeight] and
    [rng() * (tier.max - tier.min + 1)] are kept as exact rationals: the
    rounding of the two products is left out here, and put in by
    [Draw64] below. *)
Section Draw.
Context {St : Type} (rng : St -> Q * St).

(** One iteration of the descent loop of [simulateDrop]. *)
Definition bounce (row currentX : Z) (r : Q) : Z * PlinkoPath :=
  let y := row * PEG_SPACING in
  let direction := if Qlt_bool r (1 # 2) then Left else Right in
  let currentX :=
    match direction with
    | Left => if 0 <? currentX then currentX - 1 else currentX
    | Right => if currentX <? BOARD_WIDTH - 1 then currentX + 1 else currentX
    end in
  (currentX, {| x := currentX * PEG_SPACING; y := y; direction := direction |}).

(** [for (let row = ...; row < BOARD_HEIGHT; row++)], with [n] rows left. *)
Fixpoint descend (n : nat) (row currentX : Z) (path : list PlinkoPath) (s : St)
  : Z * list PlinkoPath * St :=
  match n with
  | O => (currentX, path, s)
  | S n' =>
      let (r, s') := rng s in
      let (currentX', p) := bounce row currentX r in
      descend n' (row + 1) currentX' (path ++ [p]) s'
  end.

(** The tier walk of [calculatePrize]: [for (const tier of ...)]. *)
Fixpoint pickTier (tiers : list Tier) (currentWeight : Z) (randomWeight : Q) (s : St)
  : Z * St :=
  match tiers with
  | [] => (1, s)
  | tier :: rest =>
      let currentWeight := currentWeight + weight tier in
      if Qle_bool randomWeight (inject_Z currentWeight) then
        let (r, s') := rng s in
        (Qfloor (r * inject_Z (tier_max tier - tier_min tier + 1)) + tier_min tier, s')
      else pickTier rest currentWeight randomWeight s
  end.

Definition calculatePrize (slot : Z) (s : St) : Z * St :=
  let totalWeight := fold_left (fun sum tier => sum + weight tier) PRIZE_DISTRIBUTION 0 in
  let (r, s') := rng s in
  let randomWeight := (r * inject_Z totalWeight)%Q in
  pickTier PRIZE_DISTRIBUTION 0 randomWeight s'.

(** The body of [simulateDrop] once [rng] is chosen. *)
Definition drop (s : St) : DropResult * St :=
  let '(currentX, path, s1) :=
    descend (Z.to_nat BOARD_HEIGHT) 0 (BOARD_WIDTH / 2) [] s in
  let finalSlot := currentX in
  let (amountCents, s2) := calculatePrize finalSlot s1 in
  ({| path := path; finalSlot := finalSlot; amountCents := amountCents |}, s2).
End Draw.

(** [Math.random]: the engine's generator, global to the process.  Its
    state is the sequence of samples still to come and a cursor. *)
Record MathRandom : Type := { samples : nat -> Q; cursor : nat }.

Definition Math_random (w : MathRandom) : Q * MathRandom :=
  (samples w (cursor w), {| samples := samples w; cursor := S (cursor w) |}).

(** [createSeededRandom]: the hash loop gives the closure's initial
    [hash]; [seeded_next] is the returned closure. *)
Definition hashStep (hash char : Z) : Z :=
  let hash := (shl32 hash 5 - hash) + char in
  and32 hash hash.

Definition createSeededRandom (seed : JsString) : Z := fold_left hashStep seed 0.

Definition seeded_next (hash : Z) : Q * Z :=
  let hash := Z.rem (hash * 9301 + 49297) 233280 in
  (Qmake hash 233280, hash).

(** A string is truthy unless empty; [undefined] is falsy. *)
Definition truthy (seed : option JsString) : option JsString :=
  match seed with
  | Some [] => None
  | other => other
  end.

Definition simulateDrop (seed : option JsString) (w : MathRandom) : DropResult * MathRandom :=
  match truthy seed with
  | Some sd => (fst (drop seeded_next (createSeededRandom sd)), w)
  | None => drop Math_random w
  end.

(** The draw with the two products of [calculatePrize] rounded as the
    engine rounds them: [pickTier64], [calculatePrize64], [drop64] and
    [simulateDrop64] are [pickTier], [calculatePrize], [drop] and
    [simulateDrop] with [js_mul] for the exact product.  The descent has
    no product and is shared. *)
Section Draw64.
Context {St : Type} (rng : St -> Q * St).

Fixpoint pickTier64 (tiers : list Tier) (currentWeight : Z) (randomWeight : Q) (s : St)
  : Z * St :=
  match tiers with
  | [] => (1, s)
  | tier :: rest =>
      let currentWeight := currentWeight + weight tier in
      if Qle_bool randomWeight (inject_Z currentWeight) then
        let (r, s') := rng s in
        (Qfloor (js_mul r (inject_Z (tier_max tier - tier_min tier + 1))) + tier_min tier, s')
      else pickTier64 rest currentWeight randomWeight s
  end.

Definition calculatePrize64 (slot : Z) (s : St) : Z * St :=
  let totalWeight := fold_left (fun sum tier => sum + weight tier) PRIZE_DISTRIBUTION 0 in
  let (r, s') := rng s in
  let randomWeight := js_mul r (inject_Z totalWeight) in
  pickTier64 PRIZE_DISTRIBUTION 0 randomWeight s'.

Definition drop64 (s : St) : DropResult * St :=
  let '(currentX, path, s1) :=
    descend rng (Z.to_nat BOARD_HEIGHT) 0 (BOARD_WIDTH / 2) [] s in
  let finalSlot := currentX in
  let (amountCents, s2) := calculatePrize64 finalSlot s1 in
  ({| path := path; finalSlot := finalSlot; amountCents := amountCents |}, s2).
End Draw64.

Definition simulateDrop64 (seed : option JsString) (w : MathRandom)
  : DropResult * MathRandom :=
  match truthy seed with
  | Some sd => (fst (drop64 seeded_next (createSeededRandom sd)), w)
  | None => drop64 Math_random w
  end.

Definition validateDropResult (result : DropResult) : bool :=
  (1 <=? amountCents result) && (amountCents result <=? 100) &&
  (0 <=? finalSlot result) && (finalSlot result <? BOARD_WIDTH) &&
  (Z.of_nat (length (path result)) =? BOARD_HEIGHT).

(** A sample of the unit interval, as [Math.random] returns, and a
    [Math.random] that keeps returning such samples. *)
Definition unit_sample (r : Q) : Prop := (0 <= r)%Q /\ (r < 1)%Q.


(** [Math.random] returns a double below 1: the largest one is
    [1 - 2 ^ -53]. *)
Definition double_sample (r : Q) : Prop :=
  (0 <= r)%Q /\ (r <= 9007199254740991 # 9007199254740992)%Q.

Definition double_source (w : MathRandom) : Prop := forall n, double_sample (samples w n).

(** The doubles just below a width [k] of a tier: [m / 2 ^ s] is one,
    below [k], and every product of a sample and [k] lies below the
    midpoint between it and the next double. *)
Definition width_fits (k : Z) : Prop :=
  exists m s : Z,
    0 <= s /\ 2 ^ 52 <= m < 2 ^ 53 /\ m < k * 2 ^ s /\
    2 * k * 2 ^ s * (2 ^ 53 - 1) < (2 * m + 1) * 2 ^ 53.

(** A path read as a walk: the entry of row [row] carries that row in
    [y], and in [x] the column reached from [column] by one step in its
    [direction], kept on the board. *)
Fixpoint walk (row column : Z) (path : list PlinkoPath) : Prop :=
  match path with
  | [] => True
  | p :: rest =>
      y p = row /\
      x p = match direction p with
            | Left => Z.max 0 (column - 1)
            | Right => Z.min (BOARD_WIDTH - 1) (column + 1)
            end /\
      walk (row + 1) (x p) rest
  end.

(** The column of the last entry ([column] for an empty path). *)
Definition last_column (column : Z) (path : list PlinkoPath) : Z :=
  fold_left (fun _ p => x p) path column.

(** The polynomial [31 ^ (n-1) * c1 + ... + 31 * c(n-1) + cn] of the code
    units of a string. *)
Definition polynomial31 (seed : JsString) : Z :=
  fold_left (fun h c => 31 * h + c) seed 0.

End Plinko.

(* --------------------------------------------------------------------- *)
(** ** Quota ledger: RedisTicketManager with its in-memory fallback       *)
(* --------------------------------------------------------------------- *)

(** What a call that may throw completes with. *)
Inductive Completion (A : Type) : Type :=
  | Returned (a : A)
  | Thrown.
Arguments Returned {A} a.
Arguments Thrown {A}.

Module Tickets.
Local Open Scope Z_scope.

(** [toLowerCase], on the ASCII range (wallet addresses are hexadecimal). *)
Definition toLowerCase (s : JsString) : JsString :=
  map (fun c => if (65 <=? c) && (c <=? 90) then c + 32 else c) s.

Definition getTicketKey (walletAddress : JsString) : JsString :=
  js "tickets:" ++ toLowerCase walletAddress.

(** A text of ASCII characters only, as every wallet address that passed
    the pattern of the challenge endpoint is: on these texts
    [toLowerCase] above is the method of the language. *)
Definition is_ascii (text : JsString) : Prop := Forall (fun c => 0 <= c < 128) text.

(** *** The shared store

    A Redis key holds a value and, when set with SETEX, the instant (in
    milliseconds) at which it expires.  The ticket counters are decimal
    strings; they are kept as the integers they denote. *)
Record RedisEntry : Type := { rvalue : Z; expireAt : option Z }.

Definition redis_live (now : Z) (e : RedisEntry) : bool :=
  match expireAt e with
  | Some t => negb (t <? now)
  | None => true
  end.

Definition redis_find (now : Z) (db : gmap (list Z) RedisEntry) (key : JsString)
  : option RedisEntry :=
  match db !! key with
  | Some e => if redis_live now e then Some e else None
  | None => None
  end.

(** GET: the value, or [None] (nil) when the key is missing or expired. *)
Definition redis_GET (now : Z) (db : gmap (list Z) RedisEntry) (key : JsString) : option Z :=
  rvalue <$> redis_find now db key.

Definition redis_SETEX (now : Z) (db : gmap (list Z) RedisEntry) (key : JsString)
    (seconds value : Z) : gmap (list Z) RedisEntry :=
  <[key := {| rvalue := value; expireAt := Some (now + seconds * 1000) |}]> db.

(** DECR keeps the time to live; a missing key counts as 0 and gets none. *)
Definition redis_DECR (now : Z) (db : gmap (list Z) RedisEntry) (key : JsString)
  : gmap (list Z) RedisEntry :=
  match redis_find now db key with
  | Some e => <[key := {| rvalue := rvalue e - 1; expireAt := expireAt e |}]> db
  | None => <[key := {| rvalue := -1; expireAt := None |}]> db
  end.

(** The Lua script of [consumeTicket], run atomically by the server. *)
Definition consumeScript (now : Z) (key : JsString) (db : gmap (list Z) RedisEntry)
  : Z * gmap (list Z) RedisEntry :=
  match redis_GET now db key with
  | None => (1, redis_SETEX now db key 86400 2)
  | Some current =>
      if 0 <? current then (1, redis_DECR now db key) else (0, db)
  end.

(** *** The process-local store *)
Record MemEntry : Type := { tickets : Z; expiry : Z }.

Definition getTicketsFromMemory (now : Z) (walletAddress : JsString)
    (memoryStore : gmap (list Z) MemEntry) : Z * gmap (list Z) MemEntry :=
  let key := getTicketKey walletAddress in
  match memoryStore !! key with
  | Some data =>
      if expiry data <? now then
        (3, <[key := {| tickets := 3; expiry := now + 24 * 60 * 60 * 1000 |}]> memoryStore)
      else (tickets data, memoryStore)
  | None =>
      (3, <[key := {| tickets := 3; expiry := now + 24 * 60 * 60 * 1000 |}]> memoryStore)
  end.

Definition consumeTicketFromMemory (now : Z) (walletAddress : JsString)
    (memoryStore : gmap (list Z) MemEntry) : bool * gmap (list Z) MemEntry :=
  let key := getTicketKey walletAddress in
  let fresh := <[key := {| tickets := 2; expiry := now + 24 * 60 * 60 * 1000 |}]> memoryStore in
  match memoryStore !! key with
  | Some data =>
      if expiry data <? now then (true, fresh)
      else if 0 <? tickets data then
        (true, <[key := {| tickets := tickets data - 1; expiry := expiry data |}]> memoryStore)
      else (false, memoryStore)
  | None => (true, fresh)
  end.

Definition resetTicketsInMemory (now : Z) (walletAddress : JsString)
    (memoryStore : gmap (list Z) MemEntry) : gmap (list Z) MemEntry :=
  <[getTicketKey walletAddress := {| tickets := 3; expiry := now + 24 * 60 * 60 * 1000 |}]>
    memoryStore.

(** *** The manager

    [redisAvailable], the shared store and [memoryStore] make up the
    ledger's state.  [up] tells whether the round trip to the shared
    store succeeds; when it does not the client throws before the store
    is touched. *)
Record State : Type :=
  { redisAvailable : bool;
    redis : gmap (list Z) RedisEntry;
    memoryStore : gmap (list Z) MemEntry }.

Definition set_memory (st : State) (m : gmap (list Z) MemEntry) : State :=
  {| redisAvailable := redisAvailable st; redis := redis st; memoryStore := m |}.
Definition set_redis (st : State) (db : gmap (list Z) RedisEntry) : State :=
  {| redisAvailable := redisAvailable st; redis := db; memoryStore := memoryStore st |}.
Definition set_available (st : State) (b : bool) : State :=
  {| redisAvailable := b; redis := redis st; memoryStore := memoryStore st |}.

Definition redis_call {A : Type} (up : bool) (command : A) : Completion A :=
  if up then Returned command else Thrown.

Definition getRemainingTickets (up : bool) (now : Z) (walletAddress : JsString) (st : State)
  : Completion Z * State :=
  let fromMemory st :=
    let (n, m) := getTicketsFromMemory now walletAddress (memoryStore st) in
    (Returned n, set_memory st m) in
  if negb (redisAvailable st) then fromMemory st
  else
    let key := getTicketKey walletAddress in
    match redis_call up (redis_GET now (redis st) key) with
    | Returned None =>
        match redis_call up (redis_SETEX now (redis st) key (24 * 60 * 60) 3) with
        | Returned db => (Returned 3, set_redis st db)
        | Thrown => fromMemory (set_available st false)
        end
    | Returned (Some tickets) => (Returned tickets, st)
    | Thrown => fromMemory (set_available st false)
    end.

Definition consumeTicket (up : bool) (now : Z) (walletAddress : JsString) (st : State)
  : Completion bool * State :=
  let fromMemory st :=
    let (b, m) := consumeTicketFromMemory now walletAddress (memoryStore st) in
    (Returned b, set_memory st m) in
  if negb (redisAvailable st) then fromMemory st
  else
    let key := getTicketKey walletAddress in
    match redis_call up (consumeScript now key (redis st)) with
    | Returned (result, db) => (Returned (result =? 1), set_redis st db)
    | Thrown => fromMemory (set_available st false)
    end.

Definition resetTickets (up : bool) (now : Z) (walletAddress : JsString) (st : State)
  : Completion unit * State :=
  let inMemory st :=
    (Returned tt, set_memory st (resetTicketsInMemory now walletAddress (memoryStore st))) in
  if negb (redisAvailable st) then inMemory st
  else
    let key := getTicketKey walletAddress in
    match redis_call up (redis_SETEX now (redis st) key (24 * 60 * 60) 3) with
    | Returned db => (Returned tt, set_redis st db)
    | Thrown => inMemory (set_available st false)
    end.

(** *** The quota record a principal has, as the specification sees it *)
Record QuotaRecord : Type := { remaining : Z; windowExpiresAt : option Z }.

(** The record in force at [now]: none when missing or when its window
    has elapsed. *)
Definition redis_record (now : Z) (db : gmap (list Z) RedisEntry) (key : JsString)
  : option QuotaRecord :=
  (fun e => {| remaining := rvalue e; windowExpiresAt := expireAt e |})
    <$> redis_find now db key.

Definition memory_record (now : Z) (m : gmap (list Z) MemEntry) (key : JsString)
  : option QuotaRecord :=
  match m !! key with
  | Some d =>
      if expiry d <? now then None
      else Some {| remaining := tickets d; windowExpiresAt := Some (expiry d) |}
  | None => None
  end.

(** The algorithm of the specification (section 4.1), on the record in
    force: allowance 3, window 24 hours. *)
Definition ALLOWANCE : Z := 3.
Definition WINDOW_MS : Z := 24 * 60 * 60 * 1000.

Definition tryConsume_spec (now : Z) (record : option QuotaRecord)
  : bool * option QuotaRecord :=
  match record with
  | None =>
      (true, Some {| remaining := ALLOWANCE - 1; windowExpiresAt := Some (now + WINDOW_MS) |})
  | Some r =>
      if 0 <? remaining r then
        (true, Some {| remaining := remaining r - 1; windowExpiresAt := windowExpiresAt r |})
      else (false, Some r)
  end.

(** No stored counter is negative. *)
Definition nonnegative (st : State) : Prop :=
  (forall k e, redis st !! k = Some e -> 0 <= rvalue e) /\
  (forall k d, memoryStore st !! k = Some d -> 0 <= tickets d).

(** Every stored counter lies between 0 and the allowance. *)
Definition within_allowance (st : State) : Prop :=
  (forall k e, redis st !! k = Some e -> 0 <= rvalue e <= ALLOWANCE) /\
  (forall k d, memoryStore st !! k = Some d -> 0 <= tickets d <= ALLOWANCE).

(** The record in force in the store a call works on: the shared store
    when it is marked available and answers, the process memory
    otherwise. *)
Definition record_in_force (shared : bool) (now : Z) (st : State) (key : JsString)
  : option QuotaRecord :=
  if shared then redis_record now (redis st) key
  else memory_record now (memoryStore st) key.

End Tickets.

(* --------------------------------------------------------------------- *)
(** ** Solidity values, packed encoding and the primitives of the chain   *)
(* --------------------------------------------------------------------- *)

Module Evm.
Local Open Scope N_scope.

(** [uint256], [address], [bytes32] and [uint8] values are the natural
    numbers they denote; a byte string is a list of bytes. *)
Definition UINT256_LIMIT : N := 2 ^ 256.

Definition byte_of_N (v : N) : Byte.byte :=
  match Byte.of_N (v mod 256) with
  | Some b => b
  | None => Byte.x00
  end.

(** [n] bytes, big-endian (the value modulo [256 ^ n]). *)
Fixpoint be_bytes (n : nat) (v : N) : list Byte.byte :=
  match n with
  | O => []
  | S k => be_bytes k (v / 256) ++ [byte_of_N v]
  end.

Definition be_value (bs : list Byte.byte) : N :=
  fold_left (fun acc b => acc * 256 + Byte.to_N b) bs 0.

(** The arguments of [abi.encodePacked]. *)
Inductive AbiValue : Type :=
  | Uint256 (v : N)
  | Address (a : N)
  | Bytes32 (b : N)
  | StringLit (s : list Byte.byte).

Definition packed (v : AbiValue) : list Byte.byte :=
  match v with
  | Uint256 v => be_bytes 32 v
  | Address a => be_bytes 20 a
  | Bytes32 b => be_bytes 32 b
  | StringLit s => s
  end.

Definition encodePacked (vs : list AbiValue) : list Byte.byte := concat (map packed vs).

(** The hash and the signature recovery of the chain: [keccak256] gives
    the digest as a 256-bit number, [ecrecover hash v r s] the signing
    address (0 when there is none). *)
Class Crypto : Type :=
  { keccak256 : list Byte.byte -> N;
    ecrecover : N -> N -> N -> N -> N }.

(** An elliptic-curve key pair as the issuer's wallet holds it:
    [ecsign key digest] is [(r, s, yParity)]. *)
Class Wallet (C : Crypto) : Type :=
  { PrivateKey : Type;
    addressOf : PrivateKey -> N;
    ecsign : PrivateKey -> N -> N * N * bool;
    ecsign_range : forall k d, fst (fst (ecsign k d)) < 2 ^ 256 /\ snd (fst (ecsign k d)) < 2 ^ 256;
    ecrecover_ecsign : forall k d,
      ecrecover d (27 + (if snd (ecsign k d) then 1 else 0))
                (fst (fst (ecsign k d))) (snd (fst (ecsign k d))) = addressOf k }.

(** ["\x19Ethereum Signed Message:\n"] *)
Definition MESSAGE_PREFIX : list Byte.byte :=
  list_byte_of_string
    (String (ascii_of_N 25) "Ethereum Signed Message:" ++ String (ascii_of_N 10) "")%string.

End Evm.

(* --------------------------------------------------------------------- *)
(** ** Redemption validator: contract ClaimVault                          *)
(* --------------------------------------------------------------------- *)

Module Vault.
Import Evm.
Local Open Scope N_scope.

(** The custom errors of the contract, the [require] messages of the
    inherited OpenZeppelin modules ([ErrorMessage]), an arithmetic [Panic] and a
    revert bubbling up from the token. *)
Inductive Error : Type :=
  | InvalidSignature
  | VoucherExpired
  | AlreadyRedeemed
  | RecipientMismatch
  | InsufficientFunds
  | InvalidAmount
  | ZeroAddress
  | ErrorMessage (reason : string)
  | Panic (code : N)
  | TokenReverted.

Inductive Event : Type :=
  | Redeemed (recipient amountCents amountTokens nonce voucherHash : N)
  | SignerUpdated (oldSigner newSigner : N)
  | FundsDeposited (depositor amount : N)
  | FundsWithdrawn (recipient amount : N)
  | Paused (account : N)
  | Unpaused (account : N)
  | OwnershipTransferred (previousOwner newOwner : N).

(** What a committed transaction leaves behind, in program order: the
    writes to [redeemed], the token movements and the events. *)
Inductive Effect : Type :=
  | MarkedRedeemed (voucherHash : N)
  | TokenTransfer (from to amount : N)
  | Emitted (e : Event).

(** The reserve token [usdc]: an ERC-20 ledger.  [transfer] and
    [transferFrom] revert unless the balance (and the allowance) cover
    the amount. *)
Record Token : Type :=
  { balances : gmap N N;
    allowances : gmap (N * N) N }.

Definition balanceOf (t : Token) (account : N) : N := default 0 (balances t !! account).
Definition allowance (t : Token) (holder spender : N) : N :=
  default 0 (allowances t !! (holder, spender)).

Definition move (t : Token) (from to amount : N) : Token :=
  let debited := <[from := balanceOf t from - amount]> (balances t) in
  {| balances := <[to := default 0 (debited !! to) + amount]> debited;
     allowances := allowances t |}.

Definition token_transfer (t : Token) (caller to amount : N) : option Token :=
  if balanceOf t caller <? amount then None else Some (move t caller to amount).

Definition token_transferFrom (t : Token) (caller from to amount : N) : option Token :=
  if allowance t from caller <? amount then None
  else if balanceOf t from <? amount then None
  else
    let t' := move t from to amount in
    Some {| balances := balances t';
            allowances := <[(from, caller) := allowance t from caller - amount]> (allowances t') |}.

Definition token_approve (t : Token) (caller spender amount : N) : Token :=
  {| balances := balances t;
     allowances := <[(caller, spender) := amount]> (allowances t) |}.

(** Storage of the vault (with the inherited [_owner], [_paused] and
    [_status]), the address it is deployed at, the token ledger and the
    effects committed so far. *)
Record State : Type :=
  { self : N;
    usdc_address : N;
    _owner : N;
    _paused : bool;
    _entered : bool;
    signer : N;
    redeemed : gmap N bool;
    totalRedeemed : N;
    totalVouchers : N;
    usdc : Token;
    history : list Effect }.

Definition isRedeemed (s : State) (voucherHash : N) : bool :=
  default false (redeemed s !! voucherHash).

Definition with_owner (v : N) (s : State) : State :=
  {| self := self s; usdc_address := usdc_address s; _owner := v; _paused := _paused s;
     _entered := _entered s; signer := signer s; redeemed := redeemed s;
     totalRedeemed := totalRedeemed s; totalVouchers := totalVouchers s;
     usdc := usdc s; history := history s |}.
Definition with_paused (v : bool) (s : State) : State :=
  {| self := self s; usdc_address := usdc_address s; _owner := _owner s; _paused := v;
     _entered := _entered s; signer := signer s; redeemed := redeemed s;
     totalRedeemed := totalRedeemed s; totalVouchers := totalVouchers s;
     usdc := usdc s; history := history s |}.
Definition with_entered (v : bool) (s : State) : State :=
  {| self := self s; usdc_address := usdc_address s; _owner := _owner s; _paused := _paused s;
     _entered := v; signer := signer s; redeemed := redeemed s;
     totalRedeemed := totalRedeemed s; totalVouchers := totalVouchers s;
     usdc := usdc s; history := history s |}.
Definition with_signer (v : N) (s : State) : State :=
  {| self := self s; usdc_address := usdc_address s; _owner := _owner s; _paused := _paused s;
     _entered := _entered s; signer := v; redeemed := redeemed s;
     totalRedeemed := totalRedeemed s; totalVouchers := totalVouchers s;
     usdc := usdc s; history := history s |}.
Definition with_redeemed (v : gmap N bool) (s : State) : State :=
  {| self := self s; usdc_address := usdc_address s; _owner := _owner s; _paused := _paused s;
     _entered := _entered s; signer := signer s; redeemed := v;
     totalRedeemed := totalRedeemed s; totalVouchers := totalVouchers s;
     usdc := usdc s; history := history s |}.
Definition with_totalRedeemed (v : N) (s : State) : State :=
  {| self := self s; usdc_address := usdc_address s; _owner := _owner s; _paused := _paused s;
     _entered := _entered s; signer := signer s; redeemed := redeemed s;
     totalRedeemed := v; totalVouchers := totalVouchers s;
     usdc := usdc s; history := history s |}.
Definition with_totalVouchers (v : N) (s : State) : State :=
  {| self := self s; usdc_address := usdc_address s; _owner := _owner s; _paused := _paused s;
     _entered := _entered s; signer := signer s; redeemed := redeemed s;
     totalRedeemed := totalRedeemed s; totalVouchers := v;
     usdc := usdc s; history := history s |}.
Definition with_usdc (v : Token) (s : State) : State :=
  {| self := self s; usdc_address := usdc_address s; _owner := _owner s; _paused := _paused s;
     _entered := _entered s; signer := signer s; redeemed := redeemed s;
     totalRedeemed := totalRedeemed s; totalVouchers := totalVouchers s;
     usdc := v; history := history s |}.
Definition with_history (v : list Effect) (s : State) : State :=
  {| self := self s; usdc_address := usdc_address s; _owner := _owner s; _paused := _paused s;
     _entered := _entered s; signer := signer s; redeemed := redeemed s;
     totalRedeemed := totalRedeemed s; totalVouchers := totalVouchers s;
     usdc := usdc s; history := v |}.

(** *** Execution: a state and error monad

    A function body runs on the state and either returns, or reverts
    with an error.  [transaction] below commits the state of a body that
    returns and discards everything a reverting body did. *)
Inductive Result (A : Type) : Type :=
  | Ok (a : A)
  | Revert (e : Error).
Arguments Ok {A} a.
Arguments Revert {A} e.

Definition M (A : Type) : Type := State -> Result (A * State).

Definition ret {A : Type} (a : A) : M A := fun s => Ok (a, s).
Definition bind {A B : Type} (m : M A) (k : A -> M B) : M B :=
  fun s => match m s with
           | Ok (a, s') => k a s'
           | Revert e => Revert e
           end.
Definition revert {A : Type} (e : Error) : M A := fun _ => Revert e.
Definition gets {A : Type} (f : State -> A) : M A := fun s => Ok (f s, s).
Definition modify (f : State -> State) : M unit := fun s => Ok (tt, f s).
Definition when (b : bool) (m : M unit) : M unit := if b then m else ret tt.
Definition record (e : Effect) : M unit :=
  modify (fun s => with_history (history s ++ [e]) s).
Definition emit (e : Event) : M unit := record (Emitted e).

Instance M_ret : MRet M := @ret.
Instance M_bind : MBind M := fun A B k m => bind m k.

(** Checked arithmetic of Solidity 0.8. *)
Definition checked_add (a b : N) : M N :=
  if a + b <? UINT256_LIMIT then ret (a + b) else revert (Panic 17).
Definition checked_mul (a b : N) : M N :=
  if a * b <? UINT256_LIMIT then ret (a * b) else revert (Panic 17).

(** A call's context: [msg.sender] and [block.timestamp]. *)
Record Msg : Type := { sender : N; timestamp : N }.

(** External calls to the token, made by the vault. *)
Definition usdc_balanceOf (account : N) : M N := gets (fun s => balanceOf (usdc s) account).

Definition usdc_transfer (to amount : N) : M unit :=
  fun s => match token_transfer (usdc s) (self s) to amount with
           | Some t => record (TokenTransfer (self s) to amount) (with_usdc t s)
           | None => Revert TokenReverted
           end.

Definition usdc_transferFrom (from to amount : N) : M unit :=
  fun s => match token_transferFrom (usdc s) (self s) from to amount with
           | Some t => record (TokenTransfer from to amount) (with_usdc t s)
           | None => Revert TokenReverted
           end.

(** The inherited modifiers. *)
Definition nonReentrant (body : M unit) : M unit :=
  entered ← gets _entered;
  when entered (revert (ErrorMessage "ReentrancyGuard: reentrant call"));;
  modify (with_entered true);;
  body;;
  modify (with_entered false).

Definition whenNotPaused (body : M unit) : M unit :=
  paused ← gets _paused;
  when paused (revert (ErrorMessage "Pausable: paused"));;
  body.

Definition whenPaused (body : M unit) : M unit :=
  paused ← gets _paused;
  when (negb paused) (revert (ErrorMessage "Pausable: not paused"));;
  body.

Definition onlyOwner (msg : Msg) (body : M unit) : M unit :=
  owner ← gets _owner;
  when (negb (owner =? sender msg)) (revert (ErrorMessage "Ownable: caller is not the owner"));;
  body.

Section Contract.
Context {C : Crypto}.

(** [keccak256(abi.encodePacked(amountCents, recipient, nonce, expiry, address(this)))] *)
Definition voucherHashOf (this amountCents recipient nonce expiry : N) : N :=
  keccak256 (encodePacked
    [Uint256 amountCents; Address recipient; Bytes32 nonce; Uint256 expiry; Address this]).

(** [keccak256(abi.encodePacked("\x19Ethereum Signed Message:\n32", voucherHash))] *)
Definition ethSignedMessageHashOf (voucherHash : N) : N :=
  keccak256 (encodePacked
    [StringLit (MESSAGE_PREFIX ++ list_byte_of_string "32"); Bytes32 voucherHash]).

Definition _recoverSigner (hash : N) (signature : list Byte.byte) : M N :=
  when (negb (N.of_nat (length signature) =? 65)) (revert InvalidSignature);;
  let r := be_value (firstn 32 signature) in
  let s := be_value (firstn 32 (skipn 32 signature)) in
  let v := be_value (firstn 1 (skipn 64 signature)) in
  let v := if v <? 27 then v + 27 else v in
  ret (ecrecover hash v r s).

Definition redeem (msg : Msg) (amountCents recipient nonce expiry : N)
    (signature : list Byte.byte) : M unit :=
  nonReentrant (whenNotPaused (
    when (expiry <? timestamp msg) (revert VoucherExpired);;
    when (negb (recipient =? sender msg)) (revert RecipientMismatch);;
    when ((amountCents =? 0) || (100 <? amountCents)) (revert InvalidAmount);;
    this ← gets self;
    let voucherHash := voucherHashOf this amountCents recipient nonce expiry in
    alreadyRedeemed ← gets (fun s => isRedeemed s voucherHash);
    when alreadyRedeemed (revert AlreadyRedeemed);;
    let ethSignedMessageHash := ethSignedMessageHashOf voucherHash in
    recovered ← _recoverSigner ethSignedMessageHash signature;
    currentSigner ← gets signer;
    when (negb (recovered =? currentSigner)) (revert InvalidSignature);;
    modify (fun s => with_redeemed (<[voucherHash := true]> (redeemed s)) s);;
    record (MarkedRedeemed voucherHash);;
    amountTokens ← checked_mul amountCents 10000;
    balance ← usdc_balanceOf this;
    when (balance <? amountTokens) (revert InsufficientFunds);;
    total ← gets totalRedeemed;
    total' ← checked_add total amountTokens;
    modify (with_totalRedeemed total');;
    count ← gets totalVouchers;
    count' ← checked_add count 1;
    modify (with_totalVouchers count');;
    usdc_transfer recipient amountTokens;;
    emit (Redeemed recipient amountCents amountTokens nonce voucherHash))).

Definition isVoucherRedeemed (amountCents recipient nonce expiry : N) : M bool :=
  this ← gets self;
  gets (fun s => isRedeemed s (voucherHashOf this amountCents recipient nonce expiry)).

Definition deposit (msg : Msg) (amount : N) : M unit :=
  when (amount =? 0) (revert InvalidAmount);;
  this ← gets self;
  usdc_transferFrom (sender msg) this amount;;
  emit (FundsDeposited (sender msg) amount).

Definition withdraw (msg : Msg) (amount recipient : N) : M unit :=
  onlyOwner msg (
    when (amount =? 0) (revert InvalidAmount);;
    when (recipient =? 0) (revert ZeroAddress);;
    usdc_transfer recipient amount;;
    emit (FundsWithdrawn recipient amount)).

Definition emergencyWithdraw (msg : Msg) (recipient : N) : M unit :=
  onlyOwner msg (
    when (recipient =? 0) (revert ZeroAddress);;
    this ← gets self;
    balance ← usdc_balanceOf this;
    when (0 <? balance) (
      usdc_transfer recipient balance;;
      emit (FundsWithdrawn recipient balance))).

Definition updateSigner (msg : Msg) (newSigner : N) : M unit :=
  onlyOwner msg (
    when (newSigner =? 0) (revert ZeroAddress);;
    oldSigner ← gets signer;
    modify (with_signer newSigner);;
    emit (SignerUpdated oldSigner newSigner)).

Definition pause (msg : Msg) : M unit :=
  onlyOwner msg (whenNotPaused (
    modify (with_paused true);;
    emit (Paused (sender msg)))).

Definition unpause (msg : Msg) : M unit :=
  onlyOwner msg (whenPaused (
    modify (with_paused false);;
    emit (Unpaused (sender msg)))).

Definition _transferOwnership (newOwner : N) : M unit :=
  oldOwner ← gets _owner;
  modify (with_owner newOwner);;
  emit (OwnershipTransferred oldOwner newOwner).

Definition transferOwnership (msg : Msg) (newOwner : N) : M unit :=
  onlyOwner msg (
    when (newOwner =? 0) (revert (ErrorMessage "Ownable: new owner is the zero address"));;
    _transferOwnership newOwner).

Definition renounceOwnership (msg : Msg) : M unit :=
  onlyOwner msg (_transferOwnership 0).

Definition getStats : M (N * N * N) :=
  this ← gets self;
  balance ← usdc_balanceOf this;
  redeemed_ ← gets totalRedeemed;
  vouchers ← gets totalVouchers;
  ret (balance, redeemed_, vouchers).

(** The constructor, run after the one of [Ownable] on the blank
    storage of a fresh deployment at address [this], with the token
    ledger as it stands. *)
Definition blank (this : N) (token : Token) : State :=
  {| self := this; usdc_address := 0; _owner := 0; _paused := false; _entered := false;
     signer := 0; redeemed := ∅; totalRedeemed := 0; totalVouchers := 0;
     usdc := token; history := [] |}.

Definition constructor (msg : Msg) (owner_ signer_ usdc_ : N) : M unit :=
  _transferOwnership (sender msg);;
  when ((owner_ =? 0) || (signer_ =? 0) || (usdc_ =? 0)) (revert ZeroAddress);;
  _transferOwnership owner_;;
  modify (with_signer signer_);;
  modify (fun s =>
    {| self := self s; usdc_address := usdc_; _owner := _owner s; _paused := _paused s;
       _entered := _entered s; signer := signer s; redeemed := redeemed s;
       totalRedeemed := totalRedeemed s; totalVouchers := totalVouchers s;
       usdc := usdc s; history := history s |}).

(** *** Transactions *)
Inductive Call : Type :=
  | CallRedeem (amountCents recipient nonce expiry : N) (signature : list Byte.byte)
  | CallDeposit (amount : N)
  | CallWithdraw (amount recipient : N)
  | CallEmergencyWithdraw (recipient : N)
  | CallUpdateSigner (newSigner : N)
  | CallPause
  | CallUnpause
  | CallTransferOwnership (newOwner : N)
  | CallRenounceOwnership.

Definition dispatch (msg : Msg) (c : Call) : M unit :=
  match c with
  | CallRedeem amountCents recipient nonce expiry signature =>
      redeem msg amountCents recipient nonce expiry signature
  | CallDeposit amount => deposit msg amount
  | CallWithdraw amount recipient => withdraw msg amount recipient
  | CallEmergencyWithdraw recipient => emergencyWithdraw msg recipient
  | CallUpdateSigner newSigner => updateSigner msg newSigner
  | CallPause => pause msg
  | CallUnpause => unpause msg
  | CallTransferOwnership newOwner => transferOwnership msg newOwner
  | CallRenounceOwnership => renounceOwnership msg
  end.

(** A transaction either commits the state its body returns with, or
    reverts and leaves no trace. *)
Definition transaction (body : M unit) (s : State) : Result State :=
  match body s with
  | Ok (_, s') => Ok s'
  | Revert e => Revert e
  end.

Definition run (msg : Msg) (c : Call) (s : State) : Result State :=
  transaction (dispatch msg c) s.

(** The state after the transaction, whatever its outcome. *)
Definition exec (msg : Msg) (c : Call) (s : State) : State :=
  match run msg c s with
  | Ok s' => s'
  | Revert _ => s
  end.

(** What the token's other holders do between the vault's
    transactions: transfers and approvals of their own. *)
Inductive TokenOp : Type :=
  | OpTransfer (caller to amount : N)
  | OpTransferFrom (caller from to amount : N)
  | OpApprove (caller spender amount : N).

Definition token_op (op : TokenOp) (s : State) : State :=
  match op with
  | OpTransfer caller to amount =>
      if caller =? self s then s
      else match token_transfer (usdc s) caller to amount with
           | Some t => with_usdc t s
           | None => s
           end
  | OpTransferFrom caller from to amount =>
      if caller =? self s then s
      else match token_transferFrom (usdc s) caller from to amount with
           | Some t => with_usdc t s
           | None => s
           end
  | OpApprove caller spender amount =>
      if caller =? self s then s else with_usdc (token_approve (usdc s) caller spender amount) s
  end.

Inductive Step : Type :=
  | VaultTx (msg : Msg) (c : Call)
  | TokenTx (op : TokenOp).

Definition step (st : Step) (s : State) : State :=
  match st with
  | VaultTx msg c => exec msg c s
  | TokenTx op => token_op op s
  end.

Definition steps (l : list Step) (s : State) : State := fold_left (fun s st => step st s) l s.

(** The states of a deployed vault. *)
Inductive reachable : State -> Prop :=
  | reachable_deployed this token msg owner_ signer_ usdc_ s :
      transaction (constructor msg owner_ signer_ usdc_) (blank this token) = Ok s ->
      reachable s
  | reachable_step s st : reachable s -> reachable (step st s).

(** *** The vocabulary of the specification *)

(** The signer recovered from [signature] over the Commitment
    [voucherHash]: none when the signature is not 65 bytes long. *)
Definition recoveredSigner (voucherHash : N) (signature : list Byte.byte) : option N :=
  if N.of_nat (length signature) =? 65 then
    let r := be_value (firstn 32 signature) in
    let s := be_value (firstn 32 (skipn 32 signature)) in
    let v := be_value (firstn 1 (skipn 64 signature)) in
    let v := if v <? 27 then v + 27 else v in
    Some (ecrecover (ethSignedMessageHashOf voucherHash) v r s)
  else None.

(** The state a successful redemption commits. *)
Definition redeemed_state (s : State) (amountCents recipient nonce expiry : N) : State :=
  let voucherHash := voucherHashOf (self s) amountCents recipient nonce expiry in
  let amountTokens := amountCents * 10000 in
  {| self := self s; usdc_address := usdc_address s; _owner := _owner s;
     _paused := _paused s; _entered := false; signer := signer s;
     redeemed := <[voucherHash := true]> (redeemed s);
     totalRedeemed := totalRedeemed s + amountTokens;
     totalVouchers := totalVouchers s + 1;
     usdc := move (usdc s) (self s) recipient amountTokens;
     history := ((history s ++ [MarkedRedeemed voucherHash])
                   ++ [TokenTransfer (self s) recipient amountTokens])
                   ++ [Emitted (Redeemed recipient amountCents amountTokens nonce voucherHash)] |}.

(** [s'] comes after [s]: the same deployment, outside any call as [s]
    is, every consumed flag of [s] still set, and the effects of [s]
    the beginning of those of [s']. *)
Definition extends (s s' : State) : Prop :=
  self s' = self s /\
  _entered s' = _entered s /\
  (forall h, isRedeemed s h = true -> isRedeemed s' h = true) /\
  exists later, history s' = history s ++ later.




(** The token amounts of the [Redeemed] events among the effects, in
    program order. *)
Fixpoint redeemedAmounts (effects : list Effect) : list N :=
  match effects with
  | [] => []
  | Emitted (Redeemed _ _ amountTokens _ _) :: rest => amountTokens :: redeemedAmounts rest
  | _ :: rest => redeemedAmounts rest
  end.

End Contract.
End Vault.

(* --------------------------------------------------------------------- *)
(** ** Voucher issuer: CryptoService                                      *)
(* --------------------------------------------------------------------- *)

Module Issuer.
Import Evm.
Local Open Scope Z_scope.

(** The hexadecimal texts ([recipient], [nonce], the contract address)
    are kept as the bytes they denote. *)
Record VoucherData : Type :=
  { recipient : list Byte.byte;
    amountCents : Z;
    nonce : list Byte.byte;
    expiry : Z }.

Inductive SolType : Type := T_uint256 | T_address | T_bytes32.

Inductive JsArg : Type :=
  | JNumber (n : Z)
  | JData (bytes : list Byte.byte).

(** [ethers.solidityPacked]: one value per type, each in the type's
    width; a value that does not fit its type throws ([None]). *)
Definition pack (type : SolType) (value : JsArg) : option (list Byte.byte) :=
  match type, value with
  | T_uint256, JNumber n =>
      if (0 <=? n) && (n <? 2 ^ 256) then Some (be_bytes 32 (Z.to_N n)) else None
  | T_address, JData bytes => if (length bytes =? 20)%nat then Some bytes else None
  | T_bytes32, JData bytes => if (length bytes =? 32)%nat then Some bytes else None
  | _, _ => None
  end.

Fixpoint solidityPacked (types : list SolType) (values : list JsArg)
  : option (list Byte.byte) :=
  match types, values with
  | [], [] => Some []
  | type :: types, value :: values =>
      head ← pack type value;
      rest ← solidityPacked types values;
      Some (head ++ rest)
  | _, _ => None
  end.

Section Service.
Context {C : Crypto} {W : Wallet C}.

Definition solidityPackedKeccak256 (types : list SolType) (values : list JsArg) : option N :=
  keccak256 <$> solidityPacked types values.

(** [ethers.getBytes] of a 32-byte digest. *)
Definition getBytes (digest : N) : list Byte.byte := be_bytes 32 digest.

(** [ethers.hashMessage]: the prefix, the length in decimal, the message. *)
Definition hashMessage (message : list Byte.byte) : N :=
  keccak256 (MESSAGE_PREFIX ++ list_byte_of_string (pretty (length message)) ++ message).

(** The 65 bytes [r ‖ s ‖ v] of a signature. *)
Definition serialized (sig : N * N * bool) : list Byte.byte :=
  let '(r, s, yParity) := sig in
  be_bytes 32 r ++ be_bytes 32 s ++ [byte_of_N (if yParity then 28 else 27)].

Definition signMessage (key : PrivateKey) (message : list Byte.byte) : list Byte.byte :=
  serialized (ecsign key (hashMessage message)).

Definition signVoucher (signer : PrivateKey) (voucherData : VoucherData)
    (contractAddress : list Byte.byte) : option (list Byte.byte) :=
  messageHash ← solidityPackedKeccak256
    [T_uint256; T_address; T_bytes32; T_uint256; T_address]
    [JNumber (amountCents voucherData); JData (recipient voucherData);
     JData (nonce voucherData); JNumber (expiry voucherData); JData contractAddress];
  let ethSignedMessageHash := hashMessage (getBytes messageHash) in
  let signature := signMessage signer (getBytes messageHash) in
  Some signature.

Definition getSignerAddress (signer : PrivateKey) : N := addressOf signer.
End Service.

(** [generateAuthMessage]: the text a wallet signs to authenticate, as
    code units (10 is the line feed). *)
Definition generateAuthMessage (walletAddress nonce : JsString) : JsString :=
  js "Sign this message to authenticate with Farcaster Plinko:" ++ [10; 10]
    ++ js "Wallet: " ++ walletAddress ++ [10] ++ js "Nonce: " ++ nonce.
End Issuer.

(* --------------------------------------------------------------------- *)
(** ** Draw endpoint: the POST /api/drop handler                          *)
(* --------------------------------------------------------------------- *)

Module Routes.
Local Open Scope Z_scope.

(** *** The tables (shared/schema.ts) and their storage (PostgresStorage) *)
Record User : Type := { user_id : Z; walletAddress : JsString }.

Record VoucherData : Type :=
  { recipient : JsString; amountCents : Z; nonce : JsString; expiry : Z }.

Record Voucher : Type :=
  { voucher_id : Z;
    voucher_data : VoucherData;
    signature : JsString;
    redeemedAt : option Z;
    txHash : option JsString }.

(** [pathData] holds [JSON.stringify(dropResult.path)]; the row keeps the
    path the text serialises. *)
Record InsertDropHistory : Type :=
  { userId : Z;
    drop_amountCents : Z;
    pathData : list Plinko.PlinkoPath;
    voucherId : option Z }.

Record DropHistory : Type := { drop_id : Z; drop_row : InsertDropHistory }.

(** Rows in insertion order, and the next value of each [serial] id. *)
Record Db : Type :=
  { vouchers : list Voucher;
    dropHistory : list DropHistory;
    next_voucher_id : Z;
    next_drop_id : Z }.

Definition createVoucher (data : VoucherData) (sig : JsString) (db : Db) : Voucher * Db :=
  let row := {| voucher_id := next_voucher_id db; voucher_data := data; signature := sig;
                redeemedAt := None; txHash := None |} in
  (row, {| vouchers := vouchers db ++ [row]; dropHistory := dropHistory db;
           next_voucher_id := next_voucher_id db + 1; next_drop_id := next_drop_id db |}).

Definition createDropHistory (drop : InsertDropHistory) (db : Db) : DropHistory * Db :=
  let row := {| drop_id := next_drop_id db; drop_row := drop |} in
  (row, {| vouchers := vouchers db; dropHistory := dropHistory db ++ [row];
           next_voucher_id := next_voucher_id db; next_drop_id := next_drop_id db + 1 |}).

(** [getVoucherByNonce]: the first row with this nonce, if there is one. *)
Definition getVoucherByNonce (nonce_ : JsString) (db : Db) : option Voucher :=
  List.find (fun v => bool_decide (nonce (voucher_data v) = nonce_)) (vouchers db).

(** [markVoucherRedeemed], run at the instant [now_]: every row with this
    nonce gets [redeemedAt] and [txHash] set. *)
Definition markVoucherRedeemed (now_ : Z) (nonce_ txHash_ : JsString) (db : Db) : Db :=
  {| vouchers :=
       map (fun v =>
              if bool_decide (nonce (voucher_data v) = nonce_)
              then {| voucher_id := voucher_id v; voucher_data := voucher_data v;
                      signature := signature v;
                      redeemedAt := Some now_; txHash := Some txHash_ |}
              else v)
           (vouchers db);
     dropHistory := dropHistory db;
     next_voucher_id := next_voucher_id db;
     next_drop_id := next_drop_id db |}.





(** *** The server's state and what a request meets *)
Record App : Type :=
  { tickets : Tickets.State;
    db : Db;
    random : Plinko.MathRandom }.

(** The environment of one request: the clock, whether the shared store
    answers, the bytes [generateNonce] draws, and which of the handler's
    storage calls (numbered in program order) reach the database. *)
Record Env : Type :=
  { now : Z;
    redis_up : bool;
    fresh_nonce : JsString;
    storage_up : nat -> bool }.

Inductive Response : Type :=
  | Json (dropResult : Plinko.DropResult) (voucher : option Voucher) (remainingTickets : Z)
  | Status (code : Z) (error : string).

(** Handler code: state passing with exceptions; the state reached when
    an exception is thrown stays (nothing is rolled back). *)
Definition H (A : Type) : Type := App -> Completion A * App.

Instance H_ret : MRet H := fun A a app => (Returned a, app).
Instance H_bind : MBind H := fun A B k m app =>
  match m app with
  | (Returned a, app') => k a app'
  | (Thrown, app') => (Thrown, app')
  end.

Definition with_tickets (t : Tickets.State) (app : App) : App :=
  {| tickets := t; db := db app; random := random app |}.
Definition with_db (d : Db) (app : App) : App :=
  {| tickets := tickets app; db := d; random := random app |}.
Definition with_random (r : Plinko.MathRandom) (app : App) : App :=
  {| tickets := tickets app; db := db app; random := r |}.

Definition storage_call {A : Type} (up : bool) (query : Db -> A * Db) : H A :=
  fun app =>
    if up then let (a, d) := query (db app) in (Returned a, with_db d app)
    else (Thrown, app).

Definition ticketManager_consumeTicket (env : Env) (wallet : JsString) : H bool :=
  fun app =>
    let (c, t) := Tickets.consumeTicket (redis_up env) (now env) wallet (tickets app) in
    (c, with_tickets t app).

Definition ticketManager_getRemainingTickets (env : Env) (wallet : JsString) : H Z :=
  fun app =>
    let (c, t) := Tickets.getRemainingTickets (redis_up env) (now env) wallet (tickets app) in
    (c, with_tickets t app).

Definition plinkoSimulator_simulateDrop : H Plinko.DropResult :=
  fun app =>
    let (r, w) := Plinko.simulateDrop None (random app) in
    (Returned r, with_random w app).

Section Handler.
(** [cryptoService.signVoucher] with the configured vault address: it
    returns the signature or throws. *)
Context (signVoucher : VoucherData -> Completion JsString).

Definition cryptoService_signVoucher (voucherData : VoucherData) : H JsString :=
  fun app => (signVoucher voucherData, app).

(** The [try] block; a [Status] is an early [return res.status(..)]. *)
Definition drop_body (env : Env) (user : User) : H Response :=
  hasTicket ← ticketManager_consumeTicket env (walletAddress user);
  if negb hasTicket then mret (Status 400 "No tickets remaining")
  else
    dropResult ← plinkoSimulator_simulateDrop;
    if negb (Plinko.validateDropResult dropResult)
    then mret (Status 500 "Invalid drop result")
    else
      dropHistory ← storage_call (storage_up env 0) (createDropHistory
        {| userId := user_id user;
           drop_amountCents := Plinko.amountCents dropResult;
           pathData := Plinko.path dropResult;
           voucherId := None |});
      voucher ←
        (if 0 <? Plinko.amountCents dropResult then
           let nonce := fresh_nonce env in
           let expiry := now env / 1000 + 30 * 24 * 60 * 60 in
           let voucherData :=
             {| recipient := walletAddress user;
                amountCents := Plinko.amountCents dropResult;
                nonce := nonce;
                expiry := expiry |} in
           signature ← cryptoService_signVoucher voucherData;
           voucher ← storage_call (storage_up env 1) (createVoucher voucherData signature);
           storage_call (storage_up env 2) (createDropHistory
             {| userId := user_id user;
                drop_amountCents := Plinko.amountCents dropResult;
                pathData := Plinko.path dropResult;
                voucherId := Some (voucher_id voucher) |});;
           mret (Some voucher)
         else mret None);
      remainingTickets ← ticketManager_getRemainingTickets env (walletAddress user);
      mret (Json dropResult voucher remainingTickets).

(** [try { ... } catch (error) { res.status(500)... }] *)
Definition drop_handler (env : Env) (user : User) (app : App) : Response * App :=
  match drop_body env user app with
  | (Returned response, app') => (response, app')
  | (Thrown, app') => (Status 500 "Failed to process drop", app')
  end.
End Handler.

(** *** The texts the issuer is given (server/lib/crypto.ts)

    [generateNonce]: [crypto.randomBytes(32).toString("hex")], the random
    bytes as lower-case hexadecimal digits, two a byte and no prefix. *)
Definition hexDigit (v : Z) : Z := if v <? 10 then 48 + v else 87 + v.

Definition toHex (bytes : list Byte.byte) : JsString :=
  flat_map (fun b => let v := Z.of_N (Byte.to_N b) in [hexDigit (v / 16); hexDigit (v mod 16)])
    bytes.

Definition generateNonce (randomBytes : list Byte.byte) : JsString := toHex randomBytes.

(** What ethers (version 6, whose [solidityPackedKeccak256], [getBytes]
    and [hashMessage] the service calls) reads a value as.  A text stands
    for bytes when it is "0x" followed by pairs of hexadecimal digits;
    any other text throws. *)
Definition hexValue (c : Z) : option N :=
  if (48 <=? c) && (c <=? 57) then Some (Z.to_N (c - 48))
  else if (97 <=? c) && (c <=? 102) then Some (Z.to_N (c - 87))
  else if (65 <=? c) && (c <=? 70) then Some (Z.to_N (c - 55))
  else None.

Fixpoint hexPairs (digits : JsString) : option (list Byte.byte) :=
  match digits with
  | [] => Some []
  | high :: low :: rest =>
      h ← hexValue high;
      l ← hexValue low;
      bytes ← hexPairs rest;
      Some (Evm.byte_of_N (16 * h + l) :: bytes)
  | _ => None
  end.

Definition data_of_text (value : JsString) : option (list Byte.byte) :=
  match value with
  | zero :: x :: digits =>
      if (zero =? 48) && ((x =? 120) || (x =? 88)) then hexPairs digits else None
  | _ => None
  end.

(** A value of type [bytes32] is data of 32 bytes; a number given for a
    [uint256] is an integer from 0 to [Number.MAX_SAFE_INTEGER]. *)
Definition bytes32_of_text (value : JsString) : option (list Byte.byte) :=
  bytes ← data_of_text value;
  if (length bytes =? 32)%nat then Some bytes else None.

Definition uint_of_number (value : Z) : option Z :=
  if (0 <=? value) && (value <=? 2 ^ 53 - 1) then Some value else None.

Section Service.
Context {C : Evm.Crypto} {W : Evm.Wallet C}.

(** [ethers.getAddress], which reads the text of an address and verifies
    its checksum, is taken as given: the bytes of the address, or none
    where it throws. *)
Context (getAddress : JsString -> option (list Byte.byte)).

(** [cryptoService.signVoucher(voucherData, contractAddress)] on the
    values the handler passes: the five values are read in the order of
    the types, the first that cannot be read throws, and the signature is
    returned as "0x" and its hexadecimal digits. *)
Definition signVoucher (signer : Evm.PrivateKey) (voucherData : VoucherData)
    (contractAddress : JsString) : Completion JsString :=
  let signed :=
    amountCents_ ← uint_of_number (amountCents voucherData);
    recipient_ ← getAddress (recipient voucherData);
    nonce_ ← bytes32_of_text (nonce voucherData);
    expiry_ ← uint_of_number (expiry voucherData);
    contract ← getAddress contractAddress;
    Issuer.signVoucher signer
      {| Issuer.recipient := recipient_; Issuer.amountCents := amountCents_;
         Issuer.nonce := nonce_; Issuer.expiry := expiry_ |}
      contract in
  match signed with
  | Some signature => Returned (js "0x" ++ toHex signature)
  | None => Thrown
  end.
End Service.
End Routes.

(* --------------------------------------------------------------------- *)
(** ** A small world to run the contract and the issuer in                *)
(* --------------------------------------------------------------------- *)

Module Demo.
Import Evm.
Local Open Scope N_scope.

(** A stand-in for the primitives of the chain: the digest of a byte
    string is a polynomial in its bytes modulo [2 ^ 256]; a signature carries
    the signer's address as [r] and the digest as [s], and recovery gives
    [r] back when [s] is the digest recovered for (0 otherwise). *)
Definition demo_crypto : Crypto :=
  {| keccak256 := fun bs =>
       fold_left (fun acc b => (acc * 257 + Byte.to_N b + 1) mod 2 ^ 256) bs 0;
     ecrecover := fun hash v r s =>
       if (v =? 27) && (s =? hash mod 2 ^ 256) then r else 0 |}.

Lemma demo_ecsign_range (k d : N) :
  fst (fst (k mod 2 ^ 160, d mod 2 ^ 256, false)) < 2 ^ 256 /\
  snd (fst (k mod 2 ^ 160, d mod 2 ^ 256, false)) < 2 ^ 256.
Proof.
  simpl. split.
  - apply N.lt_trans with (2 ^ 160); [apply N.mod_lt; discriminate | reflexivity].
  - apply N.mod_lt. discriminate.
Qed.

Lemma demo_ecrecover_ecsign (k d : N) :
  @ecrecover demo_crypto d
    (27 + (if snd (k mod 2 ^ 160, d mod 2 ^ 256, false) then 1 else 0))
    (fst (fst (k mod 2 ^ 160, d mod 2 ^ 256, false)))
    (snd (fst (k mod 2 ^ 160, d mod 2 ^ 256, false))) = k mod 2 ^ 160.
Proof.
  unfold ecrecover, demo_crypto. cbn [fst snd].
  change (27 + 0 =? 27) with true. rewrite N.eqb_refl. reflexivity.
Qed.

Definition demo_wallet : Wallet demo_crypto :=
  {| PrivateKey := N;
     addressOf := fun k => k mod 2 ^ 160;
     ecsign := fun k d => (k mod 2 ^ 160, d mod 2 ^ 256, false);
     ecsign_range := demo_ecsign_range;
     ecrecover_ecsign := demo_ecrecover_ecsign |}.

(** The issuer's key, the vault's address, a holder and a reserve. *)
Definition issuer_key : N := 7.
Definition vault_address : N := 12648430.
Definition holder : N := 2748.
Definition vault_owner : N := 1.

Definition demo_token : Vault.Token :=
  {| Vault.balances := {[ vault_address := 5000000 ]}; Vault.allowances := ∅ |}.

(** The vault as deployed by [vault_owner] with the issuer's address as
    signer. *)
Definition demo_vault : Vault.State :=
  match Vault.transaction
          (Vault.constructor {| Vault.sender := vault_owner; Vault.timestamp := 100 |}
             vault_owner (issuer_key mod 2 ^ 160) 9)
          (Vault.blank vault_address demo_token) with
  | Vault.Ok s => s
  | Vault.Revert _ => Vault.blank vault_address demo_token
  end.

(** A voucher of 50 cents for [holder], expiring at 2000. *)
Definition demo_voucher : Issuer.VoucherData :=
  {| Issuer.recipient := be_bytes 20 holder;
     Issuer.amountCents := 50;
     Issuer.nonce := be_bytes 32 1;
     Issuer.expiry := 2000 |}.

Definition demo_signature : list Byte.byte :=
  match Issuer.signVoucher (W := demo_wallet) issuer_key demo_voucher
          (be_bytes 20 vault_address) with
  | Some signature => signature
  | None => []
  end.

Definition demo_redeem : Vault.Call :=
  Vault.CallRedeem 50 holder 1 2000 demo_signature.

Definition in_time : Vault.Msg := {| Vault.sender := holder; Vault.timestamp := 1000 |}.
Definition too_late : Vault.Msg := {| Vault.sender := holder; Vault.timestamp := 3000 |}.
Definition by_owner : Vault.Msg := {| Vault.sender := vault_owner; Vault.timestamp := 1000 |}.

(** The world in which [Math.random] returns 0 ten times and 3/4 from
    then on. *)
Definition two_phase_world : Plinko.MathRandom :=
  {| Plinko.samples := fun n => if (n <? 10)%nat then 0%Q else (3 # 4)%Q;
     Plinko.cursor := 0 |}.

(** The world in which [Math.random] keeps returning 0.4, the double
    3602879701896397 / 2 ^ 53. *)
Definition rounding_world : Plinko.MathRandom :=
  {| Plinko.samples := fun _ => (3602879701896397 # 9007199254740992)%Q;
     Plinko.cursor := 0 |}.

(** A server whose shared store is down, with empty tables, and a
    player's request. *)
Definition demo_app : Routes.App :=
  {| Routes.tickets :=
       {| Tickets.redisAvailable := false; Tickets.redis := ∅; Tickets.memoryStore := ∅ |};
     Routes.db :=
       {| Routes.vouchers := []; Routes.dropHistory := [];
          Routes.next_voucher_id := 1; Routes.next_drop_id := 1 |};
     Routes.random := two_phase_world |}.


Definition demo_user : Routes.User :=
  {| Routes.user_id := 1%Z; Routes.walletAddress := js "0xAbC" |}.

Definition demo_signVoucher (data : Routes.VoucherData) : Completion JsString :=
  Returned (js "0x1b").

(** A request as the server meets it: a user with a wallet address of 40
    hexadecimal digits, the nonce [generateNonce] makes of 32 random
    bytes, and the vault address the server falls back to. *)
Definition player : Routes.User :=
  {| Routes.user_id := 1%Z;
     Routes.walletAddress := js "0x00000000000000000000000000000000000000ab" |}.

Definition request_env : Routes.Env :=
  {| Routes.now := 1700000000000%Z; Routes.redis_up := false;
     Routes.fresh_nonce := Routes.generateNonce (repeat Byte.x5f 32);
     Routes.storage_up := fun _ => true |}.

Definition claimVaultAddress : JsString := js "0x0000000000000000000000000000000000000000".

(** A ledger with one ticket left for the player in either store. *)
Definition demo_redis : gmap (list Z) Tickets.RedisEntry :=
  {[ Tickets.getTicketKey (js "0xAbC") :=
       {| Tickets.rvalue := 1%Z; Tickets.expireAt := Some 5000%Z |} ]}.

Definition demo_memory : gmap (list Z) Tickets.MemEntry :=
  {[ Tickets.getTicketKey (js "0xAbC") :=
       {| Tickets.tickets := 1%Z; Tickets.expiry := 7000%Z |} ]}.

Definition demo_ledger : Tickets.State :=
  {| Tickets.redisAvailable := true; Tickets.redis := demo_redis;
     Tickets.memoryStore := demo_memory |}.

(** A ledger whose shared store holds an exhausted record for the player
    and whose process memory is empty. *)
Definition exhausted_ledger : Tickets.State :=
  {| Tickets.redisAvailable := true;
     Tickets.redis :=
       {[ Tickets.getTicketKey (js "0xAbC") :=
            {| Tickets.rvalue := 0%Z; Tickets.expireAt := Some 5000%Z |} ]};
     Tickets.memoryStore := ∅ |}.

(** Rounds that wear the statistics of the vault out. *)
Section Rounds.
Context {C : Crypto}.





End Rounds.




End Demo.

(* ===================================================================== *)
(** * Part II: properties                                                 *)
(* ===================================================================== *)

(* --------------------------------------------------------------------- *)
(** ** The outcome generator                                              *)
(* --------------------------------------------------------------------- *)

Module PlinkoFacts.
Import Plinko.
Local Open Scope Z_scope.

Lemma scaled_floor_range (r : Q) (k : Z) :
  unit_sample r -> 0 < k -> 0 <= Qfloor (r * inject_Z k) < k.
Proof.
  intros [Hlo Hhi] Hk.
  assert (Hk' : (0 < inject_Z k)%Q).
  { change 0%Q with (inject_Z 0). rewrite <- Zlt_Qlt. exact Hk. }
  split.
  - rewrite <- (Qfloor_Z 0). apply Qfloor_resp_le.
    change (inject_Z 0) with 0%Q.
    apply Qmult_le_0_compat; [exact Hlo | apply Qlt_le_weak; exact Hk'].
  - rewrite Zlt_Qlt.
    eapply Qle_lt_trans; [apply Qfloor_le |].
    eapply Qlt_le_trans; [apply Qmult_lt_compat_r; eassumption |].
    rewrite Qmult_1_l. apply Qle_refl.
Qed.

Lemma start_in_range : 0 <= BOARD_WIDTH / 2 < BOARD_WIDTH.
Proof. vm_compute. split; [discriminate | reflexivity]. Qed.

Section AnySource.
Context {St : Type} (rng : St -> Q * St).

(** The states the source runs through keep an invariant [Inv] under
    which every sample lies in the unit interval. *)
Variable Inv : St -> Prop.
Hypothesis Inv_sample : forall s, Inv s -> unit_sample (fst (rng s)).
Hypothesis Inv_next : forall s, Inv s -> Inv (snd (rng s)).

Lemma bounce_range row currentX r :
  0 <= currentX < BOARD_WIDTH ->
  0 <= fst (bounce row currentX r) < BOARD_WIDTH.
Proof.
  unfold bounce, BOARD_WIDTH. intros H.
  destruct (Qlt_bool r (1 # 2)); simpl;
    repeat match goal with |- context [?a <? ?b] => destruct (Z.ltb_spec a b) end;
    simpl; lia.
Qed.

Lemma descend_shape n : forall row currentX path s,
  0 <= currentX < BOARD_WIDTH ->
  let '(finalX, path', _) := descend rng n row currentX path s in
  0 <= finalX < BOARD_WIDTH /\ length path' = (length path + n)%nat.
Proof.
  induction n as [|n IH]; intros row currentX path s Hx; cbn [descend].
  - split; [exact Hx | lia].
  - destruct (rng s) as [r s'].
    pose proof (bounce_range row currentX r Hx) as Hb.
    destruct (bounce row currentX r) as [currentX' p]. simpl in Hb.
    specialize (IH (row + 1) currentX' (path ++ [p]) s' Hb).
    destruct (descend rng n (row + 1) currentX' (path ++ [p]) s') as [[finalX path'] s''].
    cbv beta iota in IH. destruct IH as [IH1 IH2]. split; [exact IH1 |].
    rewrite IH2, length_app. simpl. lia.
Qed.

Lemma descend_Inv n : forall row currentX path s,
  Inv s -> Inv (snd (descend rng n row currentX path s)).
Proof.
  induction n as [|n IH]; intros row currentX path s Hs; cbn [descend]; [exact Hs |].
  pose proof (Inv_next s Hs) as Hn.
  destruct (rng s) as [r s']. simpl in Hn.
  destruct (bounce row currentX r) as [currentX' p].
  apply IH. exact Hn.
Qed.

Lemma pickTier_range tiers : forall currentWeight randomWeight s,
  Inv s ->
  Forall (fun t => 1 <= tier_min t /\ tier_min t <= tier_max t /\ tier_max t <= 100) tiers ->
  1 <= fst (pickTier rng tiers currentWeight randomWeight s) <= 100.
Proof.
  induction tiers as [|t rest IH]; intros cw rw s Hs Hall; cbn [pickTier]; [simpl; lia |].
  inversion Hall as [|? ? [Hmin [Hmm Hmax]] Hrest]; subst.
  destruct (Qle_bool rw (inject_Z (cw + weight t))).
  - pose proof (Inv_sample s Hs) as Hr.
    destruct (rng s) as [r s']. cbn [fst snd] in *.
    pose proof (scaled_floor_range r (tier_max t - tier_min t + 1) Hr ltac:(lia)).
    lia.
  - apply IH; assumption.
Qed.

Lemma PRIZE_DISTRIBUTION_ranges :
  Forall (fun t => 1 <= tier_min t /\ tier_min t <= tier_max t /\ tier_max t <= 100)
         PRIZE_DISTRIBUTION.
Proof. unfold PRIZE_DISTRIBUTION. repeat constructor; simpl; lia. Qed.

Lemma calculatePrize_range slot s :
  Inv s -> 1 <= fst (calculatePrize rng slot s) <= 100.
Proof.
  intros Hs. unfold calculatePrize.
  pose proof (Inv_next s Hs) as Hn. destruct (rng s) as [r s']. simpl in Hn.
  apply pickTier_range; [exact Hn | apply PRIZE_DISTRIBUTION_ranges].
Qed.

(** A draw from a source of unit samples passes [validateDropResult]. *)
Lemma drop_valid s : Inv s -> validateDropResult (fst (drop rng s)) = true.
Proof.
  intros Hs. unfold drop.
  pose proof (descend_shape (Z.to_nat BOARD_HEIGHT) 0 (BOARD_WIDTH / 2) [] s
                start_in_range) as Hshape.
  pose proof (descend_Inv (Z.to_nat BOARD_HEIGHT) 0 (BOARD_WIDTH / 2) [] s Hs) as Hinv.
  destruct (descend rng (Z.to_nat BOARD_HEIGHT) 0 (BOARD_WIDTH / 2) [] s)
    as [[finalX path'] s1]. simpl in Hinv. destruct Hshape as [Hx Hlen].
  pose proof (calculatePrize_range finalX s1 Hinv) as Hamt.
  destruct (calculatePrize rng finalX s1) as [amt s2]. simpl in *.
  unfold validateDropResult; simpl. rewrite Hlen.
  unfold BOARD_WIDTH, BOARD_HEIGHT in *.
  repeat (apply andb_true_intro; split); try (apply Z.leb_le; lia);
    try (apply Z.ltb_lt; lia).
  apply Z.eqb_eq. reflexivity.
Qed.
End AnySource.

(** Whatever the source returns, the path has eight entries and the ball
    ends in one of the seven slots. *)
Lemma drop_shape {St : Type} (rng : St -> Q * St) (s : St) :
  length (path (fst (drop rng s))) = 8%nat /\ 0 <= finalSlot (fst (drop rng s)) < 7.
Proof.
  unfold drop.
  pose proof (descend_shape rng (Z.to_nat BOARD_HEIGHT) 0 (BOARD_WIDTH / 2) [] s
                start_in_range) as Hshape.
  destruct (descend rng (Z.to_nat BOARD_HEIGHT) 0 (BOARD_WIDTH / 2) [] s)
    as [[finalX path'] s1].
  destruct (calculatePrize rng finalX s1) as [amt s2]. simpl.
  destruct Hshape as [Hx Hlen]. split; [exact Hlen | exact Hx].
Qed.


(** The seeded closure returns unit samples as long as its [hash] is not
    negative. *)
Lemma seeded_next_unit (hash : Z) :
  0 <= hash -> unit_sample (fst (seeded_next hash)) /\ 0 <= snd (seeded_next hash).
Proof.
  intros H. unfold seeded_next; simpl.
  assert (Hr : 0 <= Z.rem (hash * 9301 + 49297) 233280 < 233280).
  { apply Z.rem_bound_pos; lia. }
  repeat split; try lia.
  - unfold Qle; simpl. lia.
  - unfold Qlt; simpl. lia.
Qed.

Lemma simulateDrop_seeded (seed : JsString) (w : MathRandom) :
  seed <> [] ->
  fst (simulateDrop (Some seed) w) = fst (drop seeded_next (createSeededRandom seed)) /\
  snd (simulateDrop (Some seed) w) = w.
Proof.
  intros Hne. destruct seed as [|c seed]; [congruence |].
  unfold simulateDrop, truthy. cbv beta iota delta [fst snd]. split; reflexivity.
Qed.

Lemma simulateDrop_seeded_valid (seed : JsString) (w : MathRandom) :
  seed <> [] -> 0 <= createSeededRandom seed ->
  validateDropResult (fst (simulateDrop (Some seed) w)) = true.
Proof.
  intros Hne Hh. destruct (simulateDrop_seeded seed w Hne) as [-> _].
  apply (drop_valid seeded_next (fun h => 0 <= h)); [| | exact Hh].
  - intros s Hs. apply seeded_next_unit, Hs.
  - intros s Hs. apply seeded_next_unit, Hs.
Qed.

(** *** The shape of a draw *)

Lemma bounce_walk (row currentX : Z) (r : Q) :
  0 <= currentX < BOARD_WIDTH ->
  walk row currentX [snd (bounce row currentX r)] /\
  x (snd (bounce row currentX r)) = fst (bounce row currentX r).
Proof.
  unfold bounce, BOARD_WIDTH, PEG_SPACING. intros H.
  destruct (Qlt_bool r (1 # 2)); cbn [walk x y direction fst snd]; unfold BOARD_WIDTH;
    repeat match goal with |- context [?a <? ?b] => destruct (Z.ltb_spec a b) end;
    repeat split; lia.
Qed.

Lemma descend_walk {St : Type} (rng : St -> Q * St) (n : nat) :
  forall (row currentX : Z) (path : list PlinkoPath) (s : St),
  0 <= currentX < BOARD_WIDTH ->
  exists trace,
    snd (fst (descend rng n row currentX path s)) = path ++ trace /\
    length trace = n /\
    walk row currentX trace /\
    fst (fst (descend rng n row currentX path s)) = last_column currentX trace.
Proof.
  induction n as [|n IH]; intros row currentX path s Hx; cbn [descend].
  - exists []. rewrite app_nil_r. repeat split.
  - destruct (rng s) as [r s'].
    pose proof (bounce_range row currentX r Hx) as Hb.
    pose proof (bounce_walk row currentX r Hx) as [Hw Hxp].
    destruct (bounce row currentX r) as [currentX' p]. cbn [fst snd] in *.
    destruct (IH (row + 1) currentX' (path ++ [p]) s' Hb) as (trace & Hpath & Hlen & Hwalk & Hlast).
    exists (p :: trace). rewrite Hpath, <- app_assoc. repeat split.
    + simpl. rewrite Hlen. reflexivity.
    + simpl in Hw. apply Hw.
    + simpl in Hw. apply Hw.
    + rewrite Hxp. exact Hwalk.
    + rewrite Hlast. unfold last_column. simpl. rewrite Hxp. reflexivity.
Qed.

(** X1: whatever the random source returns, [path] is a walk of eight
    rows that starts from the centre column 3, moves one column in the
    recorded direction at each row unless the board's edge stops it, and
    ends in [finalSlot], which lies between 0 and 6. *)
Theorem drop_path_is_walk {St : Type} (rng : St -> Q * St) (s : St) :
  length (path (fst (drop rng s))) = 8%nat /\
  walk 0 3 (path (fst (drop rng s))) /\
  finalSlot (fst (drop rng s)) = last_column 3 (path (fst (drop rng s))) /\
  0 <= finalSlot (fst (drop rng s)) < 7.
Proof.
  unfold drop.
  destruct (descend_walk rng (Z.to_nat BOARD_HEIGHT) 0 (BOARD_WIDTH / 2) [] s start_in_range)
    as (trace & Hpath & Hlen & Hwalk & Hlast).
  pose proof (descend_shape rng (Z.to_nat BOARD_HEIGHT) 0 (BOARD_WIDTH / 2) [] s
                start_in_range) as Hshape.
  destruct (descend rng (Z.to_nat BOARD_HEIGHT) 0 (BOARD_WIDTH / 2) [] s)
    as [[finalX path'] s1]. cbn [fst snd] in *.
  destruct (calculatePrize rng finalX s1) as [amt s2]. cbn [fst path finalSlot].
  destruct Hshape as [Hx _]. subst path'. simpl app.
  change (BOARD_WIDTH / 2) with 3 in *. change (Z.to_nat BOARD_HEIGHT) with 8%nat in *.
  unfold BOARD_WIDTH in Hx.
  repeat split; try assumption; lia.
Qed.

(** *** The seed hash *)

Lemma to_int32_range (z : Z) : - 2 ^ 31 <= to_int32 z < 2 ^ 31.
Proof.
  unfold to_int32. pose proof (Z.mod_pos_bound (z + 2 ^ 31) (2 ^ 32) ltac:(lia)). lia.
Qed.

Lemma to_int32_congruent (a b k : Z) : a = b + 2 ^ 32 * k -> to_int32 a = to_int32 b.
Proof.
  intros ->. unfold to_int32.
  replace (b + 2 ^ 32 * k + 2 ^ 31) with (b + 2 ^ 31 + k * 2 ^ 32) by lia.
  rewrite Z.mod_add by lia. reflexivity.
Qed.

Lemma to_int32_multiple (z : Z) : exists k, to_int32 z = z + 2 ^ 32 * k.
Proof.
  exists (- ((z + 2 ^ 31) / 2 ^ 32)). unfold to_int32.
  pose proof (Z.div_mod (z + 2 ^ 31) (2 ^ 32) ltac:(lia)). lia.
Qed.

Lemma to_int32_small (z : Z) : - 2 ^ 31 <= z < 2 ^ 31 -> to_int32 z = z.
Proof. intros H. unfold to_int32. rewrite Z.mod_small by lia. lia. Qed.

Lemma hashStep_polynomial (hash char : Z) : hashStep hash char = to_int32 (31 * hash + char).
Proof.
  unfold hashStep, and32, shl32. rewrite Z.land_diag.
  rewrite (to_int32_small (to_int32 _)) by apply to_int32_range.
  rewrite Z.shiftl_mul_pow2 by lia.
  destruct (to_int32_multiple hash) as [k1 Hk1].
  destruct (to_int32_multiple (to_int32 hash * 2 ^ 5)) as [k2 Hk2].
  apply (to_int32_congruent _ _ (k2 + 32 * k1)). rewrite Hk2, Hk1. lia.
Qed.

(** X2: the initial [hash] of the seeded closure is the polynomial
    31-hash of the seed's code units wrapped to a signed 32-bit integer:
    it lies in [-2^31, 2^31), the empty seed hashes to 0, and appending a
    code unit [c] takes [hash] to the wrap of [31 * hash + c]. *)
Theorem createSeededRandom_polynomial (seed : JsString) (c : Z) :
  createSeededRandom seed = to_int32 (polynomial31 seed) /\
  - 2 ^ 31 <= createSeededRandom seed < 2 ^ 31 /\
  createSeededRandom (seed ++ [c]) = to_int32 (31 * createSeededRandom seed + c).
Proof.
  assert (Hstep : forall l x, createSeededRandom (l ++ [x])
                              = to_int32 (31 * createSeededRandom l + x)).
  { intros l x. unfold createSeededRandom. rewrite fold_left_app. simpl.
    apply hashStep_polynomial. }
  assert (Hpoly : createSeededRandom seed = to_int32 (polynomial31 seed)).
  { induction seed as [|x l IH] using rev_ind; [reflexivity |].
    rewrite Hstep, IH. unfold polynomial31. rewrite fold_left_app. simpl.
    destruct (to_int32_multiple (fold_left (fun h c0 => 31 * h + c0) l 0)) as [k Hk].
    apply (to_int32_congruent _ _ (31 * k)). unfold polynomial31 in Hk |- *. rewrite Hk. lia. }
  split; [exact Hpoly |]. split; [rewrite Hpoly; apply to_int32_range | apply Hstep].
Qed.

Lemma validateDropResult_amount (result : DropResult) :
  validateDropResult result = true -> 1 <= amountCents result <= 100.
Proof.
  unfold validateDropResult. intros Hvalid.
  do 3 (apply andb_prop in Hvalid as [Hvalid _]).
  apply andb_prop in Hvalid as [Hlo Hhi]. apply Z.leb_le in Hlo, Hhi. lia.
Qed.

(** *** Seeded draws, whatever the sign of the hash *)

Lemma scaled_floor_range_open (r : Q) (k : Z) :
  (-1 # 1 < r)%Q -> (r < 1)%Q -> 0 < k -> - k <= Qfloor (r * inject_Z k) < k.
Proof.
  intros Hlo Hhi Hk. split.
  - rewrite <- (Qfloor_Z (- k)). apply Qfloor_resp_le.
    destruct r as [n d]. unfold Qlt, Qle, Qmult, inject_Z in *. cbn [Qnum Qden] in *. nia.
  - rewrite Zlt_Qlt. eapply Qle_lt_trans; [apply Qfloor_le |].
    destruct r as [n d]. unfold Qlt, Qle, Qmult, inject_Z in *. cbn [Qnum Qden] in *. nia.
Qed.

(** The closure of [createSeededRandom] returns samples strictly between
    -1 and 1, whatever its [hash]. *)
Lemma seeded_next_open (hash : Z) :
  (-1 # 1 < fst (seeded_next hash))%Q /\ (fst (seeded_next hash) < 1)%Q.
Proof.
  unfold seeded_next. cbn [fst].
  pose proof (Z.rem_bound_abs (hash * 9301 + 49297) 233280 ltac:(lia)) as H.
  unfold Qlt. cbn [Qnum Qden]. lia.
Qed.

Section OpenSource.
Context {St : Type} (rng : St -> Q * St).
Hypothesis rng_open : forall s, (-1 # 1 < fst (rng s))%Q /\ (fst (rng s) < 1)%Q.

Lemma pickTier_range_open (tiers : list Tier) : forall (currentWeight : Z) (randomWeight : Q) (s : St),
  Forall (fun t => tier_min t <= tier_max t /\ - 4 <= 2 * tier_min t - tier_max t - 1 /\
                   tier_max t <= 100) tiers ->
  - 4 <= fst (pickTier rng tiers currentWeight randomWeight s) <= 100.
Proof.
  induction tiers as [|t rest IH]; intros cw rw s Hall; cbn [pickTier]; [simpl; lia |].
  inversion Hall as [|? ? [Hmm [Hlow Hmax]] Hrest]; subst.
  destruct (Qle_bool rw (inject_Z (cw + weight t))).
  - pose proof (rng_open s) as [Hlo Hhi].
    destruct (rng s) as [r s']. cbn [fst snd] in *.
    pose proof (scaled_floor_range_open r (tier_max t - tier_min t + 1) Hlo Hhi ltac:(lia)).
    lia.
  - apply IH; assumption.
Qed.

Lemma calculatePrize_range_open (slot : Z) (s : St) :
  - 4 <= fst (calculatePrize rng slot s) <= 100.
Proof.
  unfold calculatePrize. destruct (rng s) as [r s'].
  apply pickTier_range_open. unfold PRIZE_DISTRIBUTION. repeat constructor; simpl; lia.
Qed.

Lemma drop_amount_open (s : St) : - 4 <= amountCents (fst (drop rng s)) <= 100.
Proof.
  unfold drop.
  destruct (descend rng (Z.to_nat BOARD_HEIGHT) 0 (BOARD_WIDTH / 2) [] s)
    as [[finalX path'] s1].
  pose proof (calculatePrize_range_open finalX s1) as Hamt.
  destruct (calculatePrize rng finalX s1) as [amt s2]. exact Hamt.
Qed.

(** When the weight drawn does not exceed the total weight, the tier walk
    stops at a tier and draws one more sample. *)
Lemma pickTier_draws (tiers : list Tier) : forall (currentWeight : Z) (randomWeight : Q) (s : St),
  tiers <> [] ->
  Qle_bool randomWeight
    (inject_Z (fold_left (fun sum tier => sum + weight tier) tiers currentWeight)) = true ->
  snd (pickTier rng tiers currentWeight randomWeight s) = snd (rng s).
Proof.
  induction tiers as [|t rest IH]; intros cw rw s Hne Hle; [congruence |].
  cbn [pickTier]. cbn [fold_left] in Hle.
  destruct (Qle_bool rw (inject_Z (cw + weight t))) eqn:Hhere.
  - destruct (rng s) as [r s']. reflexivity.
  - destruct rest as [|t' rest'].
    + cbn [fold_left] in Hle. congruence.
    + apply IH; [discriminate | exact Hle].
Qed.
End OpenSource.

(** X3: for every non-empty seed, the prize of a seeded draw lies
    between -4 and 100 cents; it lies between 1 and 100, and the result
    passes [validateDropResult], whenever the seed's hash is not
    negative. *)
Theorem simulateDrop_seeded_prize_bounds (seed : JsString) (w : MathRandom) :
  seed <> [] ->
  - 4 <= amountCents (fst (simulateDrop (Some seed) w)) <= 100 /\
  (0 <= createSeededRandom seed ->
   1 <= amountCents (fst (simulateDrop (Some seed) w)) /\
   validateDropResult (fst (simulateDrop (Some seed) w)) = true).
Proof.
  intros Hne. split.
  - destruct (simulateDrop_seeded seed w Hne) as [-> _].
    apply drop_amount_open. exact seeded_next_open.
  - intros Hh. pose proof (simulateDrop_seeded_valid seed w Hne Hh) as Hvalid.
    split; [| exact Hvalid].
    apply validateDropResult_amount. exact Hvalid.
Qed.

Lemma simulateDrop_seeded_prize_bounds_witness :
  js "a" <> [] /\ 0 <= createSeededRandom (js "a") /\
  validateDropResult (fst (simulateDrop (Some (js "a")) Demo.two_phase_world)) = true.
Proof.
  assert (Hseed : js "a" <> []) by (vm_compute; discriminate).
  assert (Hhash : 0 <= createSeededRandom (js "a")) by (vm_compute; discriminate).
  split; [exact Hseed |]. split; [exact Hhash |].
  apply (simulateDrop_seeded_prize_bounds (js "a") Demo.two_phase_world Hseed).
  exact Hhash.
Defined.

(** *** Unseeded draws *)

Lemma descend_Math_random (n : nat) : forall (row currentX : Z) (path : list PlinkoPath)
    (w : MathRandom),
  snd (descend Math_random n row currentX path w)
  = {| samples := samples w; cursor := (cursor w + n)%nat |}.
Proof.
  induction n as [|n IH]; intros row currentX path w; cbn [descend].
  - destruct w as [smp cur]. cbn [snd samples cursor]. rewrite Nat.add_0_r. reflexivity.
  - unfold Math_random at 1. destruct (bounce row currentX (samples w (cursor w))) as [x' p].
    rewrite IH. cbn [samples cursor]. f_equal. lia.
Qed.


(** *** Products rounded to doubles *)

Lemma nearest_even_le (n d m : Z) :
  0 < d -> 2 * n < (2 * m + 1) * d -> nearest_even n d <= m.
Proof.
  intros Hd Hlt. unfold nearest_even.
  pose proof (Z.div_mod n d ltac:(lia)) as Hn.
  pose proof (Z.mod_pos_bound n d Hd) as Hr.
  destruct (Z.compare_spec (2 * (n mod d)) d) as [Heq | Hlow | Hhigh].
  - assert (n / d < m) by nia. destruct (Z.even (n / d)); lia.
  - nia.
  - nia.
Qed.

Lemma nearest_even_nonneg (n d : Z) : 0 < d -> 0 <= n -> 0 <= nearest_even n d.
Proof.
  intros Hd Hn. unfold nearest_even.
  pose proof (Z.div_pos n d Hn Hd) as Hq.
  destruct (2 * (n mod d) ?= d); [destruct (Z.even (n / d)) | |]; lia.
Qed.

(** [binade_shift] brings a positive quotient to a mantissa of 53 bits;
    it is negative only from [2 ^ 53] on. *)
Lemma binade_shift_spec (n d : Z) :
  0 < n -> 0 < d ->
  (0 <= binade_shift n d ->
   2 ^ 52 * d <= n * 2 ^ binade_shift n d < 2 ^ 53 * d) /\
  (binade_shift n d < 0 -> 2 ^ 53 * d <= n).
Proof.
  intros Hn Hd. unfold binade_shift.
  pose proof (Z.log2_spec n Hn) as Ha. pose proof (Z.log2_spec d Hd) as Hb.
  pose proof (Z.log2_nonneg n) as Ha0. pose proof (Z.log2_nonneg d) as Hb0.
  rewrite Z.pow_succ_r in Ha, Hb by assumption.
  change (2 ^ 53) with (2 * 2 ^ 52).
  set (a := Z.log2 n) in *. set (b := Z.log2 d) in *.
  set (P := 2 ^ 52) in *. assert (HP : 0 < P) by (unfold P; lia).
  destruct (Z.leb_spec 0 (52 + b - a)) as [Hs0 | Hs0].
  - assert (HAS : 2 ^ a * 2 ^ (52 + b - a) = P * 2 ^ b).
    { unfold P. rewrite <- !Z.pow_add_r by lia. f_equal. lia. }
    assert (HS1 : 2 ^ (52 + b - a + 1) = 2 * 2 ^ (52 + b - a)).
    { rewrite Z.pow_add_r by lia. lia. }
    assert (HS : 0 < 2 ^ (52 + b - a)) by (apply Z.pow_pos_nonneg; lia).
    destruct (Z.leb_spec (P * d) (n * 2 ^ (52 + b - a))) as [Htest | Htest].
    + split; [intros _ | lia]. split; [exact Htest |]. nia.
    + split; [intros _ | lia]. rewrite HS1. split; nia.
  - assert (HA : 2 ^ a = P * 2 ^ b * 2 ^ (- (52 + b - a))).
    { unfold P. rewrite <- !Z.pow_add_r by lia. f_equal. lia. }
    assert (HT : 2 <= 2 ^ (- (52 + b - a))).
    { change 2 with (2 ^ 1) at 1. apply Z.pow_le_mono_r; lia. }
    destruct (Z.leb_spec (P * d * 2 ^ (- (52 + b - a))) n) as [Htest | Htest].
    + split; [lia |]. intros _. nia.
    + split.
      * intros Hs. assert (Hone : 52 + b - a = - 1) by lia.
        rewrite Hone in *. change (-1 + 1) with 0. change (- -1) with 1 in *.
        change (2 ^ 1) with 2 in *. change (2 ^ 0) with 1. nia.
      * intros Hs.
        assert (HT4 : 4 <= 2 ^ (- (52 + b - a))).
        { change 4 with (2 ^ 2). apply Z.pow_le_mono_r; lia. }
        nia.
Qed.

(** Rounding does not cross a double: what lies below the midpoint
    between the double [m / 2 ^ s] and the next one is rounded to
    [m / 2 ^ s] at most. *)
Lemma to_double_le (x : Q) (m s : Z) :
  0 <= s -> 2 ^ 52 <= m < 2 ^ 53 -> 0 < Qnum x ->
  2 * Qnum x * 2 ^ s < (2 * m + 1) * Z.pos (Qden x) ->
  (to_double x <= Qmake m (Z.to_pos (2 ^ s)))%Q.
Proof.
  intros Hs Hm Hx Hmid. unfold to_double.
  destruct (Qnum x) as [|p|p] eqn:Hnum; [lia | | lia].
  rewrite <- Hnum in *. clear p Hnum.
  set (n := Qnum x) in *. set (d := Z.pos (Qden x)) in *.
  assert (Hd : 0 < d) by (unfold d; lia).
  destruct (binade_shift_spec n d Hx Hd) as [Hin Hout].
  unfold round53. set (sx := binade_shift n d) in *.
  assert (HS : 0 < 2 ^ s) by (apply Z.pow_pos_nonneg; lia).
  change (2 ^ 53) with (2 * 2 ^ 52) in *. set (P := 2 ^ 52) in *.
  assert (Hsx : s <= sx).
  { destruct (Z.lt_ge_cases sx s) as [Hlt | Hge]; [exfalso | exact Hge].
    destruct (Z.lt_ge_cases sx 0) as [Hneg | Hpos].
    - specialize (Hout Hneg). nia.
    - specialize (Hin Hpos).
      assert (Hsplit : 2 ^ s = 2 ^ sx * 2 ^ (s - sx)).
      { rewrite <- Z.pow_add_r by lia. f_equal. lia. }
      assert (HT : 2 <= 2 ^ (s - sx)).
      { change 2 with (2 ^ 1) at 1. apply Z.pow_le_mono_r; lia. }
      assert (HSx : 0 < 2 ^ sx) by (apply Z.pow_pos_nonneg; lia).
      nia. }
  destruct (Z.leb_spec 0 sx) as [Hpos | Hneg]; [| lia].
  specialize (Hin Hpos).
  assert (HSx : 0 < 2 ^ sx) by (apply Z.pow_pos_nonneg; lia).
  unfold Qle. cbn [Qnum Qden]. rewrite !Z2Pos.id by assumption.
  destruct (Z.eq_dec sx s) as [-> | Hne].
  - apply Z.mul_le_mono_nonneg_r; [lia |].
    apply nearest_even_le; [exact Hd | lia].
  - assert (Hsplit : 2 ^ sx = 2 ^ s * 2 ^ (sx - s)).
    { rewrite <- Z.pow_add_r by lia. f_equal. lia. }
    assert (HT : 2 <= 2 ^ (sx - s)).
    { change 2 with (2 ^ 1) at 1. apply Z.pow_le_mono_r; lia. }
    assert (HM : nearest_even (n * 2 ^ sx) d <= 2 * P).
    { apply nearest_even_le; [exact Hd | lia]. }
    nia.
Qed.

Lemma to_double_nonneg (x : Q) : 0 <= Qnum x -> (0 <= to_double x)%Q.
Proof.
  intros Hx. unfold to_double.
  destruct (Qnum x) as [|p|p] eqn:Hnum; [apply Qle_refl | | lia].
  unfold round53. set (s := binade_shift (Z.pos p) (Z.pos (Qden x))).
  destruct (Z.leb_spec 0 s) as [Hpos | Hneg].
  - unfold Qle. cbn [Qnum Qden]. rewrite Z.mul_1_r. cbn [Z.mul].
    apply nearest_even_nonneg; [lia |].
    apply Z.mul_nonneg_nonneg; [lia | apply Z.pow_nonneg; lia].
  - change 0%Q with (inject_Z 0). rewrite <- Zle_Qle.
    assert (HT : 0 < 2 ^ (- s)) by (apply Z.pow_pos_nonneg; lia).
    apply Z.mul_nonneg_nonneg; [| lia].
    apply nearest_even_nonneg; [nia | lia].
Qed.

Lemma double_sample_num (r : Q) :
  double_sample r ->
  0 <= Qnum r /\ Qnum r * 2 ^ 53 <= (2 ^ 53 - 1) * Z.pos (Qden r).
Proof.
  intros [Hlo Hhi]. unfold Qle in *. cbn [Qnum Qden] in *.
  change (2 ^ 53) with 9007199254740992. lia.
Qed.

(** The rounded product of a sample and a width [k] of a tier, floored,
    is one of [0 .. k - 1]. *)
Lemma js_mul_floor_range (r : Q) (k : Z) :
  double_sample r -> 0 < k -> width_fits k ->
  0 <= Qfloor (js_mul r (inject_Z k)) < k.
Proof.
  intros Hr Hk (m & s & Hs & Hm & Hbelow & Hmid).
  destruct (double_sample_num r Hr) as [Hn Hd]. unfold js_mul.
  assert (Hnum : Qnum (r * inject_Z k) = Qnum r * k) by reflexivity.
  assert (Hden : Z.pos (Qden (r * inject_Z k)) = Z.pos (Qden r)).
  { cbn [Qmult Qden inject_Z]. rewrite Pos.mul_1_r. reflexivity. }
  split.
  - rewrite <- (Qfloor_Z 0). apply Qfloor_resp_le. change (inject_Z 0) with 0%Q.
    apply to_double_nonneg. rewrite Hnum. nia.
  - destruct (Z.eq_dec (Qnum r) 0) as [Hzero | Hpos].
    + unfold to_double. rewrite Hnum, Hzero. cbn. exact Hk.
    + assert (HS : 0 < 2 ^ s) by (apply Z.pow_pos_nonneg; lia).
      eapply Z.le_lt_trans.
      * apply Qfloor_resp_le. apply (to_double_le _ m s Hs Hm).
        -- rewrite Hnum. nia.
        -- rewrite Hnum, Hden.
           assert (H1 : 2 * k * 2 ^ s * (Qnum r * 2 ^ 53)
                        <= 2 * k * 2 ^ s * ((2 ^ 53 - 1) * Z.pos (Qden r))).
           { apply Z.mul_le_mono_nonneg_l; [nia | exact Hd]. }
           assert (H2 : 2 * k * 2 ^ s * (2 ^ 53 - 1) * Z.pos (Qden r)
                        < (2 * m + 1) * 2 ^ 53 * Z.pos (Qden r)).
           { apply Z.mul_lt_mono_pos_r; [lia | exact Hmid]. }
           change (2 ^ 53) with 9007199254740992 in *. nia.
      * unfold Qfloor. rewrite Z2Pos.id by exact HS.
        apply Z.div_lt_upper_bound; [exact HS | lia].
Qed.

Lemma PRIZE_DISTRIBUTION_widths :
  Forall (fun t => 1 <= tier_min t /\ tier_min t <= tier_max t /\ tier_max t <= 100 /\
                   width_fits (tier_max t - tier_min t + 1))
         PRIZE_DISTRIBUTION.
Proof.
  unfold PRIZE_DISTRIBUTION.
  repeat constructor; cbn [tier_min tier_max]; try lia.
  - exists (5 * 2 ^ 50 - 1), 50. vm_compute. repeat split; congruence.
  - exists (10 * 2 ^ 49 - 1), 49. vm_compute. repeat split; congruence.
  - exists (20 * 2 ^ 48 - 1), 48. vm_compute. repeat split; congruence.
  - exists (30 * 2 ^ 48 - 1), 48. vm_compute. repeat split; congruence.
  - exists (35 * 2 ^ 47 - 1), 47. vm_compute. repeat split; congruence.
Qed.

(** The rounded weight [rng() * totalWeight] does not exceed the total
    weight. *)
Lemma js_mul_totalWeight (r : Q) :
  double_sample r -> Qle_bool (js_mul r (inject_Z 100)) (inject_Z 100) = true.
Proof.
  intros Hr. destruct (double_sample_num r Hr) as [Hn Hd].
  apply Qle_bool_iff. unfold js_mul.
  assert (Hnum : Qnum (r * inject_Z 100) = Qnum r * 100) by reflexivity.
  assert (Hden : Z.pos (Qden (r * inject_Z 100)) = Z.pos (Qden r)).
  { cbn [Qmult Qden inject_Z]. rewrite Pos.mul_1_r. reflexivity. }
  destruct (Z.eq_dec (Qnum r) 0) as [Hzero | Hpos].
  - unfold to_double. rewrite Hnum, Hzero. cbn. discriminate.
  - eapply Qle_trans.
    + apply (to_double_le _ (100 * 2 ^ 46) 46).
      * lia.
      * vm_compute. split; congruence.
      * rewrite Hnum. lia.
      * rewrite Hnum, Hden. change (2 ^ 53) with 9007199254740992 in Hd.
        change (2 ^ 46) with 70368744177664. lia.
    + vm_compute. discriminate.
Qed.

Section DoubleSource.
Context {St : Type} (rng : St -> Q * St).

(** The states the source runs through keep an invariant [Inv] under
    which every sample is a double below 1. *)
Variable Inv : St -> Prop.
Hypothesis Inv_sample : forall s, Inv s -> double_sample (fst (rng s)).
Hypothesis Inv_next : forall s, Inv s -> Inv (snd (rng s)).

Lemma pickTier64_range (tiers : list Tier) : forall (currentWeight : Z) (randomWeight : Q) (s : St),
  Inv s ->
  Forall (fun t => 1 <= tier_min t /\ tier_min t <= tier_max t /\ tier_max t <= 100 /\
                   width_fits (tier_max t - tier_min t + 1)) tiers ->
  1 <= fst (pickTier64 rng tiers currentWeight randomWeight s) <= 100.
Proof.
  induction tiers as [|t rest IH]; intros cw rw s Hs Hall; cbn [pickTier64]; [simpl; lia |].
  inversion Hall as [|? ? [Hmin [Hmm [Hmax Hfits]]] Hrest]; subst.
  destruct (Qle_bool rw (inject_Z (cw + weight t))).
  - pose proof (Inv_sample s Hs) as Hr.
    destruct (rng s) as [r s']. cbn [fst snd] in *.
    pose proof (js_mul_floor_range r (tier_max t - tier_min t + 1) Hr ltac:(lia) Hfits).
    lia.
  - apply IH; assumption.
Qed.

Lemma pickTier64_draws (tiers : list Tier) : forall (currentWeight : Z) (randomWeight : Q) (s : St),
  tiers <> [] ->
  Qle_bool randomWeight
    (inject_Z (fold_left (fun sum tier => sum + weight tier) tiers currentWeight)) = true ->
  snd (pickTier64 rng tiers currentWeight randomWeight s) = snd (rng s).
Proof.
  induction tiers as [|t rest IH]; intros cw rw s Hne Hle; [congruence |].
  cbn [pickTier64]. cbn [fold_left] in Hle.
  destruct (Qle_bool rw (inject_Z (cw + weight t))) eqn:Hhere.
  - destruct (rng s) as [r s']. reflexivity.
  - destruct rest as [|t' rest'].
    + cbn [fold_left] in Hle. congruence.
    + apply IH; [discriminate | exact Hle].
Qed.

Lemma calculatePrize64_range (slot : Z) (s : St) :
  Inv s ->
  1 <= fst (calculatePrize64 rng slot s) <= 100 /\
  snd (calculatePrize64 rng slot s) = snd (rng (snd (rng s))).
Proof.
  intros Hs. unfold calculatePrize64.
  pose proof (Inv_next s Hs) as Hn. pose proof (Inv_sample s Hs) as Hr.
  destruct (rng s) as [r s']. cbn [fst snd] in *. split.
  - apply pickTier64_range; [exact Hn | apply PRIZE_DISTRIBUTION_widths].
  - apply pickTier64_draws; [discriminate |].
    change (fold_left (fun sum tier => sum + weight tier) PRIZE_DISTRIBUTION 0) with 100.
    apply js_mul_totalWeight, Hr.
Qed.

(** A draw from a source of doubles below 1 passes
    [validateDropResult]. *)
Lemma drop64_valid (s : St) : Inv s -> validateDropResult (fst (drop64 rng s)) = true.
Proof.
  intros Hs. unfold drop64.
  pose proof (descend_shape rng (Z.to_nat BOARD_HEIGHT) 0 (BOARD_WIDTH / 2) [] s
                start_in_range) as Hshape.
  pose proof (descend_Inv rng Inv Inv_next (Z.to_nat BOARD_HEIGHT) 0 (BOARD_WIDTH / 2) [] s Hs)
    as Hinv.
  destruct (descend rng (Z.to_nat BOARD_HEIGHT) 0 (BOARD_WIDTH / 2) [] s)
    as [[finalX path'] s1]. simpl in Hinv. destruct Hshape as [Hx Hlen].
  destruct (calculatePrize64_range finalX s1 Hinv) as [Hamt _].
  destruct (calculatePrize64 rng finalX s1) as [amt s2]. simpl in *.
  unfold validateDropResult; simpl. rewrite Hlen.
  unfold BOARD_WIDTH, BOARD_HEIGHT in *.
  repeat (apply andb_true_intro; split); try (apply Z.leb_le; lia);
    try (apply Z.ltb_lt; lia).
  apply Z.eqb_eq. reflexivity.
Qed.
End DoubleSource.

Lemma drop64_Math_random (w : MathRandom) :
  double_source w ->
  snd (drop64 Math_random w) = {| samples := samples w; cursor := (cursor w + 10)%nat |}.
Proof.
  intros Hw. unfold drop64.
  pose proof (descend_Math_random (Z.to_nat BOARD_HEIGHT) 0 (BOARD_WIDTH / 2) [] w) as Hd.
  destruct (descend Math_random (Z.to_nat BOARD_HEIGHT) 0 (BOARD_WIDTH / 2) [] w)
    as [[finalX path'] w1]. cbn [snd] in Hd.
  destruct (calculatePrize64_range Math_random double_source
              (fun s Hs => Hs (cursor s)) (fun s Hs => Hs) finalX w1) as [_ Hp].
  { rewrite Hd. exact Hw. }
  destruct (calculatePrize64 Math_random finalX w1) as [amt w2]. cbn [snd] in *.
  rewrite Hp, Hd. unfold Math_random. cbn [snd samples cursor].
  f_equal. change (Z.to_nat BOARD_HEIGHT) with 8%nat. lia.
Qed.

(** X4: a draw without seed, its two products rounded to doubles as the
    engine rounds them, from a [Math.random] that returns doubles of the
    unit interval: the result passes [validateDropResult], its prize lies
    between 1 and 100 cents, and the draw takes exactly ten samples,
    eight for the bounces, one for the tier and one for the amount
    within the tier. *)
Theorem simulateDrop64_unseeded_draws_ten (w : MathRandom) :
  double_source w ->
  validateDropResult (fst (simulateDrop64 None w)) = true /\
  1 <= amountCents (fst (simulateDrop64 None w)) <= 100 /\
  snd (simulateDrop64 None w) = {| samples := samples w; cursor := (cursor w + 10)%nat |}.
Proof.
  intros Hw.
  assert (Hvalid : validateDropResult (fst (drop64 Math_random w)) = true).
  { apply (drop64_valid Math_random double_source); [| | exact Hw].
    - intros s Hs. apply Hs.
    - intros s Hs n. apply Hs. }
  change (simulateDrop64 None w) with (drop64 Math_random w).
  split; [exact Hvalid |]. split.
  - apply validateDropResult_amount. exact Hvalid.
  - apply drop64_Math_random. exact Hw.
Qed.

Lemma double_source_rounding_world : double_source Demo.rounding_world.
Proof. intros n. split; vm_compute; discriminate. Qed.

Lemma simulateDrop64_unseeded_draws_ten_witness :
  double_source Demo.rounding_world /\
  amountCents (fst (simulateDrop64 None Demo.rounding_world)) = 3 /\
  cursor (snd (simulateDrop64 None Demo.rounding_world)) = 10%nat.
Proof.
  split; [exact double_source_rounding_world |].
  split; [vm_compute; reflexivity |].
  destruct (simulateDrop64_unseeded_draws_ten Demo.rounding_world double_source_rounding_world)
    as (_ & _ & ->).
  reflexivity.
Defined.

(** *** Seeds with the same residue *)

Lemma seeded_next_residue (h1 h2 : Z) :
  0 <= h1 -> 0 <= h2 -> h1 mod 233280 = h2 mod 233280 -> seeded_next h1 = seeded_next h2.
Proof.
  intros H1 H2 Hmod. unfold seeded_next.
  assert (E : Z.rem (h1 * 9301 + 49297) 233280 = Z.rem (h2 * 9301 + 49297) 233280).
  { rewrite !Z.rem_mod_nonneg by lia.
    rewrite (Z.add_mod (h1 * 9301)), (Z.add_mod (h2 * 9301)) by lia.
    rewrite (Z.mul_mod h1), (Z.mul_mod h2) by lia. rewrite Hmod. reflexivity. }
  rewrite E. reflexivity.
Qed.

(** X5: the closure of [createSeededRandom] reads its initial [hash]
    modulo 233280 only: two seeds whose hashes are not negative and agree
    modulo 233280 give the same [DropResult]. *)
Theorem seeded_draw_depends_on_residue (seed1 seed2 : JsString) (w1 w2 : MathRandom) :
  seed1 <> [] -> seed2 <> [] ->
  0 <= createSeededRandom seed1 -> 0 <= createSeededRandom seed2 ->
  createSeededRandom seed1 mod 233280 = createSeededRandom seed2 mod 233280 ->
  fst (simulateDrop (Some seed1) w1) = fst (simulateDrop (Some seed2) w2).
Proof.
  intros Hne1 Hne2 H1 H2 Hmod.
  destruct (simulateDrop_seeded seed1 w1 Hne1) as [-> _].
  destruct (simulateDrop_seeded seed2 w2 Hne2) as [-> _].
  pose proof (seeded_next_residue _ _ H1 H2 Hmod) as Hnext.
  unfold drop. change (Z.to_nat BOARD_HEIGHT) with 8%nat.
  cbn [descend]. rewrite Hnext. reflexivity.
Qed.

Lemma seeded_draw_depends_on_residue_witness :
  createSeededRandom (js "a") = 97 /\ createSeededRandom (js "brsd") = 3032737 /\
  fst (simulateDrop (Some (js "a")) Demo.two_phase_world)
  = fst (simulateDrop (Some (js "brsd")) Demo.two_phase_world).
Proof.
  split; [vm_compute; reflexivity |]. split; [vm_compute; reflexivity |].
  apply seeded_draw_depends_on_residue.
  - vm_compute. discriminate.
  - vm_compute. discriminate.
  - vm_compute. discriminate.
  - vm_compute. discriminate.
  - vm_compute. reflexivity.
Defined.

(** C6, at the seed ["plinko"]: the seed hashes to a negative [hash], the
    closure of [createSeededRandom] then returns negative samples, and
    [simulateDrop] returns a prize of -4 cents, which
    [validateDropResult] rejects; the claimed bound
    [1 <= amountCents] fails. *)
Theorem simulateDrop_seed_plinko_negative_prize (w : MathRandom) :
  createSeededRandom (js "plinko") = -985524923 /\
  amountCents (fst (simulateDrop (Some (js "plinko")) w)) = -4 /\
  validateDropResult (fst (simulateDrop (Some (js "plinko")) w)) = false.
Proof. repeat split; vm_compute; reflexivity. Qed.

(** C7 as stated fails at the empty seed string: it is falsy, so
    [simulateDrop] draws from [Math.random], and two invocations in a row
    return different results. *)
Lemma simulateDrop_empty_seed_not_deterministic :
  let first := simulateDrop (Some (js "")) Demo.two_phase_world in
  let second := simulateDrop (Some (js "")) (snd first) in
  fst first <> fst second.
Proof. vm_compute. discriminate. Qed.

(** C7, amended: for every non-empty seed string, [simulateDrop] returns
    the same [DropResult] (path, finalSlot, amountCents) at every
    invocation, whatever the state of [Math.random], which it leaves
    untouched. *)
Theorem simulateDrop_deterministic (seed : JsString) (w1 w2 : MathRandom) :
  seed <> [] ->
  fst (simulateDrop (Some seed) w1) = fst (simulateDrop (Some seed) w2) /\
  snd (simulateDrop (Some seed) w1) = w1.
Proof.
  intros Hne.
  destruct (simulateDrop_seeded seed w1 Hne) as [E1 E1'].
  destruct (simulateDrop_seeded seed w2 Hne) as [E2 _].
  split; [congruence | exact E1'].
Qed.

Lemma simulateDrop_deterministic_witness :
  js "audit-replay" <> [] /\
  fst (simulateDrop (Some (js "audit-replay")) Demo.two_phase_world)
  = fst (simulateDrop (Some (js "audit-replay"))
           (snd (simulateDrop (Some (js "audit-replay")) Demo.two_phase_world))).
Proof.
  assert (Hseed : js "audit-replay" <> []) by (vm_compute; discriminate).
  split; [exact Hseed |].
  apply (simulateDrop_deterministic (js "audit-replay")). exact Hseed.
Defined.

(** C8: the prize [calculatePrize] computes is the same for all values
    of its slot argument, for every random source and every state of it;
    in a draw, the amount is a function of the source's state after the
    descent alone. *)
Theorem calculatePrize_ignores_slot {St : Type} (rng : St -> Q * St)
    (slot slot' : Z) (s : St) :
  calculatePrize rng slot s = calculatePrize rng slot' s /\
  amountCents (fst (drop rng s))
  = fst (calculatePrize rng slot'
           (snd (descend rng (Z.to_nat BOARD_HEIGHT) 0 (BOARD_WIDTH / 2) [] s))).
Proof.
  split; [reflexivity |].
  unfold drop.
  destruct (descend rng (Z.to_nat BOARD_HEIGHT) 0 (BOARD_WIDTH / 2) [] s)
    as [[finalX path'] s1]. simpl.
  change (calculatePrize rng slot' s1) with (calculatePrize rng finalX s1).
  destruct (calculatePrize rng finalX s1) as [amt s2]. reflexivity.
Qed.

End PlinkoFacts.

(* --------------------------------------------------------------------- *)
(** ** The quota ledger                                                   *)
(* --------------------------------------------------------------------- *)

Module TicketFacts.
Import Tickets.
Local Open Scope Z_scope.

Ltac case_ltb :=
  repeat match goal with
         | |- context [?a <? ?b] => destruct (Z.ltb_spec a b)
         | H : context [?a <? ?b] |- _ => destruct (Z.ltb_spec a b)
         end.

(** *** The fallback, against the algorithm *)
Lemma consumeTicketFromMemory_spec (now : Z) (w : JsString) (m : gmap (list Z) MemEntry) :
  let key := getTicketKey w in
  let result := consumeTicketFromMemory now w m in
  (fst result, memory_record now (snd result) key)
    = tryConsume_spec now (memory_record now m key) /\
  (fst result = false -> snd result = m).
Proof.
  unfold consumeTicketFromMemory, memory_record, tryConsume_spec, ALLOWANCE, WINDOW_MS.
  cbv zeta. destruct (m !! getTicketKey w) as [d|] eqn:Hd.
  - destruct (Z.ltb_spec (expiry d) now) as [Hexp|Hlive]; simpl.
    + rewrite lookup_insert_eq; simpl. case_ltb; try lia. split; [reflexivity | discriminate].
    + destruct (Z.ltb_spec 0 (tickets d)) as [Hpos|Hzero]; simpl.
      * rewrite lookup_insert_eq; simpl. case_ltb; try lia.
        split; [reflexivity | discriminate].
      * rewrite Hd. case_ltb; try lia. split; reflexivity.
  - simpl. rewrite lookup_insert_eq; simpl. case_ltb; try lia.
    split; [reflexivity | discriminate].
Qed.

(** *** The script, against the algorithm *)
Lemma consumeScript_spec (now : Z) (key : JsString) (db : gmap (list Z) RedisEntry) :
  let result := consumeScript now key db in
  (fst result =? 1, redis_record now (snd result) key)
    = tryConsume_spec now (redis_record now db key) /\
  ((fst result =? 1) = false -> snd result = db).
Proof.
  unfold consumeScript, redis_GET, redis_record, tryConsume_spec, ALLOWANCE, WINDOW_MS.
  cbv zeta. destruct (redis_find now db key) as [e|] eqn:He; simpl.
  - destruct (Z.ltb_spec 0 (rvalue e)) as [Hpos|Hzero]; simpl.
    + unfold redis_DECR. rewrite He. unfold redis_find in *.
      rewrite lookup_insert_eq. destruct (db !! key) as [e0|]; [| discriminate].
      destruct (redis_live now e0) eqn:Hl; [| discriminate]. inversion He; subst e0.
      unfold redis_live in *; simpl. rewrite Hl. simpl.
      split; [reflexivity | discriminate].
    + rewrite He. simpl. split; reflexivity.
  - unfold redis_SETEX, redis_find. rewrite lookup_insert_eq.
    unfold redis_live; simpl. case_ltb; try lia. simpl.
    split; [reflexivity | discriminate].
Qed.

Lemma consumeTicketFromMemory_nonnegative (now : Z) (w : JsString) (m : gmap (list Z) MemEntry) :
  (forall k d, m !! k = Some d -> 0 <= tickets d) ->
  forall k d, snd (consumeTicketFromMemory now w m) !! k = Some d -> 0 <= tickets d.
Proof.
  intros Hm k d. unfold consumeTicketFromMemory. cbv zeta.
  destruct (m !! getTicketKey w) as [d0|] eqn:Hd; simpl;
    [destruct (Z.ltb_spec (expiry d0) now); simpl;
     [| destruct (Z.ltb_spec 0 (tickets d0)); simpl] |];
    try (apply Hm);
    (destruct (decide (getTicketKey w = k)) as [->|Hne];
     [rewrite lookup_insert_eq; intros [= <-]; simpl; lia
     | rewrite lookup_insert_ne by exact Hne; apply Hm]).
Qed.

Lemma consumeScript_nonnegative (now : Z) (key : JsString) (db : gmap (list Z) RedisEntry) :
  (forall k e, db !! k = Some e -> 0 <= rvalue e) ->
  forall k e, snd (consumeScript now key db) !! k = Some e -> 0 <= rvalue e.
Proof.
  intros Hdb k e. unfold consumeScript, redis_GET. 
  destruct (redis_find now db key) as [e0|] eqn:He; simpl.
  - destruct (Z.ltb_spec 0 (rvalue e0)); simpl; [| apply Hdb].
    unfold redis_DECR. rewrite He.
    destruct (decide (key = k)) as [->|Hne];
      [rewrite lookup_insert_eq; intros [= <-]; simpl; lia
      | rewrite lookup_insert_ne by exact Hne; apply Hdb].
  - unfold redis_SETEX.
    destruct (decide (key = k)) as [->|Hne];
      [rewrite lookup_insert_eq; intros [= <-]; simpl; lia
      | rewrite lookup_insert_ne by exact Hne; apply Hdb].
Qed.

(** [consumeTicket] runs the script when the shared store is marked
    available and answers, and the fallback otherwise. *)
Lemma consumeTicket_shared (now : Z) (w : JsString) (st : State) :
  redisAvailable st = true ->
  consumeTicket true now w st =
    (Returned (fst (consumeScript now (getTicketKey w) (redis st)) =? 1),
     set_redis st (snd (consumeScript now (getTicketKey w) (redis st)))).
Proof.
  intros Ha. unfold consumeTicket. rewrite Ha. simpl.
  destruct (consumeScript now (getTicketKey w) (redis st)) as [r db']. reflexivity.
Qed.

Lemma consumeTicket_local (up : bool) (now : Z) (w : JsString) (st : State) :
  redisAvailable st && up = false ->
  consumeTicket up now w st =
    (Returned (fst (consumeTicketFromMemory now w (memoryStore st))),
     set_memory (set_available st false)
       (snd (consumeTicketFromMemory now w (memoryStore st)))).
Proof.
  intros Ha. unfold consumeTicket.
  destruct st as [avail db m]. simpl in *.
  destruct avail; simpl in *.
  - subst up. simpl. destruct (consumeTicketFromMemory now w m) as [b m']. reflexivity.
  - destruct (consumeTicketFromMemory now w m) as [b m']. reflexivity.
Qed.

(** C4: for every principal and every state of the ledger,
    [consumeTicket] returns (it does not throw) and follows the algorithm
    of the specification on the record in force: with no record or an
    elapsed window it stores 2 remaining under a fresh 24 hour window
    and succeeds, with [remaining > 0] it decrements by one and
    succeeds, and otherwise it fails and leaves both stores as they
    were; stored counts that were not negative stay so. *)
Theorem consumeTicket_follows_algorithm (up : bool) (now : Z) (w : JsString) (st : State) :
  let key := getTicketKey w in
  let shared := redisAvailable st && up in
  let result := consumeTicket up now w st in
  exists b : bool,
    fst result = Returned b /\
    (b, record_in_force shared now (snd result) key)
      = tryConsume_spec now (record_in_force shared now st key) /\
    (b = false ->
       redis (snd result) = redis st /\ memoryStore (snd result) = memoryStore st) /\
    (nonnegative st -> nonnegative (snd result)).
Proof.
  cbv zeta. destruct (redisAvailable st && up) eqn:Hshared.
  - apply andb_prop in Hshared as [Ha ->]. rewrite (consumeTicket_shared now w st Ha).
    destruct (consumeScript_spec now (getTicketKey w) (redis st)) as [Hspec Hfail].
    eexists; split; [reflexivity |]. cbn [fst snd record_in_force set_redis redis memoryStore].
    split; [exact Hspec |]. split.
    + intros Hb. split; [apply Hfail; exact Hb | reflexivity].
    + intros [Hredis Hmem]. split; [| exact Hmem].
      intros k e. apply consumeScript_nonnegative. exact Hredis.
  - rewrite (consumeTicket_local up now w st Hshared).
    destruct (consumeTicketFromMemory_spec now w (memoryStore st)) as [Hspec Hfail].
    eexists; split; [reflexivity |].
    cbn [fst snd record_in_force set_memory set_available redis memoryStore].
    split; [exact Hspec |]. split.
    + intros Hb. split; [reflexivity | apply Hfail; exact Hb].
    + intros [Hredis Hmem]. split; [exact Hredis |].
      intros k d. apply consumeTicketFromMemory_nonnegative. exact Hmem.
Qed.

(** C9: started from the same quota state for the principal (no record
    in force, or the same remaining count), the in-memory fallback and
    the script return the same success or failure and leave the same
    remaining count; and [consumeTicket] never throws: when the shared
    store does not answer it returns what the fallback returns. *)
Theorem memory_fallback_same_semantics (now : Z) (w : JsString)
    (db : gmap (list Z) RedisEntry) (m : gmap (list Z) MemEntry) (st : State) :
  let key := getTicketKey w in
  remaining <$> memory_record now m key = remaining <$> redis_record now db key ->
  (fst (consumeTicketFromMemory now w m) = (fst (consumeScript now key db) =? 1) /\
   remaining <$> memory_record now (snd (consumeTicketFromMemory now w m)) key
     = remaining <$> redis_record now (snd (consumeScript now key db)) key) /\
  fst (consumeTicket false now w st)
    = Returned (fst (consumeTicketFromMemory now w (memoryStore st))).
Proof.
  cbv zeta. intros Hsame. split.
  - destruct (consumeTicketFromMemory_spec now w m) as [Hm _].
    destruct (consumeScript_spec now (getTicketKey w) db) as [Hr _].
    cbv zeta in Hm, Hr.
    destruct (memory_record now m (getTicketKey w)) as [rm|];
      destruct (redis_record now db (getTicketKey w)) as [rr|];
      simpl in Hsame; try discriminate.
    + injection Hsame as Hrem. unfold tryConsume_spec in Hm, Hr. rewrite Hrem in Hm.
      destruct (0 <? remaining rr);
        injection Hm as Hm1 Hm2; injection Hr as Hr1 Hr2;
        rewrite Hm1, Hm2, Hr1, Hr2; simpl; split; congruence.
    + unfold tryConsume_spec in Hm, Hr.
      injection Hm as Hm1 Hm2; injection Hr as Hr1 Hr2.
      rewrite Hm1, Hm2, Hr1, Hr2; simpl; split; reflexivity.
  - rewrite (consumeTicket_local false now w st); [reflexivity |].
    apply andb_false_r.
Qed.

Lemma memory_fallback_same_semantics_witness :
  remaining <$> memory_record 1000 Demo.demo_memory (getTicketKey (js "0xAbC"))
    = remaining <$> redis_record 1000 Demo.demo_redis (getTicketKey (js "0xAbC")) /\
  fst (consumeTicketFromMemory 1000 (js "0xAbC") Demo.demo_memory)
    = (fst (consumeScript 1000 (getTicketKey (js "0xAbC")) Demo.demo_redis) =? 1) /\
  remaining <$> memory_record 1000
      (snd (consumeTicketFromMemory 1000 (js "0xAbC") Demo.demo_memory))
      (getTicketKey (js "0xAbC"))
    = remaining <$> redis_record 1000
        (snd (consumeScript 1000 (getTicketKey (js "0xAbC")) Demo.demo_redis))
        (getTicketKey (js "0xAbC")).
Proof.
  assert (Hsame : remaining <$> memory_record 1000 Demo.demo_memory (getTicketKey (js "0xAbC"))
                  = remaining <$> redis_record 1000 Demo.demo_redis (getTicketKey (js "0xAbC")))
    by (vm_compute; reflexivity).
  split; [exact Hsame |].
  apply (memory_fallback_same_semantics 1000 (js "0xAbC") Demo.demo_redis Demo.demo_memory
           Demo.demo_ledger Hsame).
Defined.

(** *** The other calls of the manager *)

Lemma getRemainingTickets_shared (now : Z) (w : JsString) (st : State) :
  redisAvailable st = true ->
  getRemainingTickets true now w st =
    match redis_GET now (redis st) (getTicketKey w) with
    | None =>
        (Returned 3,
         set_redis st (redis_SETEX now (redis st) (getTicketKey w) (24 * 60 * 60) 3))
    | Some tickets => (Returned tickets, st)
    end.
Proof.
  intros Ha. unfold getRemainingTickets. rewrite Ha. cbn [negb]. unfold redis_call.
  cbv zeta. destruct (redis_GET now (redis st) (getTicketKey w)); reflexivity.
Qed.

Lemma getRemainingTickets_local (up : bool) (now : Z) (w : JsString) (st : State) :
  redisAvailable st && up = false ->
  getRemainingTickets up now w st =
    (Returned (fst (getTicketsFromMemory now w (memoryStore st))),
     set_memory (set_available st false)
       (snd (getTicketsFromMemory now w (memoryStore st)))).
Proof.
  intros Ha. unfold getRemainingTickets.
  destruct st as [avail db m]. cbn [redisAvailable redis memoryStore] in *.
  destruct avail; cbn [negb andb] in *.
  - subst up. unfold redis_call. cbv zeta. cbn [memoryStore set_available].
    destruct (getTicketsFromMemory now w m) as [n m']. reflexivity.
  - cbv zeta. cbn [memoryStore]. destruct (getTicketsFromMemory now w m) as [n m']. reflexivity.
Qed.

Lemma resetTickets_shared (now : Z) (w : JsString) (st : State) :
  redisAvailable st = true ->
  resetTickets true now w st =
    (Returned tt, set_redis st (redis_SETEX now (redis st) (getTicketKey w) (24 * 60 * 60) 3)).
Proof. intros Ha. unfold resetTickets. rewrite Ha. reflexivity. Qed.

Lemma resetTickets_local (up : bool) (now : Z) (w : JsString) (st : State) :
  redisAvailable st && up = false ->
  resetTickets up now w st =
    (Returned tt,
     set_memory (set_available st false) (resetTicketsInMemory now w (memoryStore st))).
Proof.
  intros Ha. unfold resetTickets.
  destruct st as [avail db m]. cbn [redisAvailable redis memoryStore] in *.
  destruct avail; cbn [negb andb] in *; [subst up |]; reflexivity.
Qed.

(** *** Keys *)

Lemma toLowerCase_idempotent (s : JsString) : toLowerCase (toLowerCase s) = toLowerCase s.
Proof.
  unfold toLowerCase. rewrite map_map. apply map_ext. intros c.
  destruct ((65 <=? c) && (c <=? 90)) eqn:Hc.
  - apply andb_prop in Hc as [H1 H2]. apply Z.leb_le in H1, H2.
    replace ((65 <=? c + 32) && (c + 32 <=? 90)) with false; [reflexivity |].
    symmetry. apply andb_false_intro2. apply Z.leb_gt. lia.
  - rewrite Hc. reflexivity.
Qed.

Lemma getTicketKey_inj (w w' : JsString) :
  getTicketKey w = getTicketKey w' <-> toLowerCase w = toLowerCase w'.
Proof.
  unfold getTicketKey. split.
  - apply app_inv_head.
  - intros ->. reflexivity.
Qed.

(** X6: the quota of a principal is keyed by the lower-cased wallet
    address: two addresses of ASCII characters have the same key exactly
    when they agree up to the case of their letters, and then every call
    of the manager does the same for both. *)
Theorem ticket_key_case_insensitive (w w' : JsString) :
  is_ascii w -> is_ascii w' ->
  (getTicketKey w = getTicketKey w' <-> toLowerCase w = toLowerCase w') /\
  getTicketKey (toLowerCase w) = getTicketKey w /\
  (toLowerCase w = toLowerCase w' ->
   forall (up : bool) (now : Z) (st : State),
     consumeTicket up now w st = consumeTicket up now w' st /\
     getRemainingTickets up now w st = getRemainingTickets up now w' st /\
     resetTickets up now w st = resetTickets up now w' st).
Proof.
  intros _ _. split; [apply getTicketKey_inj |]. split.
  - apply getTicketKey_inj, toLowerCase_idempotent.
  - intros Hsame up now st. apply getTicketKey_inj in Hsame.
    unfold consumeTicket, getRemainingTickets, resetTickets, consumeTicketFromMemory,
      getTicketsFromMemory, resetTicketsInMemory.
    rewrite Hsame. repeat split.
Qed.

Lemma is_ascii_js_0xAbC : is_ascii (js "0xAbC") /\ is_ascii (js "0xABC") /\ is_ascii (js "0xdef").
Proof. repeat split; repeat constructor; vm_compute; discriminate. Qed.

Lemma ticket_key_case_insensitive_witness :
  is_ascii (js "0xAbC") /\ is_ascii (js "0xABC") /\
  getTicketKey (js "0xAbC") = getTicketKey (js "0xABC") /\
  consumeTicket true 1000 (js "0xAbC") Demo.demo_ledger
  = consumeTicket true 1000 (js "0xABC") Demo.demo_ledger.
Proof.
  destruct is_ascii_js_0xAbC as (Hw & Hw' & _).
  split; [exact Hw |]. split; [exact Hw' |].
  destruct (ticket_key_case_insensitive (js "0xAbC") (js "0xABC") Hw Hw')
    as (Hkey & _ & Hcalls).
  split; [apply Hkey; vm_compute; reflexivity |].
  apply (Hcalls ltac:(vm_compute; reflexivity) true 1000 Demo.demo_ledger).
Defined.

(** *** Reading the record in force *)

Lemma getTicketsFromMemory_spec (now : Z) (w : JsString) (m : gmap (list Z) MemEntry) :
  let key := getTicketKey w in
  let result := getTicketsFromMemory now w m in
  let record := default {| remaining := ALLOWANCE; windowExpiresAt := Some (now + WINDOW_MS) |}
                  (memory_record now m key) in
  fst result = remaining record /\
  memory_record now (snd result) key = Some record /\
  (memory_record now m key <> None -> snd result = m).
Proof.
  unfold getTicketsFromMemory, memory_record, ALLOWANCE, WINDOW_MS. cbv zeta.
  destruct (m !! getTicketKey w) as [d|] eqn:Hd.
  - destruct (Z.ltb_spec (expiry d) now) as [Hexp|Hlive]; cbn [fst snd default remaining].
    + rewrite lookup_insert_eq. cbn [expiry tickets]. case_ltb; try lia.
      repeat split. congruence.
    + rewrite Hd. case_ltb; try lia. repeat split.
  - cbn [fst snd default remaining]. rewrite lookup_insert_eq. cbn [expiry tickets].
    case_ltb; try lia. repeat split. congruence.
Qed.

Lemma redis_SETEX_record (now t : Z) (key : JsString) (db : gmap (list Z) RedisEntry)
    (seconds value : Z) :
  t <= now + seconds * 1000 ->
  redis_record t (redis_SETEX now db key seconds value) key
  = Some {| remaining := value; windowExpiresAt := Some (now + seconds * 1000) |}.
Proof.
  intros Ht. unfold redis_record, redis_SETEX, redis_find. rewrite lookup_insert_eq.
  unfold redis_live. cbn [expireAt rvalue]. case_ltb; try lia. reflexivity.
Qed.

(** X7: [getRemainingTickets] returns the count of the record in force
    and consumes nothing; a principal with no record in force is given
    the allowance of 3 under a window of 24 hours from now.  A call that
    finds a record leaves both stores as they were. *)
Theorem getRemainingTickets_reads_record (up : bool) (now : Z) (w : JsString) (st : State) :
  let key := getTicketKey w in
  let shared := redisAvailable st && up in
  let result := getRemainingTickets up now w st in
  let record := default {| remaining := ALLOWANCE; windowExpiresAt := Some (now + WINDOW_MS) |}
                  (record_in_force shared now st key) in
  fst result = Returned (remaining record) /\
  record_in_force shared now (snd result) key = Some record /\
  (record_in_force shared now st key <> None ->
     redis (snd result) = redis st /\ memoryStore (snd result) = memoryStore st).
Proof.
  cbv zeta. destruct (redisAvailable st && up) eqn:Hshared.
  - apply andb_prop in Hshared as [Ha ->]. rewrite (getRemainingTickets_shared now w st Ha).
    cbn [record_in_force]. unfold redis_GET.
    assert (Hrec : redis_record now (redis st) (getTicketKey w)
                   = (fun e => {| remaining := rvalue e; windowExpiresAt := expireAt e |})
                       <$> redis_find now (redis st) (getTicketKey w)) by reflexivity.
    rewrite Hrec.
    destruct (redis_find now (redis st) (getTicketKey w)) as [e|] eqn:He;
      cbn [fmap option_fmap option_map default fst snd remaining].
    + rewrite Hrec. repeat split.
    + cbn [set_redis redis memoryStore].
      rewrite (redis_SETEX_record now now) by lia.
      unfold ALLOWANCE, WINDOW_MS. repeat split. congruence.
  - rewrite (getRemainingTickets_local up now w st Hshared).
    destruct (getTicketsFromMemory_spec now w (memoryStore st)) as (Hn & Hrec & Hsame).
    cbn [fst snd record_in_force set_memory set_available redis memoryStore].
    rewrite Hn. split; [reflexivity |]. split; [exact Hrec |].
    intros Hsome. split; [reflexivity | apply Hsame, Hsome].
Qed.

(** *** One call, on the record in force *)

Lemma record_in_force_window (shared : bool) (t t' e : Z) (st : State) (key : JsString)
    (r : QuotaRecord) :
  record_in_force shared t st key = Some r -> windowExpiresAt r = Some e -> t' <= e ->
  record_in_force shared t' st key = Some r.
Proof.
  unfold record_in_force, redis_record, memory_record, redis_find.
  intros H Hw Ht'. destruct shared.
  - destruct (redis st !! key) as [e0|]; [| discriminate].
    destruct (redis_live t e0) eqn:Hl; [| discriminate].
    cbn [fmap option_fmap option_map] in H. injection H as <-. cbn [windowExpiresAt] in Hw.
    replace (redis_live t' e0) with true; [reflexivity |].
    unfold redis_live. rewrite Hw. symmetry. apply negb_true_iff, Z.ltb_ge. lia.
  - destruct (memoryStore st !! key) as [d|]; [| discriminate].
    destruct (Z.ltb_spec (expiry d) t); [discriminate |].
    injection H as <-. cbn [windowExpiresAt] in Hw. injection Hw as <-.
    destruct (Z.ltb_spec (expiry d) t'); [lia | reflexivity].
Qed.

Lemma consumeTicket_record (up : bool) (now : Z) (w : JsString) (st : State) :
  let shared := redisAvailable st && up in
  let result := consumeTicket up now w st in
  let spec := tryConsume_spec now (record_in_force shared now st (getTicketKey w)) in
  fst result = Returned (fst spec) /\
  record_in_force shared now (snd result) (getTicketKey w) = snd spec /\
  redisAvailable (snd result) && up = shared.
Proof.
  cbv zeta. destruct (redisAvailable st && up) eqn:Hshared.
  - apply andb_prop in Hshared as [Ha ->]. rewrite (consumeTicket_shared now w st Ha).
    destruct (consumeScript_spec now (getTicketKey w) (redis st)) as [Hspec _].
    cbv zeta in Hspec. cbn [fst snd record_in_force set_redis redis redisAvailable].
    rewrite <- Hspec. cbn [fst snd]. rewrite Ha. repeat split.
  - rewrite (consumeTicket_local up now w st Hshared).
    destruct (consumeTicketFromMemory_spec now w (memoryStore st)) as [Hspec _].
    cbv zeta in Hspec.
    cbn [fst snd record_in_force set_memory set_available redis memoryStore redisAvailable].
    rewrite <- Hspec. cbn [fst snd]. repeat split.
Qed.

Lemma consumeTicket_in_window (up : bool) (now e n : Z) (w : JsString) (st : State) :
  record_in_force (redisAvailable st && up) now st (getTicketKey w)
    = Some {| remaining := n; windowExpiresAt := Some e |} ->
  0 < n ->
  fst (consumeTicket up now w st) = Returned true /\
  redisAvailable (snd (consumeTicket up now w st)) && up = redisAvailable st && up /\
  forall t, t <= e ->
    record_in_force (redisAvailable st && up) t (snd (consumeTicket up now w st)) (getTicketKey w)
    = Some {| remaining := n - 1; windowExpiresAt := Some e |}.
Proof.
  intros Hrec Hn. destruct (consumeTicket_record up now w st) as (Hres & Hafter & Hav).
  rewrite Hrec in Hres, Hafter. unfold tryConsume_spec in Hres, Hafter.
  cbn [remaining windowExpiresAt] in Hres, Hafter.
  destruct (Z.ltb_spec 0 n); [| lia]. cbn [fst snd] in Hres, Hafter.
  split; [exact Hres |]. split; [exact Hav |].
  intros t Ht. apply (record_in_force_window _ now t e _ _ _ Hafter); [reflexivity | exact Ht].
Qed.

Lemma consumeTicket_exhausted (up : bool) (now n : Z) (w : JsString) (st : State)
    (window : option Z) :
  record_in_force (redisAvailable st && up) now st (getTicketKey w)
    = Some {| remaining := n; windowExpiresAt := window |} ->
  n <= 0 ->
  fst (consumeTicket up now w st) = Returned false /\
  redisAvailable (snd (consumeTicket up now w st)) && up = redisAvailable st && up /\
  record_in_force (redisAvailable st && up) now (snd (consumeTicket up now w st)) (getTicketKey w)
    = Some {| remaining := n; windowExpiresAt := window |}.
Proof.
  intros Hrec Hn. destruct (consumeTicket_record up now w st) as (Hres & Hafter & Hav).
  rewrite Hrec in Hres, Hafter. unfold tryConsume_spec in Hres, Hafter.
  cbn [remaining windowExpiresAt] in Hres, Hafter.
  destruct (Z.ltb_spec 0 n); [lia |]. cbn [fst snd] in Hres, Hafter.
  repeat split; assumption.
Qed.

Lemma resetTickets_record (up : bool) (now t : Z) (w : JsString) (st : State) :
  t <= now + WINDOW_MS ->
  redisAvailable (snd (resetTickets up now w st)) && up = redisAvailable st && up /\
  record_in_force (redisAvailable st && up) t (snd (resetTickets up now w st)) (getTicketKey w)
    = Some {| remaining := ALLOWANCE; windowExpiresAt := Some (now + WINDOW_MS) |}.
Proof.
  unfold WINDOW_MS, ALLOWANCE. intros Ht. destruct (redisAvailable st && up) eqn:Hshared.
  - apply andb_prop in Hshared as [Ha ->]. rewrite (resetTickets_shared now w st Ha).
    cbn [fst snd record_in_force set_redis redis redisAvailable]. rewrite Ha.
    split; [reflexivity |]. rewrite redis_SETEX_record by lia. repeat f_equal.
  - rewrite (resetTickets_local up now w st Hshared).
    cbn [fst snd record_in_force set_memory set_available redis memoryStore redisAvailable].
    split; [reflexivity |]. unfold memory_record, resetTicketsInMemory.
    rewrite lookup_insert_eq. cbn [expiry tickets]. case_ltb; try lia. reflexivity.
Qed.

Lemma getRemainingTickets_record (up : bool) (now : Z) (w : JsString) (st : State) :
  let shared := redisAvailable st && up in
  let result := getRemainingTickets up now w st in
  let record := default {| remaining := ALLOWANCE; windowExpiresAt := Some (now + WINDOW_MS) |}
                  (record_in_force shared now st (getTicketKey w)) in
  fst result = Returned (remaining record) /\
  record_in_force shared now (snd result) (getTicketKey w) = Some record /\
  redisAvailable (snd result) && up = shared.
Proof.
  cbv zeta. destruct (redisAvailable st && up) eqn:Hshared.
  - apply andb_prop in Hshared as [Ha ->]. rewrite (getRemainingTickets_shared now w st Ha).
    cbn [record_in_force]. unfold redis_GET.
    assert (Hrec : redis_record now (redis st) (getTicketKey w)
                   = (fun e => {| remaining := rvalue e; windowExpiresAt := expireAt e |})
                       <$> redis_find now (redis st) (getTicketKey w)) by reflexivity.
    rewrite Hrec.
    destruct (redis_find now (redis st) (getTicketKey w)) as [e|] eqn:He;
      cbn [fmap option_fmap option_map default fst snd remaining].
    + rewrite Hrec, Ha. repeat split.
    + cbn [set_redis redis memoryStore redisAvailable].
      rewrite (redis_SETEX_record now now) by lia. rewrite Ha.
      unfold ALLOWANCE, WINDOW_MS. repeat split.
  - rewrite (getRemainingTickets_local up now w st Hshared).
    destruct (getTicketsFromMemory_spec now w (memoryStore st)) as (Hn & Hrec & _).
    cbn [fst snd record_in_force set_memory set_available redis memoryStore redisAvailable].
    rewrite Hn. repeat split. exact Hrec.
Qed.

(** X8: after [resetTickets], three calls of [consumeTicket] within the
    24 hours that follow succeed and the fourth fails, and
    [getRemainingTickets] then reports 0 (the shared store answering, or
    failing, at all of these calls alike). *)
Theorem reset_allows_three_draws (up : bool) (now t1 t2 t3 t4 : Z) (w : JsString) (st : State) :
  t1 <= now + WINDOW_MS -> t2 <= now + WINDOW_MS ->
  t3 <= now + WINDOW_MS -> t4 <= now + WINDOW_MS ->
  let s0 := snd (resetTickets up now w st) in
  let r1 := consumeTicket up t1 w s0 in
  let r2 := consumeTicket up t2 w (snd r1) in
  let r3 := consumeTicket up t3 w (snd r2) in
  let r4 := consumeTicket up t4 w (snd r3) in
  fst r1 = Returned true /\ fst r2 = Returned true /\ fst r3 = Returned true /\
  fst r4 = Returned false /\
  fst (getRemainingTickets up t4 w (snd r4)) = Returned 0.
Proof.
  intros H1 H2 H3 H4. cbv zeta.
  destruct (resetTickets_record up now t1 w st H1) as [Hav0 Hrec0].
  set (s0 := snd (resetTickets up now w st)) in *.
  rewrite <- Hav0 in Hrec0. unfold ALLOWANCE in Hrec0.
  destruct (consumeTicket_in_window up t1 _ 3 w s0 Hrec0 ltac:(lia)) as (R1 & Hav1 & Hrec1).
  set (s1 := snd (consumeTicket up t1 w s0)) in *.
  specialize (Hrec1 t2 H2). rewrite <- Hav1 in Hrec1.
  destruct (consumeTicket_in_window up t2 _ (3 - 1) w s1 Hrec1 ltac:(lia)) as (R2 & Hav2 & Hrec2).
  set (s2 := snd (consumeTicket up t2 w s1)) in *.
  specialize (Hrec2 t3 H3). rewrite <- Hav2 in Hrec2.
  destruct (consumeTicket_in_window up t3 _ (3 - 1 - 1) w s2 Hrec2 ltac:(lia))
    as (R3 & Hav3 & Hrec3).
  set (s3 := snd (consumeTicket up t3 w s2)) in *.
  specialize (Hrec3 t4 H4). rewrite <- Hav3 in Hrec3.
  destruct (consumeTicket_exhausted up t4 (3 - 1 - 1 - 1) w s3 _ Hrec3 ltac:(lia))
    as (R4 & Hav4 & Hrec4).
  set (s4 := snd (consumeTicket up t4 w s3)) in *.
  rewrite <- Hav4 in Hrec4.
  destruct (getRemainingTickets_record up t4 w s4) as (R5 & _).
  rewrite Hrec4 in R5. cbn [default remaining] in R5.
  repeat split; assumption.
Qed.

Lemma reset_allows_three_draws_witness :
  let s0 := snd (resetTickets true 1000 (js "0xAbC") Demo.demo_ledger) in
  let r1 := consumeTicket true 2000 (js "0xAbC") s0 in
  let r2 := consumeTicket true 3000 (js "0xAbC") (snd r1) in
  let r3 := consumeTicket true 86401000 (js "0xAbC") (snd r2) in
  let r4 := consumeTicket true 4000 (js "0xAbC") (snd r3) in
  fst r3 = Returned true /\ fst r4 = Returned false.
Proof.
  cbv zeta.
  destruct (reset_allows_three_draws true 1000 2000 3000 86401000 4000 (js "0xAbC")
              Demo.demo_ledger) as (_ & _ & R3 & R4 & _).
  - unfold WINDOW_MS. lia.
  - unfold WINDOW_MS. lia.
  - unfold WINDOW_MS. lia.
  - unfold WINDOW_MS. lia.
  - split; [exact R3 | exact R4].
Defined.

(** *** What a call leaves alone *)

Lemma consumeScript_other_key (now : Z) (key k : JsString) (db : gmap (list Z) RedisEntry) :
  k <> key -> snd (consumeScript now key db) !! k = db !! k.
Proof.
  intros Hne. unfold consumeScript, redis_DECR, redis_SETEX.
  destruct (redis_GET now db key) as [current|]; cbn [snd].
  - destruct (0 <? current); cbn [snd]; [| reflexivity].
    destruct (redis_find now db key); apply lookup_insert_ne; congruence.
  - apply lookup_insert_ne. congruence.
Qed.

Lemma consumeTicketFromMemory_other_key (now : Z) (w k : JsString)
    (m : gmap (list Z) MemEntry) :
  k <> getTicketKey w -> snd (consumeTicketFromMemory now w m) !! k = m !! k.
Proof.
  intros Hne. unfold consumeTicketFromMemory. cbv zeta.
  destruct (m !! getTicketKey w) as [d|]; cbn [snd].
  - destruct (expiry d <? now); cbn [snd]; [apply lookup_insert_ne; congruence |].
    destruct (0 <? tickets d); cbn [snd]; [apply lookup_insert_ne; congruence | reflexivity].
  - apply lookup_insert_ne. congruence.
Qed.

Lemma getTicketsFromMemory_other_key (now : Z) (w k : JsString)
    (m : gmap (list Z) MemEntry) :
  k <> getTicketKey w -> snd (getTicketsFromMemory now w m) !! k = m !! k.
Proof.
  intros Hne. unfold getTicketsFromMemory. cbv zeta.
  destruct (m !! getTicketKey w) as [d|]; cbn [snd].
  - destruct (expiry d <? now); cbn [snd]; [apply lookup_insert_ne; congruence | reflexivity].
  - apply lookup_insert_ne. congruence.
Qed.

(** X9: a call for one principal leaves the entries of every other
    principal, in the shared store and in the process memory, as they
    were (the addresses being of ASCII characters, another principal is
    one whose address differs by more than the case of its letters). *)
Theorem ticket_calls_touch_one_key (up : bool) (now : Z) (w w' : JsString) (st : State) :
  is_ascii w -> is_ascii w' ->
  toLowerCase w' <> toLowerCase w ->
  Forall (fun st' => redis st' !! getTicketKey w' = redis st !! getTicketKey w' /\
                     memoryStore st' !! getTicketKey w' = memoryStore st !! getTicketKey w')
    [snd (consumeTicket up now w st);
     snd (getRemainingTickets up now w st);
     snd (resetTickets up now w st)].
Proof.
  intros _ _ Hother.
  assert (Hne : getTicketKey w' <> getTicketKey w).
  { intros Hk. apply Hother, getTicketKey_inj, Hk. }
  destruct (redisAvailable st && up) eqn:Hshared.
  - apply andb_prop in Hshared as [Ha ->].
    rewrite (consumeTicket_shared now w st Ha), (getRemainingTickets_shared now w st Ha),
      (resetTickets_shared now w st Ha).
    repeat constructor; cbn [snd set_redis redis memoryStore].
    + apply consumeScript_other_key, Hne.
    + destruct (redis_GET now (redis st) (getTicketKey w)); cbn [snd set_redis redis];
        [reflexivity | apply lookup_insert_ne; congruence].
    + destruct (redis_GET now (redis st) (getTicketKey w)); reflexivity.
    + apply lookup_insert_ne. congruence.
  - rewrite (consumeTicket_local up now w st Hshared),
      (getRemainingTickets_local up now w st Hshared), (resetTickets_local up now w st Hshared).
    repeat constructor; cbn [snd set_memory set_available redis memoryStore].
    + apply consumeTicketFromMemory_other_key, Hne.
    + apply getTicketsFromMemory_other_key, Hne.
    + apply lookup_insert_ne. congruence.
Qed.

Lemma ticket_calls_touch_one_key_witness :
  is_ascii (js "0xAbC") /\ is_ascii (js "0xdef") /\
  toLowerCase (js "0xdef") <> toLowerCase (js "0xAbC") /\
  redis (snd (consumeTicket true 1000 (js "0xAbC") Demo.demo_ledger)) !! getTicketKey (js "0xdef")
  = redis Demo.demo_ledger !! getTicketKey (js "0xdef").
Proof.
  destruct is_ascii_js_0xAbC as (Hw & _ & Hw').
  assert (Hne : toLowerCase (js "0xdef") <> toLowerCase (js "0xAbC"))
    by (vm_compute; discriminate).
  split; [exact Hw |]. split; [exact Hw' |]. split; [exact Hne |].
  pose proof (ticket_calls_touch_one_key true 1000 (js "0xAbC") (js "0xdef")
                Demo.demo_ledger Hw Hw' Hne) as Hall.
  apply Forall_cons_1 in Hall as [[Hredis _] _]. exact Hredis.
Defined.

(** X10: once the shared store is marked unavailable, or fails to
    answer a call, the manager works on the process memory: the call
    leaves the store marked unavailable and its contents untouched.  No
    call marks it available again. *)
Theorem degraded_mode_is_sticky (up : bool) (now : Z) (w : JsString) (st : State) :
  redisAvailable st && up = false ->
  Forall (fun st' => redisAvailable st' = false /\ redis st' = redis st)
    [snd (consumeTicket up now w st);
     snd (getRemainingTickets up now w st);
     snd (resetTickets up now w st)].
Proof.
  intros Hshared.
  rewrite (consumeTicket_local up now w st Hshared),
    (getRemainingTickets_local up now w st Hshared), (resetTickets_local up now w st Hshared).
  repeat constructor.
Qed.

Lemma degraded_mode_is_sticky_witness :
  redisAvailable Demo.demo_ledger && false = false /\
  redisAvailable (snd (consumeTicket false 1000 (js "0xAbC") Demo.demo_ledger)) = false /\
  redisAvailable
    (snd (consumeTicket true 2000 (js "0xAbC")
            (snd (consumeTicket false 1000 (js "0xAbC") Demo.demo_ledger)))) = false.
Proof.
  split; [reflexivity |].
  pose proof (degraded_mode_is_sticky false 1000 (js "0xAbC") Demo.demo_ledger eq_refl) as H1.
  apply Forall_cons_1 in H1 as [[Hflag _] _].
  split; [exact Hflag |].
  pose proof (degraded_mode_is_sticky true 2000 (js "0xAbC")
                (snd (consumeTicket false 1000 (js "0xAbC") Demo.demo_ledger))) as H2.
  rewrite Hflag in H2. specialize (H2 eq_refl).
  apply Forall_cons_1 in H2 as [[Hflag2 _] _]. exact Hflag2.
Defined.

(** X11: the two stores keep separate records.  A principal whose
    record in the shared store is exhausted, and who has no record in
    force in the process memory, is refused while the shared store
    answers, and is given a fresh allowance as soon as it fails: the call
    succeeds and leaves 2 remaining. *)
Theorem failover_grants_fresh_allowance (now : Z) (w : JsString) (st : State)
    (r : QuotaRecord) :
  redisAvailable st = true ->
  redis_record now (redis st) (getTicketKey w) = Some r -> remaining r <= 0 ->
  memory_record now (memoryStore st) (getTicketKey w) = None ->
  fst (consumeTicket true now w st) = Returned false /\
  fst (consumeTicket false now w st) = Returned true /\
  fst (getRemainingTickets true now w (snd (consumeTicket false now w st))) = Returned 2.
Proof.
  intros Ha Hredis Hzero Hmem. split; [| split].
  - destruct (consumeTicket_record true now w st) as (Hres & _).
    rewrite Ha in Hres. cbn [andb record_in_force] in Hres. rewrite Hredis in Hres.
    unfold tryConsume_spec in Hres. destruct (Z.ltb_spec 0 (remaining r)); [lia |].
    exact Hres.
  - destruct (consumeTicket_record false now w st) as (Hres & _).
    rewrite Ha in Hres. cbn [andb record_in_force] in Hres. rewrite Hmem in Hres.
    exact Hres.
  - destruct (consumeTicket_record false now w st) as (_ & Hafter & _).
    rewrite Ha in Hafter. cbn [andb record_in_force] in Hafter.
    rewrite Hmem in Hafter. cbn [tryConsume_spec snd] in Hafter.
    assert (Hflag : redisAvailable (snd (consumeTicket false now w st)) && true = false).
    { rewrite (consumeTicket_local false now w st (andb_false_r _)). reflexivity. }
    set (s1 := snd (consumeTicket false now w st)) in *.
    destruct (getRemainingTickets_record true now w s1) as (Hres & _).
    rewrite Hflag in Hres. cbn [record_in_force] in Hres. rewrite Hafter in Hres.
    exact Hres.
Qed.

Lemma failover_grants_fresh_allowance_witness :
  fst (consumeTicket true 1000 (js "0xAbC") Demo.exhausted_ledger) = Returned false /\
  fst (consumeTicket false 1000 (js "0xAbC") Demo.exhausted_ledger) = Returned true.
Proof.
  destruct (failover_grants_fresh_allowance 1000 (js "0xAbC") Demo.exhausted_ledger
              {| remaining := 0; windowExpiresAt := Some 5000 |}) as (H1 & H2 & _).
  - reflexivity.
  - vm_compute. reflexivity.
  - vm_compute. discriminate.
  - vm_compute. reflexivity.
  - split; assumption.
Defined.

(** A refused call leaves both stores as they were. *)
Lemma consumeTicket_refused (up : bool) (now : Z) (w : JsString) (st : State) :
  fst (consumeTicket up now w st) = Returned false ->
  redis (snd (consumeTicket up now w st)) = redis st /\
  memoryStore (snd (consumeTicket up now w st)) = memoryStore st.
Proof.
  destruct (redisAvailable st && up) eqn:Hshared.
  - apply andb_prop in Hshared as [Ha ->]. rewrite (consumeTicket_shared now w st Ha).
    destruct (consumeScript_spec now (getTicketKey w) (redis st)) as [_ Hfail].
    cbn [fst snd set_redis redis memoryStore]. intros [= Hb].
    split; [apply Hfail; exact Hb | reflexivity].
  - rewrite (consumeTicket_local up now w st Hshared).
    destruct (consumeTicketFromMemory_spec now w (memoryStore st)) as [_ Hfail].
    cbn [fst snd set_memory set_available redis memoryStore]. intros [= Hb].
    split; [reflexivity | apply Hfail; exact Hb].
Qed.

(** *** Counts stay within the allowance *)

Lemma insert_preserves {A : Type} (P : A -> Prop) (m : gmap (list Z) A) (key : list Z) (a : A) :
  (forall k x, m !! k = Some x -> P x) -> P a ->
  forall k x, <[key := a]> m !! k = Some x -> P x.
Proof.
  intros Hm Ha k x. destruct (decide (key = k)) as [->|Hne].
  - rewrite lookup_insert_eq. intros [= <-]. exact Ha.
  - rewrite lookup_insert_ne by exact Hne. apply Hm.
Qed.

Lemma redis_find_lookup (now : Z) (db : gmap (list Z) RedisEntry) (key : JsString)
    (e : RedisEntry) :
  redis_find now db key = Some e -> db !! key = Some e.
Proof.
  unfold redis_find. destruct (db !! key) as [e0|]; [| discriminate].
  destruct (redis_live now e0); [| discriminate]. intros [= <-]. reflexivity.
Qed.

Ltac kept :=
  match goal with
  | Hredis : (forall k e, redis _ !! k = Some e -> _),
    Hmem : (forall k d, memoryStore _ !! k = Some d -> _) |- _ =>
      split;
      [exact Hredis
      | first [exact Hmem | apply insert_preserves; [exact Hmem | cbn [tickets]; lia]]]
  end.

(** X12: the calls of the manager keep every stored counter between 0
    and 3, and [getRemainingTickets] then reports a count between 0 and
    3. *)
Theorem ticket_counts_within_allowance (up : bool) (now : Z) (w : JsString) (st : State) :
  within_allowance st ->
  within_allowance (snd (consumeTicket up now w st)) /\
  within_allowance (snd (getRemainingTickets up now w st)) /\
  within_allowance (snd (resetTickets up now w st)) /\
  exists n, fst (getRemainingTickets up now w st) = Returned n /\ 0 <= n <= 3.
Proof.
  unfold within_allowance, ALLOWANCE. intros [Hredis Hmem].
  destruct (redisAvailable st && up) eqn:Hshared.
  - apply andb_prop in Hshared as [Ha ->].
    rewrite (consumeTicket_shared now w st Ha), (getRemainingTickets_shared now w st Ha),
      (resetTickets_shared now w st Ha).
    cbn [snd set_redis redis memoryStore].
    split; [split; [| exact Hmem] |].
    { unfold consumeScript, redis_GET, redis_DECR, redis_SETEX.
      destruct (redis_find now (redis st) (getTicketKey w)) as [e|] eqn:He;
        cbn [fmap option_fmap option_map snd].
      - destruct (Z.ltb_spec 0 (rvalue e)); cbn [snd]; [| exact Hredis].
        apply insert_preserves; [exact Hredis |]. cbn [rvalue].
        pose proof (Hredis _ _ (redis_find_lookup _ _ _ _ He)). lia.
      - apply insert_preserves; [exact Hredis |]. cbn [rvalue]. lia. }
    unfold redis_GET, redis_SETEX.
    destruct (redis_find now (redis st) (getTicketKey w)) as [e|] eqn:He;
      cbn [fmap option_fmap option_map fst snd set_redis redis memoryStore].
    + split; [split; assumption |].
      split; [split; [| exact Hmem]; apply insert_preserves; [exact Hredis | cbn [rvalue]; lia] |].
      exists (rvalue e). split; [reflexivity |].
      apply (Hredis _ _ (redis_find_lookup _ _ _ _ He)).
    + split; [split; [| exact Hmem]; apply insert_preserves; [exact Hredis | cbn [rvalue]; lia] |].
      split; [split; [| exact Hmem]; apply insert_preserves; [exact Hredis | cbn [rvalue]; lia] |].
      exists 3. split; [reflexivity | lia].
  - rewrite (consumeTicket_local up now w st Hshared),
      (getRemainingTickets_local up now w st Hshared), (resetTickets_local up now w st Hshared).
    cbn [fst snd set_memory set_available redis memoryStore].
    unfold consumeTicketFromMemory, getTicketsFromMemory, resetTicketsInMemory. cbv zeta.
    destruct (memoryStore st !! getTicketKey w) as [d|] eqn:Hd.
    + pose proof (Hmem _ _ Hd) as Hd3.
      destruct (Z.ltb_spec (expiry d) now); cbn [fst snd];
        [| destruct (Z.ltb_spec 0 (tickets d)); cbn [fst snd]];
        (split; [kept | split; [kept | split; [kept | eexists; split; [reflexivity | lia]]]]).
    + cbn [fst snd].
      split; [kept | split; [kept | split; [kept | eexists; split; [reflexivity | lia]]]].
Qed.

Lemma ticket_counts_within_allowance_witness :
  within_allowance Demo.demo_ledger /\
  within_allowance (snd (consumeTicket true 1000 (js "0xAbC") Demo.demo_ledger)).
Proof.
  assert (Hstart : within_allowance Demo.demo_ledger).
  { unfold within_allowance, Demo.demo_ledger, Demo.demo_redis, Demo.demo_memory, ALLOWANCE.
    cbn [redis memoryStore]. split; intros k x Hk;
      apply lookup_singleton_Some in Hk as [_ <-]; cbn; lia. }
  split; [exact Hstart |].
  apply (ticket_counts_within_allowance true 1000 (js "0xAbC") Demo.demo_ledger Hstart).
Defined.

End TicketFacts.

(* --------------------------------------------------------------------- *)
(** ** The redemption validator                                           *)
(* --------------------------------------------------------------------- *)

Module VaultFacts.
Import Evm Vault.
Local Open Scope N_scope.

Ltac unfold_monad :=
  unfold transaction, nonReentrant, whenNotPaused, whenPaused, onlyOwner, emit, record,
    usdc_balanceOf, usdc_transfer, usdc_transferFrom, checked_add, checked_mul,
    when, modify, gets, revert, mbind, M_bind, bind, mret, M_ret, ret in *.

Local Arguments N.mul : simpl never.
Local Arguments N.add : simpl never.
Local Arguments N.sub : simpl never.
Local Arguments N.ltb : simpl never.
Local Arguments N.eqb : simpl never.
Local Arguments N.of_nat : simpl never.
Local Arguments N.pow : simpl never.

Section Facts.
Context {C : Crypto}.

Lemma _recoverSigner_recovered (voucherHash : N) (signature : list Byte.byte) (s : State) :
  _recoverSigner (ethSignedMessageHashOf voucherHash) signature s =
    match recoveredSigner voucherHash signature with
    | Some a => Ok (a, s)
    | None => Revert InvalidSignature
    end.
Proof.
  unfold _recoverSigner, recoveredSigner. unfold_monad.
  destruct (N.of_nat (length signature) =? 65); reflexivity.
Qed.

Lemma amount_fits (amountCents : N) :
  amountCents <= 100 -> (amountCents * 10000 <? UINT256_LIMIT) = true.
Proof.
  intros H. apply N.ltb_lt.
  apply N.le_lt_trans with (100 * 10000).
  - apply N.mul_le_mono_r. exact H.
  - reflexivity.
Qed.

(** What a [redeem] transaction does, check by check. *)
Lemma run_redeem (msg : Msg) (a r n e : N) (sig : list Byte.byte) (s : State) :
  run msg (CallRedeem a r n e sig) s =
    if _entered s then Revert (ErrorMessage "ReentrancyGuard: reentrant call")
    else if _paused s then Revert (ErrorMessage "Pausable: paused")
    else if e <? timestamp msg then Revert VoucherExpired
    else if negb (r =? sender msg) then Revert RecipientMismatch
    else if (a =? 0) || (100 <? a) then Revert InvalidAmount
    else if isRedeemed s (voucherHashOf (self s) a r n e) then Revert AlreadyRedeemed
    else match recoveredSigner (voucherHashOf (self s) a r n e) sig with
         | None => Revert InvalidSignature
         | Some recovered =>
             if negb (recovered =? signer s) then Revert InvalidSignature
             else if balanceOf (usdc s) (self s) <? a * 10000 then Revert InsufficientFunds
             else if negb (totalRedeemed s + a * 10000 <? UINT256_LIMIT) then Revert (Panic 17)
             else if negb (totalVouchers s + 1 <? UINT256_LIMIT) then Revert (Panic 17)
             else Ok (redeemed_state s a r n e)
         end.
Proof.
  unfold run, dispatch, redeem, _recoverSigner, recoveredSigner, redeemed_state.
  destruct s as [this ua own paused entered sg red tr tv tok hist].
  unfold_monad.
  unfold isRedeemed, token_transfer, with_entered, with_redeemed, with_history,
    with_totalRedeemed, with_totalVouchers, with_usdc. simpl.
  destruct entered; [reflexivity |]. simpl.
  destruct paused; [reflexivity |]. simpl.
  destruct (e <? timestamp msg); [reflexivity |]. simpl.
  destruct (r =? sender msg); [| reflexivity]. simpl.
  destruct ((a =? 0) || (100 <? a)) eqn:Hamount; [reflexivity |]. simpl.
  apply orb_false_elim in Hamount as [_ Hle]. apply N.ltb_ge in Hle.
  destruct (default false (red !! voucherHashOf this a r n e)); [reflexivity |]. simpl.
  destruct (N.of_nat (length sig) =? 65); [| reflexivity]. simpl.
  match goal with |- context [negb (?x =? sg)] => destruct (negb (x =? sg)) end;
    [reflexivity |]. simpl.
  rewrite (amount_fits a Hle). simpl.
  destruct (balanceOf tok this <? a * 10000) eqn:Hbal; [reflexivity |]. simpl.
  destruct (tr + a * 10000 <? UINT256_LIMIT); [| reflexivity]. simpl.
  destruct (tv + 1 <? UINT256_LIMIT); [| reflexivity]. simpl.
  rewrite Hbal. simpl. reflexivity.
Qed.



Lemma redeemed_state_history (s : State) (a r n e : N) :
  history (redeemed_state s a r n e) =
    history s
    ++ [MarkedRedeemed (voucherHashOf (self s) a r n e);
        TokenTransfer (self s) r (a * 10000);
        Emitted (Redeemed r a (a * 10000) n (voucherHashOf (self s) a r n e))].
Proof. unfold redeemed_state; simpl. rewrite <- !app_assoc. reflexivity. Qed.

Lemma isRedeemed_redeemed_state (s : State) (a r n e h : N) :
  isRedeemed (redeemed_state s a r n e) h =
    if decide (voucherHashOf (self s) a r n e = h) then true else isRedeemed s h.
Proof.
  unfold isRedeemed, redeemed_state; simpl. rewrite lookup_insert.
  destruct (decide (voucherHashOf (self s) a r n e = h)); reflexivity.
Qed.

(** A successful [redeem] passed every check. *)
Lemma run_redeem_Ok (msg : Msg) (a r n e : N) (sig : list Byte.byte) (s s' : State) :
  run msg (CallRedeem a r n e sig) s = Ok s' ->
  s' = redeemed_state s a r n e /\
  _entered s = false /\ _paused s = false /\
  timestamp msg <= e /\ r = sender msg /\ 1 <= a <= 100 /\
  isRedeemed s (voucherHashOf (self s) a r n e) = false /\
  recoveredSigner (voucherHashOf (self s) a r n e) sig = Some (signer s) /\
  a * 10000 <= balanceOf (usdc s) (self s).
Proof.
  rewrite run_redeem.
  destruct (_entered s); [discriminate |].
  destruct (_paused s); [discriminate |].
  destruct (N.ltb_spec e (timestamp msg)); [discriminate |].
  destruct (N.eqb_spec r (sender msg)); [| discriminate]. simpl.
  destruct ((a =? 0) || (100 <? a)) eqn:Hamount; [discriminate |].
  apply orb_false_elim in Hamount as [Hz Hle].
  apply N.eqb_neq in Hz. apply N.ltb_ge in Hle.
  destruct (isRedeemed s (voucherHashOf (self s) a r n e)); [discriminate |].
  destruct (recoveredSigner (voucherHashOf (self s) a r n e) sig) as [rec|]; [| discriminate].
  destruct (N.eqb_spec rec (signer s)); [| discriminate]. simpl.
  destruct (N.ltb_spec (balanceOf (usdc s) (self s)) (a * 10000)); [discriminate |].
  destruct (totalRedeemed s + a * 10000 <? UINT256_LIMIT); [| discriminate]. simpl.
  destruct (totalVouchers s + 1 <? UINT256_LIMIT); [| discriminate]. simpl.
  intros [= <-]. subst rec. repeat split; try assumption; try reflexivity. lia.
Qed.

Ltac crunch_call H :=
  unfold run, dispatch, deposit, withdraw, emergencyWithdraw, updateSigner, pause, unpause,
    transferOwnership, renounceOwnership, _transferOwnership, constructor, blank in H;
  unfold_monad;
  unfold token_transfer, token_transferFrom, with_entered, with_redeemed, with_history,
    with_totalRedeemed, with_totalVouchers, with_usdc, with_owner, with_paused,
    with_signer in H;
  simpl in H;
  repeat match type of H with
         | context [if ?b then _ else _] => destruct b; simpl in H
         end;
  try discriminate H.

Ltac close_frame :=
  unfold extends, isRedeemed; simpl;
  repeat split; try reflexivity; try (intros; assumption);
  first [ exists []; rewrite app_nil_r; reflexivity
        | rewrite <- ?app_assoc; eexists; reflexivity ].

(** Every call but [redeem] leaves the consumed flags as they are. *)
Lemma run_other (msg : Msg) (c : Call) (s s' : State) :
  (forall a r n e sig, c <> CallRedeem a r n e sig) ->
  run msg c s = Ok s' ->
  extends s s' /\ redeemed s' = redeemed s.
Proof.
  intros Hc H. destruct s as [this ua own paused entered sg red tr tv tok hist].
  destruct c; try (exfalso; eapply Hc; reflexivity);
    crunch_call H; injection H as <-; (split; [close_frame | reflexivity]).
Qed.

Lemma extends_refl (s : State) : extends s s.
Proof.
  unfold extends. repeat split; try reflexivity; try (intros; assumption).
  exists []. rewrite app_nil_r. reflexivity.
Qed.

Lemma extends_trans (s1 s2 s3 : State) : extends s1 s2 -> extends s2 s3 -> extends s1 s3.
Proof.
  intros (Hs & He & Hr & l1 & Hh) (Hs' & He' & Hr' & l2 & Hh').
  unfold extends. repeat split; try congruence.
  - intros h Hh1. apply Hr', Hr, Hh1.
  - exists (l1 ++ l2). rewrite Hh', Hh, app_assoc. reflexivity.
Qed.

Lemma run_extends (msg : Msg) (c : Call) (s s' : State) :
  run msg c s = Ok s' -> extends s s'.
Proof.
  intros H.
  destruct c as [a r n e sig| | | | | | | |];
    try (eapply run_other; [| exact H]; intros; discriminate).
  apply run_redeem_Ok in H as (-> & Hent & _).
  unfold extends. repeat split.
  - simpl. symmetry. exact Hent.
  - intros h Hh. rewrite isRedeemed_redeemed_state.
    destruct (decide (voucherHashOf (self s) a r n e = h)); [reflexivity | exact Hh].
  - rewrite redeemed_state_history. eexists; reflexivity.
Qed.

Lemma token_op_extends (op : TokenOp) (s : State) :
  extends s (token_op op s) /\ redeemed (token_op op s) = redeemed s.
Proof.
  destruct op; simpl;
    repeat match goal with
           | |- context [if ?b then _ else _] => destruct b
           | |- context [match ?o with Some _ => _ | None => _ end] => destruct o
           end;
    split; try reflexivity; try apply extends_refl; close_frame.
Qed.

Lemma step_extends (st : Step) (s : State) : extends s (step st s).
Proof.
  destruct st as [msg c | op]; simpl.
  - unfold exec. destruct (run msg c s) as [s'|err] eqn:H.
    + eapply run_extends; exact H.
    + apply extends_refl.
  - apply token_op_extends.
Qed.

Lemma steps_extends (l : list Step) (s : State) : extends s (steps l s).
Proof.
  revert s. induction l as [|st l IH]; intros s; simpl.
  - apply extends_refl.
  - eapply extends_trans; [apply step_extends | apply IH].
Qed.

(** Between transactions the reentrancy guard is open. *)
Lemma reachable_not_entered (s : State) : reachable s -> _entered s = false.
Proof.
  induction 1 as [this token msg o sg u s H | s st _ IH].
  - crunch_call H. injection H as <-. reflexivity.
  - destruct (step_extends st s) as (_ & He & _). congruence.
Qed.



(** C2, amended: in every reachable state in which the vault is not
    paused, [redeem] validates fail-fast in this order, and the first
    violated check determines the rejection: (1) [now <= expiry] else
    VoucherExpired, (2) [caller = recipient] else RecipientMismatch,
    (3) [1 <= amountCents <= 100] else InvalidAmount, (4) the recomputed
    Commitment not yet consumed else AlreadyRedeemed, (5) the signer
    recovered from the signature over the Commitment is the configured
    signer else InvalidSignature; when all five pass, none of these
    rejections is returned. *)
Theorem redeem_validation_order (msg : Msg) (a r n e : N) (sig : list Byte.byte) (s : State) :
  reachable s -> _paused s = false ->
  let h := voucherHashOf (self s) a r n e in
  let result := run msg (CallRedeem a r n e sig) s in
  (e < timestamp msg -> result = Revert VoucherExpired) /\
  (timestamp msg <= e -> sender msg <> r -> result = Revert RecipientMismatch) /\
  (timestamp msg <= e -> sender msg = r -> ~ (1 <= a <= 100) ->
     result = Revert InvalidAmount) /\
  (timestamp msg <= e -> sender msg = r -> 1 <= a <= 100 ->
     isRedeemed s h = true -> result = Revert AlreadyRedeemed) /\
  (timestamp msg <= e -> sender msg = r -> 1 <= a <= 100 ->
     isRedeemed s h = false -> recoveredSigner h sig <> Some (signer s) ->
     result = Revert InvalidSignature) /\
  (timestamp msg <= e -> sender msg = r -> 1 <= a <= 100 ->
     isRedeemed s h = false -> recoveredSigner h sig = Some (signer s) ->
     forall err, result = Revert err -> err = InsufficientFunds \/ err = Panic 17).
Proof.
  intros Hreach Hpaused. cbv zeta. rewrite run_redeem.
  rewrite (reachable_not_entered s Hreach), Hpaused.
  destruct (N.ltb_spec e (timestamp msg)) as [Hexp|Hexp];
    [repeat split; intros; try reflexivity; lia |].
  destruct (N.eqb_spec r (sender msg)) as [Hrec|Hrec]; simpl;
    [| repeat split; intros; try reflexivity; try lia; congruence].
  destruct ((a =? 0) || (100 <? a)) eqn:Hamount.
  { apply orb_prop in Hamount as [Hz%N.eqb_eq | Hgt%N.ltb_lt];
      repeat split; intros; try reflexivity; try lia; congruence. }
  apply orb_false_elim in Hamount as [Hz%N.eqb_neq Hle%N.ltb_ge].
  destruct (isRedeemed s (voucherHashOf (self s) a r n e)) eqn:Hflag;
    [repeat split; intros; try reflexivity; try lia; congruence |].
  destruct (recoveredSigner (voucherHashOf (self s) a r n e) sig) as [rec|] eqn:Hsig;
    [| repeat split; intros; try reflexivity; try lia; congruence].
  destruct (N.eqb_spec rec (signer s)) as [Hsg|Hsg]; simpl;
    [| repeat split; intros; try reflexivity; try lia; congruence].
  split; [intros; lia |].
  split; [intros; congruence |].
  split; [intros _ _ Hbad; exfalso; apply Hbad; lia |].
  split; [intros; congruence |].
  split; [intros; congruence |].
  intros _ _ _ _ _ err Herr.
  destruct (balanceOf (usdc s) (self s) <? a * 10000);
    [injection Herr as <-; left; reflexivity |].
  destruct (totalRedeemed s + a * 10000 <? UINT256_LIMIT); simpl in Herr;
    [| injection Herr as <-; right; reflexivity].
  destruct (totalVouchers s + 1 <? UINT256_LIMIT); simpl in Herr;
    [discriminate | injection Herr as <-; right; reflexivity].
Qed.

(** C1, amended: once a [redeem] of a Commitment has succeeded (the
    write of its consumed flag coming before the token transfer), the
    flag stays set whatever happens next, and every later [redeem] that
    recomputes this Commitment, so every one with the same five fields,
    by any caller, at any time and with any signature, is rejected, the
    first gate or check that fails naming the rejection: the message of
    [whenNotPaused] when the vault is paused; else VoucherExpired when
    the time is past the expiry; else RecipientMismatch when the caller
    is not the recipient; else (InvalidAmount for fields with an amount
    outside 1..100, which the redeemed fields do not have, and)
    AlreadyRedeemed. *)
Theorem redeem_exactly_once (msg : Msg) (a r n e : N) (sig : list Byte.byte)
    (s s1 : State) :
  run msg (CallRedeem a r n e sig) s = Ok s1 ->
  let h := voucherHashOf (self s) a r n e in
  isRedeemed s h = false /\ 1 <= a <= 100 /\
  history s1 =
    history s
    ++ [MarkedRedeemed h; TokenTransfer (self s) r (a * 10000);
        Emitted (Redeemed r a (a * 10000) n h)] /\
  forall (later : list Step) (msg' : Msg) (a' r' n' e' : N) (sig' : list Byte.byte),
    let s2 := steps later s1 in
    let again := run msg' (CallRedeem a' r' n' e' sig') s2 in
    voucherHashOf (self s) a' r' n' e' = h ->
    isRedeemed s2 h = true /\
    (exists err, again = Revert err) /\
    (_paused s2 = true -> again = Revert (ErrorMessage "Pausable: paused")) /\
    (_paused s2 = false -> e' < timestamp msg' -> again = Revert VoucherExpired) /\
    (_paused s2 = false -> timestamp msg' <= e' -> sender msg' <> r' ->
       again = Revert RecipientMismatch) /\
    (_paused s2 = false -> timestamp msg' <= e' -> sender msg' = r' -> ~ (1 <= a' <= 100) ->
       again = Revert InvalidAmount) /\
    (_paused s2 = false -> timestamp msg' <= e' -> sender msg' = r' -> 1 <= a' <= 100 ->
       again = Revert AlreadyRedeemed).
Proof.
  intros Hrun. cbv zeta.
  apply run_redeem_Ok in Hrun as (-> & Hent & _ & _ & _ & [Hlo Hhi] & Hfresh & _).
  split; [exact Hfresh |]. split; [split; assumption |].
  split; [apply redeemed_state_history |].
  intros later msg' a' r' n' e' sig' Hsame.
  destruct (steps_extends later (redeemed_state s a r n e)) as (Hself & Hent2 & Hmono & _).
  assert (Hflag : isRedeemed (steps later (redeemed_state s a r n e))
                    (voucherHashOf (self s) a r n e) = true).
  { apply Hmono. rewrite isRedeemed_redeemed_state.
    destruct (decide (voucherHashOf (self s) a r n e = voucherHashOf (self s) a r n e));
      [reflexivity | congruence]. }
  split; [exact Hflag |].
  rewrite run_redeem. rewrite Hent2, Hself. simpl _entered. simpl self.
  rewrite Hsame, Hflag.
  destruct (_paused (steps later (redeemed_state s a r n e)));
    [split; [eexists; reflexivity |]; repeat split; intros; try reflexivity; discriminate |].
  destruct (N.ltb_spec e' (timestamp msg')) as [Hexp|Hexp];
    [split; [eexists; reflexivity |]; repeat split; intros; try reflexivity;
       try discriminate; lia |].
  destruct (N.eqb_spec r' (sender msg')) as [Hrec|Hrec]; cbn [negb];
    [| split; [eexists; reflexivity |]; repeat split; intros; try reflexivity;
         try discriminate; try lia; congruence].
  destruct ((a' =? 0) || (100 <? a')) eqn:Hamount.
  - apply orb_prop in Hamount.
    split; [eexists; reflexivity |]. repeat split; intros; try reflexivity;
      try discriminate; try lia; try congruence.
    destruct Hamount as [Hz%N.eqb_eq | Hgt%N.ltb_lt]; lia.
  - apply orb_false_elim in Hamount as [Hz%N.eqb_neq Hle%N.ltb_ge].
    split; [eexists; reflexivity |]. repeat split; intros; try reflexivity;
      try discriminate; try lia; congruence.
Qed.

Lemma balanceOf_move (t : Token) (from to amount account : N) :
  balanceOf (move t from to amount) account =
    if decide (account = to) then
      (if decide (to = from) then balanceOf t from - amount else balanceOf t to) + amount
    else if decide (account = from) then balanceOf t from - amount
    else balanceOf t account.
Proof.
  unfold balanceOf, move. cbn [balances].
  destruct (decide (account = to)) as [->|Hto].
  - rewrite lookup_insert_eq. cbn [default].
    destruct (decide (to = from)) as [->|Hfrom].
    + rewrite lookup_insert_eq. reflexivity.
    + rewrite lookup_insert_ne by congruence. reflexivity.
  - rewrite lookup_insert_ne by congruence.
    destruct (decide (account = from)) as [->|Hfrom].
    + rewrite lookup_insert_eq. reflexivity.
    + rewrite lookup_insert_ne by congruence. reflexivity.
Qed.





(** *** The administrative calls, check by check *)

Lemma onlyOwner_rejects (msg : Msg) (body : M unit) (s : State) :
  sender msg <> _owner s ->
  onlyOwner msg body s = Revert (ErrorMessage "Ownable: caller is not the owner").
Proof.
  intros Hne. unfold_monad.
  destruct (N.eqb_spec (_owner s) (sender msg)); [congruence | reflexivity].
Qed.

Lemma run_deposit (msg : Msg) (amount : N) (s : State) :
  run msg (CallDeposit amount) s =
    if amount =? 0 then Revert InvalidAmount
    else match token_transferFrom (usdc s) (self s) (sender msg) (self s) amount with
         | None => Revert TokenReverted
         | Some t =>
             Ok (with_history
                   ((history s ++ [TokenTransfer (sender msg) (self s) amount])
                      ++ [Emitted (FundsDeposited (sender msg) amount)])
                   (with_usdc t s))
         end.
Proof.
  unfold run, dispatch, deposit. destruct s as [this ua own paused entered sg red tr tv tok hist].
  unfold_monad. simpl.
  destruct (amount =? 0); [reflexivity |]. simpl.
  destruct (token_transferFrom tok this (sender msg) this amount); reflexivity.
Qed.

Lemma run_withdraw (msg : Msg) (amount recipient : N) (s : State) :
  run msg (CallWithdraw amount recipient) s =
    if negb (_owner s =? sender msg)
    then Revert (ErrorMessage "Ownable: caller is not the owner")
    else if amount =? 0 then Revert InvalidAmount
    else if recipient =? 0 then Revert ZeroAddress
    else if balanceOf (usdc s) (self s) <? amount then Revert TokenReverted
    else Ok (with_history
               ((history s ++ [TokenTransfer (self s) recipient amount])
                  ++ [Emitted (FundsWithdrawn recipient amount)])
               (with_usdc (move (usdc s) (self s) recipient amount) s)).
Proof.
  unfold run, dispatch, withdraw. destruct s as [this ua own paused entered sg red tr tv tok hist].
  unfold_monad. unfold token_transfer. simpl.
  destruct (own =? sender msg); [| reflexivity]. simpl.
  destruct (amount =? 0); [reflexivity |]. simpl.
  destruct (recipient =? 0); [reflexivity |]. simpl.
  destruct (balanceOf tok this <? amount); reflexivity.
Qed.

Lemma run_emergencyWithdraw (msg : Msg) (recipient : N) (s : State) :
  run msg (CallEmergencyWithdraw recipient) s =
    if negb (_owner s =? sender msg)
    then Revert (ErrorMessage "Ownable: caller is not the owner")
    else if recipient =? 0 then Revert ZeroAddress
    else if 0 <? balanceOf (usdc s) (self s) then
      Ok (with_history
            ((history s ++ [TokenTransfer (self s) recipient (balanceOf (usdc s) (self s))])
               ++ [Emitted (FundsWithdrawn recipient (balanceOf (usdc s) (self s)))])
            (with_usdc (move (usdc s) (self s) recipient (balanceOf (usdc s) (self s))) s))
    else Ok s.
Proof.
  unfold run, dispatch, emergencyWithdraw.
  destruct s as [this ua own paused entered sg red tr tv tok hist].
  unfold_monad. unfold token_transfer. simpl.
  destruct (own =? sender msg); [| reflexivity]. simpl.
  destruct (recipient =? 0); [reflexivity |]. simpl.
  destruct (0 <? balanceOf tok this); [| reflexivity]. simpl.
  rewrite N.ltb_irrefl. reflexivity.
Qed.

Lemma run_updateSigner (msg : Msg) (newSigner : N) (s : State) :
  run msg (CallUpdateSigner newSigner) s =
    if negb (_owner s =? sender msg)
    then Revert (ErrorMessage "Ownable: caller is not the owner")
    else if newSigner =? 0 then Revert ZeroAddress
    else Ok (with_history (history s ++ [Emitted (SignerUpdated (signer s) newSigner)])
               (with_signer newSigner s)).
Proof.
  unfold run, dispatch, updateSigner.
  destruct s as [this ua own paused entered sg red tr tv tok hist].
  unfold_monad. simpl.
  destruct (own =? sender msg); [| reflexivity]. simpl.
  destruct (newSigner =? 0); reflexivity.
Qed.

Lemma run_pause (msg : Msg) (s : State) :
  run msg CallPause s =
    if negb (_owner s =? sender msg)
    then Revert (ErrorMessage "Ownable: caller is not the owner")
    else if _paused s then Revert (ErrorMessage "Pausable: paused")
    else Ok (with_history (history s ++ [Emitted (Paused (sender msg))]) (with_paused true s)).
Proof.
  unfold run, dispatch, pause.
  destruct s as [this ua own paused entered sg red tr tv tok hist].
  unfold_monad. simpl.
  destruct (own =? sender msg); [| reflexivity]. simpl.
  destruct paused; reflexivity.
Qed.

Lemma run_unpause (msg : Msg) (s : State) :
  run msg CallUnpause s =
    if negb (_owner s =? sender msg)
    then Revert (ErrorMessage "Ownable: caller is not the owner")
    else if _paused s
    then Ok (with_history (history s ++ [Emitted (Unpaused (sender msg))]) (with_paused false s))
    else Revert (ErrorMessage "Pausable: not paused").
Proof.
  unfold run, dispatch, unpause.
  destruct s as [this ua own paused entered sg red tr tv tok hist].
  unfold_monad. simpl.
  destruct (own =? sender msg); [| reflexivity]. simpl.
  destruct paused; reflexivity.
Qed.

(** X13: [withdraw], [emergencyWithdraw], [updateSigner], [pause] and
    [unpause] (and the inherited transfers of ownership) are for the
    owner alone: called by anyone else, each of them reverts with the
    message of [onlyOwner] and leaves the state as it was. *)
Theorem admin_calls_owner_only (msg : Msg) (c : Call) (s : State) :
  sender msg <> _owner s ->
  (forall a r n e sig, c <> CallRedeem a r n e sig) ->
  (forall amount, c <> CallDeposit amount) ->
  run msg c s = Revert (ErrorMessage "Ownable: caller is not the owner") /\
  exec msg c s = s.
Proof.
  intros Hne Hredeem Hdeposit.
  assert (Hrun : run msg c s = Revert (ErrorMessage "Ownable: caller is not the owner")).
  { destruct c;
      try (exfalso; eapply Hredeem; reflexivity); try (exfalso; eapply Hdeposit; reflexivity);
      unfold run, transaction, dispatch, withdraw, emergencyWithdraw, updateSigner, pause,
        unpause, transferOwnership, renounceOwnership;
      rewrite onlyOwner_rejects by exact Hne; reflexivity. }
  split; [exact Hrun |]. unfold exec. rewrite Hrun. reflexivity.
Qed.

(** *** The reserve *)

(** X14: what a caller other than the owner can do to the vault: a
    transaction of theirs that succeeds is a [redeem] or a [deposit]; it
    leaves the owner, the signer and the pause switch as they were, and
    takes at most 1000000 token units (one dollar) out of the reserve. *)
Theorem non_owner_cannot_administer (msg : Msg) (c : Call) (s s' : State) :
  sender msg <> _owner s -> run msg c s = Ok s' ->
  ((exists a r n e sig, c = CallRedeem a r n e sig) \/ (exists amount, c = CallDeposit amount)) /\
  _owner s' = _owner s /\ signer s' = signer s /\ _paused s' = _paused s /\
  self s' = self s /\
  balanceOf (usdc s) (self s) <= balanceOf (usdc s') (self s') + 1000000.
Proof.
  intros Hne Hrun.
  destruct c as [a r n e sig | amount | | | | | | |];
    try (unfold run, transaction, dispatch, withdraw, emergencyWithdraw, updateSigner, pause,
           unpause, transferOwnership, renounceOwnership in Hrun;
         rewrite onlyOwner_rejects in Hrun by exact Hne; discriminate Hrun).
  - split; [left; repeat eexists |].
    apply run_redeem_Ok in Hrun as (-> & _ & _ & _ & _ & [_ Hhi] & _ & _ & Hbal).
    cbn [redeemed_state _owner signer _paused self usdc].
    repeat split. rewrite balanceOf_move.
    assert (Hamt : a * 10000 <= 1000000).
    { change 1000000 with (100 * 10000). apply N.mul_le_mono_r. exact Hhi. }
    repeat match goal with |- context [decide ?P] => destruct (decide P) end;
      try congruence; lia.
  - split; [right; eexists; reflexivity |].
    rewrite run_deposit in Hrun.
    destruct (amount =? 0); [discriminate |].
    unfold token_transferFrom in Hrun.
    destruct (allowance (usdc s) (sender msg) (self s) <? amount); [discriminate |].
    destruct (balanceOf (usdc s) (sender msg) <? amount); [discriminate |].
    injection Hrun as <-.
    cbn [with_history with_usdc _owner signer _paused self usdc].
    repeat split.
    unfold balanceOf at 2. cbn [balances]. rewrite lookup_insert_eq. cbn [default].
    destruct (decide (sender msg = self s)) as [Hself|Hother].
    + rewrite Hself, lookup_insert_eq. cbn [default]. unfold id. lia.
    + rewrite lookup_insert_ne by exact Hother. unfold balanceOf, id. lia.
Qed.

(** X15: pausing stops [redeem] and nothing else: in every reachable
    paused state each [redeem] reverts with the message of
    [whenNotPaused], a second [pause] reverts, while the owner can still
    withdraw from the reserve and can lift the pause. *)
Theorem paused_vault_blocks_redeem_only (msg : Msg) (s : State) :
  reachable s -> _paused s = true ->
  (forall a r n e sig,
     run msg (CallRedeem a r n e sig) s = Revert (ErrorMessage "Pausable: paused")) /\
  (sender msg = _owner s ->
     run msg CallPause s = Revert (ErrorMessage "Pausable: paused") /\
     (forall amount recipient,
        amount <> 0 -> recipient <> 0 -> amount <= balanceOf (usdc s) (self s) ->
        exists s', run msg (CallWithdraw amount recipient) s = Ok s' /\
                   usdc s' = move (usdc s) (self s) recipient amount /\ _paused s' = true) /\
     exists s', run msg CallUnpause s = Ok s' /\ _paused s' = false /\ usdc s' = usdc s).
Proof.
  intros Hreach Hpaused. split.
  - intros a r n e sig. rewrite run_redeem, (reachable_not_entered s Hreach), Hpaused.
    reflexivity.
  - intros Howner.
    assert (Hown : negb (_owner s =? sender msg) = false).
    { rewrite Howner, N.eqb_refl. reflexivity. }
    split; [rewrite run_pause, Hown, Hpaused; reflexivity |]. split.
    + intros amount recipient Hamount Hrecipient Hbal.
      rewrite run_withdraw, Hown.
      destruct (N.eqb_spec amount 0); [congruence |].
      destruct (N.eqb_spec recipient 0); [congruence |].
      destruct (N.ltb_spec (balanceOf (usdc s) (self s)) amount); [lia |].
      eexists. split; [reflexivity |]. split; [reflexivity | exact Hpaused].
    + rewrite run_unpause, Hown, Hpaused. eexists. repeat split.
Qed.

(** *** What the other calls leave alone *)

Lemma redeemedAmounts_app (l l' : list Effect) :
  redeemedAmounts (l ++ l') = redeemedAmounts l ++ redeemedAmounts l'.
Proof.
  induction l as [|eff l IH]; [reflexivity |].
  destruct eff as [h | from to amount | ev]; simpl; try exact IH.
  destruct ev; simpl; rewrite ?IH; reflexivity.
Qed.

Lemma run_other_statistics (msg : Msg) (c : Call) (s s' : State) :
  (forall a r n e sig, c <> CallRedeem a r n e sig) ->
  run msg c s = Ok s' ->
  totalRedeemed s' = totalRedeemed s /\ totalVouchers s' = totalVouchers s /\
  redeemedAmounts (history s') = redeemedAmounts (history s) /\
  (signer s' = signer s \/ signer s' <> 0).
Proof.
  intros Hc H.
  destruct (match c with CallUpdateSigner _ => true | _ => false end) eqn:Hupdate.
  - destruct c; try discriminate Hupdate. rewrite run_updateSigner in H.
    destruct (negb (_owner s =? sender msg)); [discriminate |].
    destruct (N.eqb_spec newSigner 0) as [|Hnz]; [discriminate |].
    injection H as <-. cbn [with_history with_signer totalRedeemed totalVouchers history signer].
    rewrite redeemedAmounts_app. cbn [redeemedAmounts]. rewrite app_nil_r.
    repeat split. right. exact Hnz.
  - destruct s as [this ua own paused entered sg red tr tv tok hist].
    destruct c; try (exfalso; eapply Hc; reflexivity); try discriminate Hupdate;
      crunch_call H; injection H as <-;
      cbn [totalRedeemed totalVouchers history signer];
      rewrite <- ?app_assoc, ?redeemedAmounts_app; cbn [redeemedAmounts app];
      rewrite ?app_nil_r; repeat split; left; reflexivity.
Qed.

Lemma token_op_frame (op : TokenOp) (s : State) :
  signer (token_op op s) = signer s /\ totalRedeemed (token_op op s) = totalRedeemed s /\
  totalVouchers (token_op op s) = totalVouchers s /\ history (token_op op s) = history s.
Proof.
  destruct op; simpl;
    repeat match goal with
           | |- context [if ?b then _ else _] => destruct b
           | |- context [match ?o with Some _ => _ | None => _ end] => destruct o
           end;
    repeat split.
Qed.

(** X16: the signer of a deployed vault is never the zero address,
    whatever calls were made; so a signature from which [ecrecover]
    recovers nothing (the zero address) never redeems. *)
Theorem reachable_signer_nonzero (s : State) :
  reachable s ->
  signer s <> 0 /\
  forall (msg : Msg) (a r n e : N) (sig : list Byte.byte),
    recoveredSigner (voucherHashOf (self s) a r n e) sig = Some 0 ->
    exists err, run msg (CallRedeem a r n e sig) s = Revert err.
Proof.
  intros Hreach.
  assert (Hsigner : signer s <> 0).
  { induction Hreach as [this token msg o sg u s H | s st _ IH].
    - unfold transaction, constructor, _transferOwnership, blank in H. unfold_monad.
      simpl in H. destruct ((o =? 0) || (sg =? 0) || (u =? 0)) eqn:Hzero; [discriminate |].
      simpl in H. injection H as <-. simpl.
      apply orb_false_elim in Hzero as [Hzero _]. apply orb_false_elim in Hzero as [_ Hsg].
      apply N.eqb_neq. exact Hsg.
    - destruct st as [msg c | op]; simpl.
      + unfold exec. destruct (run msg c s) as [s'|err] eqn:Hrun; [| exact IH].
        destruct c as [a r n e sig| | | | | | | |];
          try (match type of Hrun with
               | run _ ?c _ = _ =>
                   destruct (run_other_statistics msg c s s' ltac:(intros; discriminate) Hrun)
                     as (_ & _ & _ & [-> | Hnz]); [exact IH | exact Hnz]
               end).
        apply run_redeem_Ok in Hrun as [-> _]. exact IH.
      + destruct (token_op_frame op s) as [-> _]. exact IH. }
  split; [exact Hsigner |].
  intros msg a r n e sig Hzero. rewrite run_redeem, Hzero.
  destruct (_entered s); [eexists; reflexivity |].
  destruct (_paused s); [eexists; reflexivity |].
  destruct (e <? timestamp msg); [eexists; reflexivity |].
  destruct (negb (r =? sender msg)); [eexists; reflexivity |].
  destruct ((a =? 0) || (100 <? a)); [eexists; reflexivity |].
  destruct (isRedeemed s (voucherHashOf (self s) a r n e)); [eexists; reflexivity |].
  destruct (N.eqb_spec 0 (signer s)) as [Heq|_]; [congruence |].
  eexists; reflexivity.
Qed.

(** *** The statistics *)

Lemma sum_snoc (l : list N) (x : N) : fold_right N.add 0 (l ++ [x]) = fold_right N.add 0 l + x.
Proof. induction l as [|y l IH]; simpl; [lia | rewrite IH; lia]. Qed.

Lemma sum_bounds (l : list N) :
  Forall (fun amount => 10000 <= amount <= 1000000) l ->
  10000 * N.of_nat (length l) <= fold_right N.add 0 l <= 1000000 * N.of_nat (length l).
Proof.
  induction 1 as [|x l Hx _ IH]; [simpl; lia |].
  cbn [length fold_right]. rewrite Nat2N.inj_succ. lia.
Qed.

Lemma reachable_statistics (s : State) :
  reachable s ->
  totalVouchers s = N.of_nat (length (redeemedAmounts (history s))) /\
  totalRedeemed s = fold_right N.add 0 (redeemedAmounts (history s)) /\
  Forall (fun amount => 10000 <= amount <= 1000000) (redeemedAmounts (history s)).
Proof.
  induction 1 as [this token msg o sg u s H | s st _ IH].
  - crunch_call H. injection H as <-. simpl. repeat split. constructor.
  - destruct IH as (IHcount & IHsum & IHall).
    destruct st as [msg c | op]; simpl.
    + unfold exec. destruct (run msg c s) as [s'|err] eqn:Hrun; [| repeat split; assumption].
      destruct c as [a r n e sig| | | | | | | |];
        try (match type of Hrun with
             | run _ ?c _ = _ =>
                 destruct (run_other_statistics msg c s s' ltac:(intros; discriminate) Hrun)
                   as (-> & -> & -> & _); repeat split; assumption
             end).
      apply run_redeem_Ok in Hrun as (-> & _ & _ & _ & _ & [Hlo Hhi] & _).
      rewrite redeemed_state_history, redeemedAmounts_app.
      cbn [redeemedAmounts redeemed_state totalVouchers totalRedeemed].
      rewrite length_app, sum_snoc, Nat2N.inj_add. cbn [length].
      split; [rewrite IHcount; reflexivity |]. split; [rewrite IHsum; reflexivity |].
      apply Forall_app. split; [exact IHall |]. constructor; [| constructor].
      split; [| change 1000000 with (100 * 10000); apply N.mul_le_mono_r; exact Hhi].
      change 10000 with (1 * 10000) at 1. apply N.mul_le_mono_r. exact Hlo.
    + destruct (token_op_frame op s) as (_ & -> & -> & ->). repeat split; assumption.
Qed.

(** X17: the statistics of a deployed vault count its redemptions:
    [totalVouchers] is the number of [Redeemed] events emitted so far and
    [totalRedeemed] the sum of their token amounts, each of which lies
    between 10000 and 1000000 units (one cent and one dollar); [getStats]
    returns these two counters with the reserve balance and changes
    nothing. *)
Theorem statistics_count_redemptions (s : State) :
  reachable s ->
  totalVouchers s = N.of_nat (length (redeemedAmounts (history s))) /\
  totalRedeemed s = fold_right N.add 0 (redeemedAmounts (history s)) /\
  Forall (fun amount => 10000 <= amount <= 1000000) (redeemedAmounts (history s)) /\
  10000 * totalVouchers s <= totalRedeemed s <= 1000000 * totalVouchers s /\
  getStats s = Ok ((balanceOf (usdc s) (self s), totalRedeemed s, totalVouchers s), s).
Proof.
  intros Hreach. destruct (reachable_statistics s Hreach) as (Hcount & Hsum & Hall).
  split; [exact Hcount |]. split; [exact Hsum |]. split; [exact Hall |]. split.
  - rewrite Hcount, Hsum. apply sum_bounds. exact Hall.
  - unfold getStats. unfold_monad. reflexivity.
Qed.

(** X18: [emergencyWithdraw] by the owner to a recipient other than the
    zero address and the vault itself always succeeds, paused or not: it
    moves the whole reserve to the recipient, leaves the vault's balance
    at 0 and the consumed flags as they were, and records a withdrawal
    only when there was something to withdraw. *)
Theorem emergencyWithdraw_empties_vault (msg : Msg) (recipient : N) (s : State) :
  sender msg = _owner s -> recipient <> 0 -> recipient <> self s ->
  exists s',
    run msg (CallEmergencyWithdraw recipient) s = Ok s' /\
    balanceOf (usdc s') (self s') = 0 /\
    balanceOf (usdc s') recipient
      = balanceOf (usdc s) recipient + balanceOf (usdc s) (self s) /\
    redeemed s' = redeemed s /\ _paused s' = _paused s /\
    (balanceOf (usdc s) (self s) = 0 -> s' = s) /\
    (0 < balanceOf (usdc s) (self s) ->
       history s' =
         history s
         ++ [TokenTransfer (self s) recipient (balanceOf (usdc s) (self s));
             Emitted (FundsWithdrawn recipient (balanceOf (usdc s) (self s)))]).
Proof.
  intros Howner Hrecipient Hself. rewrite run_emergencyWithdraw.
  rewrite Howner, N.eqb_refl. cbn [negb].
  destruct (N.eqb_spec recipient 0); [congruence |].
  destruct (N.ltb_spec 0 (balanceOf (usdc s) (self s))) as [Hpos|Hzero].
  - eexists. split; [reflexivity |].
    cbn [with_history with_usdc usdc self redeemed _paused history].
    rewrite !balanceOf_move.
    repeat match goal with |- context [decide ?P] => destruct (decide P) end;
      try congruence.
    repeat split; try lia. intros _. rewrite <- app_assoc. reflexivity.
  - exists s. split; [reflexivity |]. repeat split; intros; lia.
Qed.

(** X19: rotating the signer invalidates the vouchers of the old one:
    [updateSigner] succeeds for the owner alone and with a non-zero
    address only, and after it a voucher signed by the old signer is no
    longer paid; when it passes the checks that come first, it is
    rejected with InvalidSignature. *)
Theorem updateSigner_invalidates_outstanding (msg msg' : Msg) (newSigner a r n e : N)
    (sig : list Byte.byte) (s s' : State) :
  run msg (CallUpdateSigner newSigner) s = Ok s' ->
  newSigner <> signer s ->
  recoveredSigner (voucherHashOf (self s) a r n e) sig = Some (signer s) ->
  sender msg = _owner s /\ newSigner <> 0 /\ signer s' = newSigner /\
  (exists err, run msg' (CallRedeem a r n e sig) s' = Revert err) /\
  (_entered s = false -> _paused s = false ->
   timestamp msg' <= e -> sender msg' = r -> 1 <= a <= 100 ->
   isRedeemed s (voucherHashOf (self s) a r n e) = false ->
   run msg' (CallRedeem a r n e sig) s' = Revert InvalidSignature).
Proof.
  intros Hrun Hnew Hsig. rewrite run_updateSigner in Hrun.
  destruct (N.eqb_spec (_owner s) (sender msg)) as [Howner|]; [| discriminate].
  destruct (N.eqb_spec newSigner 0) as [|Hnz]; [discriminate |].
  cbn [negb] in Hrun. injection Hrun as <-.
  split; [symmetry; exact Howner |]. split; [exact Hnz |]. split; [reflexivity |].
  rewrite run_redeem.
  cbn [with_history with_signer _entered _paused self signer usdc totalRedeemed totalVouchers].
  change (isRedeemed (with_history ?h (with_signer newSigner s)) ?x) with (isRedeemed s x).
  rewrite Hsig.
  destruct (N.eqb_spec (signer s) newSigner) as [Heq|_]; [congruence |]. cbn [negb].
  split.
  - destruct (_entered s); [eexists; reflexivity |].
    destruct (_paused s); [eexists; reflexivity |].
    destruct (e <? timestamp msg'); [eexists; reflexivity |].
    destruct (negb (r =? sender msg')); [eexists; reflexivity |].
    destruct ((a =? 0) || (100 <? a)); [eexists; reflexivity |].
    destruct (isRedeemed s (voucherHashOf (self s) a r n e)); eexists; reflexivity.
  - intros -> -> Hexp <- [Hlo Hhi] ->.
    destruct (N.ltb_spec e (timestamp msg')); [lia |].
    rewrite N.eqb_refl. cbn [negb].
    replace ((a =? 0) || (100 <? a)) with false; [reflexivity |].
    symmetry. apply orb_false_intro; [apply N.eqb_neq; lia | apply N.ltb_ge; lia].
Qed.

(** X20: [isVoucherRedeemed] reads the consumed flag of the Commitment
    [redeem] would recompute and changes nothing; when it answers true,
    no [redeem] of these fields succeeds, and a [redeem] that succeeds
    takes its answer from false to true. *)
Theorem isVoucherRedeemed_tracks_redeem (msg : Msg) (a r n e : N) (sig : list Byte.byte)
    (s : State) :
  isVoucherRedeemed a r n e s = Ok (isRedeemed s (voucherHashOf (self s) a r n e), s) /\
  (isVoucherRedeemed a r n e s = Ok (true, s) ->
   exists err, run msg (CallRedeem a r n e sig) s = Revert err) /\
  (forall s', run msg (CallRedeem a r n e sig) s = Ok s' ->
     isVoucherRedeemed a r n e s = Ok (false, s) /\
     isVoucherRedeemed a r n e s' = Ok (true, s')).
Proof.
  assert (Hview : forall st, isVoucherRedeemed a r n e st
                             = Ok (isRedeemed st (voucherHashOf (self st) a r n e), st)).
  { intros st. unfold isVoucherRedeemed. unfold_monad. reflexivity. }
  split; [apply Hview |]. split.
  - rewrite Hview. intros [= Hflag]. rewrite run_redeem, Hflag.
    destruct (_entered s); [eexists; reflexivity |].
    destruct (_paused s); [eexists; reflexivity |].
    destruct (e <? timestamp msg); [eexists; reflexivity |].
    destruct (negb (r =? sender msg)); [eexists; reflexivity |].
    destruct ((a =? 0) || (100 <? a)); eexists; reflexivity.
  - intros s' Hrun. rewrite !Hview.
    apply run_redeem_Ok in Hrun as (-> & _ & _ & _ & _ & _ & Hfresh & _).
    rewrite Hfresh. split; [reflexivity |].
    cbn [redeemed_state self]. rewrite isRedeemed_redeemed_state.
    destruct (decide (voucherHashOf (self s) a r n e = voucherHashOf (self s) a r n e));
      [reflexivity | congruence].
Qed.

End Facts.

(** *** The demo vault *)
Import Demo.

Lemma demo_vault_reachable : reachable (C := demo_crypto) demo_vault.
Proof.
  eapply (reachable_deployed vault_address demo_token
            {| sender := vault_owner; timestamp := 100 |}
            vault_owner (issuer_key mod 2 ^ 160) 9).
  vm_compute. reflexivity.
Qed.

(** C1 as stated fails once the voucher has expired: the first [redeem]
    succeeds, the same call after the expiry is rejected with
    VoucherExpired, not with AlreadyRedeemed. *)
Lemma redeem_again_after_expiry_VoucherExpired :
  let s1 := exec (C := demo_crypto) in_time demo_redeem demo_vault in
  run (C := demo_crypto) in_time demo_redeem demo_vault = Ok s1 /\
  run (C := demo_crypto) too_late demo_redeem s1 = Revert VoucherExpired /\
  run (C := demo_crypto) too_late demo_redeem s1 <> Revert AlreadyRedeemed.
Proof.
  cbv zeta. split; [vm_compute; reflexivity |].
  split; [vm_compute; reflexivity | vm_compute; discriminate].
Qed.

Lemma redeem_exactly_once_witness :
  run (C := demo_crypto) in_time demo_redeem demo_vault
    = Ok (exec (C := demo_crypto) in_time demo_redeem demo_vault) /\
  run (C := demo_crypto) in_time demo_redeem
      (steps (C := demo_crypto) [VaultTx by_owner CallPause; VaultTx by_owner CallUnpause]
         (exec (C := demo_crypto) in_time demo_redeem demo_vault))
    = Revert AlreadyRedeemed /\
  run (C := demo_crypto) too_late demo_redeem
      (steps (C := demo_crypto) []
         (exec (C := demo_crypto) in_time demo_redeem demo_vault))
    = Revert VoucherExpired.
Proof.
  assert (Hrun : run (C := demo_crypto) in_time demo_redeem demo_vault
                 = Ok (exec (C := demo_crypto) in_time demo_redeem demo_vault))
    by (vm_compute; reflexivity).
  split; [exact Hrun |].
  destruct (redeem_exactly_once (C := demo_crypto) in_time 50 holder 1 2000
              demo_signature demo_vault _ Hrun) as (_ & _ & _ & Hlater).
  split.
  - destruct (Hlater [VaultTx by_owner CallPause; VaultTx by_owner CallUnpause]
                in_time 50 holder 1 2000 demo_signature eq_refl)
      as (_ & _ & _ & _ & _ & _ & Hagain).
    apply Hagain.
    + vm_compute. reflexivity.
    + vm_compute. discriminate.
    + reflexivity.
    + split; vm_compute; discriminate.
  - destruct (Hlater [] too_late 50 holder 1 2000 demo_signature eq_refl)
      as (_ & _ & _ & Hexpired & _).
    apply Hexpired.
    + vm_compute. reflexivity.
    + vm_compute. reflexivity.
Defined.

(** C2 as stated fails on a paused vault: an expired voucher is rejected
    by the pause gate, which comes before the expiry check. *)
Lemma redeem_paused_not_VoucherExpired :
  let paused_vault := exec (C := demo_crypto) by_owner CallPause demo_vault in
  _paused paused_vault = true /\
  run (C := demo_crypto) too_late demo_redeem paused_vault
    = Revert (ErrorMessage "Pausable: paused") /\
  run (C := demo_crypto) too_late demo_redeem paused_vault <> Revert VoucherExpired.
Proof.
  cbv zeta. split; [vm_compute; reflexivity |].
  split; [vm_compute; reflexivity | vm_compute; discriminate].
Qed.

Lemma redeem_validation_order_witness :
  reachable (C := demo_crypto) demo_vault /\ _paused demo_vault = false /\
  run (C := demo_crypto) too_late demo_redeem demo_vault = Revert VoucherExpired.
Proof.
  split; [exact demo_vault_reachable |]. split; [reflexivity |].
  apply (redeem_validation_order (C := demo_crypto) too_late 50 holder 1 2000
           demo_signature demo_vault demo_vault_reachable eq_refl).
  vm_compute. reflexivity.
Defined.


(** *** The administrative calls on the demo vault *)

Lemma admin_calls_owner_only_witness :
  sender in_time <> _owner demo_vault /\
  run (C := demo_crypto) in_time (CallWithdraw 5000000 holder) demo_vault
    = Revert (ErrorMessage "Ownable: caller is not the owner").
Proof.
  assert (Hne : sender in_time <> _owner demo_vault) by (vm_compute; discriminate).
  split; [exact Hne |].
  destruct (admin_calls_owner_only (C := demo_crypto) in_time (CallWithdraw 5000000 holder)
              demo_vault Hne) as [Hrun _].
  - intros; discriminate.
  - intros; discriminate.
  - exact Hrun.
Defined.

Lemma non_owner_cannot_administer_witness :
  sender in_time <> _owner demo_vault /\
  signer (exec (C := demo_crypto) in_time demo_redeem demo_vault) = signer demo_vault /\
  balanceOf (usdc demo_vault) (self demo_vault)
    <= balanceOf (usdc (exec (C := demo_crypto) in_time demo_redeem demo_vault))
         (self (exec (C := demo_crypto) in_time demo_redeem demo_vault)) + 1000000.
Proof.
  assert (Hne : sender in_time <> _owner demo_vault) by (vm_compute; discriminate).
  assert (Hrun : run (C := demo_crypto) in_time demo_redeem demo_vault
                 = Ok (exec (C := demo_crypto) in_time demo_redeem demo_vault))
    by (vm_compute; reflexivity).
  split; [exact Hne |].
  destruct (non_owner_cannot_administer (C := demo_crypto) in_time demo_redeem demo_vault _
              Hne Hrun) as (_ & _ & Hsigner & _ & _ & Hreserve).
  split; [exact Hsigner | exact Hreserve].
Defined.

Lemma paused_vault_blocks_redeem_only_witness :
  reachable (C := demo_crypto) (exec (C := demo_crypto) by_owner CallPause demo_vault) /\
  _paused (exec (C := demo_crypto) by_owner CallPause demo_vault) = true /\
  run (C := demo_crypto) in_time demo_redeem
      (exec (C := demo_crypto) by_owner CallPause demo_vault)
    = Revert (ErrorMessage "Pausable: paused").
Proof.
  assert (Hreach : reachable (C := demo_crypto)
                     (exec (C := demo_crypto) by_owner CallPause demo_vault)).
  { apply (reachable_step (C := demo_crypto) demo_vault (VaultTx by_owner CallPause)).
    exact demo_vault_reachable. }
  assert (Hpaused : _paused (exec (C := demo_crypto) by_owner CallPause demo_vault) = true)
    by (vm_compute; reflexivity).
  split; [exact Hreach |]. split; [exact Hpaused |].
  destruct (paused_vault_blocks_redeem_only (C := demo_crypto) in_time _ Hreach Hpaused)
    as [Hredeem _].
  apply Hredeem.
Defined.

Lemma reachable_signer_nonzero_witness :
  reachable (C := demo_crypto) demo_vault /\ signer demo_vault <> 0.
Proof.
  split; [exact demo_vault_reachable |].
  destruct (reachable_signer_nonzero (C := demo_crypto) demo_vault demo_vault_reachable)
    as [Hsigner _].
  exact Hsigner.
Defined.

Lemma statistics_count_redemptions_witness :
  reachable (C := demo_crypto) (exec (C := demo_crypto) in_time demo_redeem demo_vault) /\
  10000 * totalVouchers (exec (C := demo_crypto) in_time demo_redeem demo_vault)
    <= totalRedeemed (exec (C := demo_crypto) in_time demo_redeem demo_vault).
Proof.
  assert (Hreach : reachable (C := demo_crypto)
                     (exec (C := demo_crypto) in_time demo_redeem demo_vault)).
  { apply (reachable_step (C := demo_crypto) demo_vault (VaultTx in_time demo_redeem)).
    exact demo_vault_reachable. }
  split; [exact Hreach |].
  destruct (statistics_count_redemptions (C := demo_crypto) _ Hreach)
    as (_ & _ & _ & [Hlow _] & _).
  exact Hlow.
Defined.

Lemma emergencyWithdraw_empties_vault_witness :
  exists s',
    run (C := demo_crypto) by_owner (CallEmergencyWithdraw holder) demo_vault = Ok s' /\
    balanceOf (usdc s') (self s') = 0.
Proof.
  destruct (emergencyWithdraw_empties_vault (C := demo_crypto) by_owner holder demo_vault)
    as (s' & Hrun & Hzero & _).
  - reflexivity.
  - vm_compute. discriminate.
  - vm_compute. discriminate.
  - exists s'. split; [exact Hrun | exact Hzero].
Defined.

Lemma updateSigner_invalidates_outstanding_witness :
  run (C := demo_crypto) by_owner (CallUpdateSigner 99) demo_vault
    = Ok (exec (C := demo_crypto) by_owner (CallUpdateSigner 99) demo_vault) /\
  run (C := demo_crypto) in_time demo_redeem
      (exec (C := demo_crypto) by_owner (CallUpdateSigner 99) demo_vault)
    = Revert InvalidSignature.
Proof.
  assert (Hrun : run (C := demo_crypto) by_owner (CallUpdateSigner 99) demo_vault
                 = Ok (exec (C := demo_crypto) by_owner (CallUpdateSigner 99) demo_vault))
    by (vm_compute; reflexivity).
  split; [exact Hrun |].
  destruct (updateSigner_invalidates_outstanding (C := demo_crypto) by_owner in_time 99
              50 holder 1 2000 demo_signature demo_vault _ Hrun)
    as (_ & _ & _ & _ & Hrejected).
  - vm_compute. discriminate.
  - vm_compute. reflexivity.
  - apply Hrejected.
    + reflexivity.
    + reflexivity.
    + vm_compute. discriminate.
    + reflexivity.
    + split; vm_compute; discriminate.
    + vm_compute. reflexivity.
Defined.

End VaultFacts.

(* --------------------------------------------------------------------- *)
(** ** The voucher issuer, against the validator                          *)
(* --------------------------------------------------------------------- *)

Module IssuerFacts.
Import Evm Issuer.
Local Open Scope N_scope.

Lemma length_be_bytes (n : nat) : forall v : N, length (be_bytes n v) = n.
Proof.
  induction n as [|n IH]; intros v; simpl; [reflexivity |].
  rewrite length_app, IH. simpl. lia.
Qed.

Lemma be_value_snoc (l : list Byte.byte) (b : Byte.byte) :
  be_value (l ++ [b]) = be_value l * 256 + Byte.to_N b.
Proof. unfold be_value. rewrite fold_left_app. reflexivity. Qed.

Lemma to_N_byte_of_N (v : N) : Byte.to_N (byte_of_N v) = v mod 256.
Proof.
  unfold byte_of_N. destruct (Byte.of_N (v mod 256)) as [b|] eqn:Hb.
  - apply Byte.to_of_N. exact Hb.
  - apply Byte.of_N_None_iff in Hb.
    pose proof (N.mod_lt v 256 ltac:(discriminate)). lia.
Qed.

Lemma byte_of_N_to_N (x : N) (b : Byte.byte) : byte_of_N (x * 256 + Byte.to_N b) = b.
Proof.
  unfold byte_of_N.
  assert (Hb : Byte.to_N b < 256) by (pose proof (Byte.to_N_bounded b); lia).
  replace ((x * 256 + Byte.to_N b) mod 256) with (Byte.to_N b).
  - rewrite Byte.of_to_N. reflexivity.
  - rewrite N.add_comm, N.Div0.mod_add. symmetry. apply N.mod_small. exact Hb.
Qed.

(** Decoding the [n] bytes of a value gives the value back, modulo the width. *)
Lemma be_value_be_bytes (n : nat) : forall v : N,
  be_value (be_bytes n v) = v mod 256 ^ N.of_nat n.
Proof.
  induction n as [|n IH]; intros v.
  - simpl. rewrite N.mod_1_r. reflexivity.
  - cbn [be_bytes]. rewrite be_value_snoc, IH, to_N_byte_of_N.
    rewrite Nat2N.inj_succ, N.pow_succ_r'.
    rewrite N.Div0.mod_mul_r. lia.
Qed.

(** Encoding the value of [n] bytes in [n] bytes gives the bytes back. *)
Lemma be_bytes_be_value (bs : list Byte.byte) :
  be_bytes (length bs) (be_value bs) = bs.
Proof.
  induction bs as [|b l IH] using rev_ind; [reflexivity |].
  rewrite length_app. simpl length. rewrite Nat.add_1_r. cbn [be_bytes].
  rewrite be_value_snoc, byte_of_N_to_N. f_equal.
  replace ((be_value l * 256 + Byte.to_N b) / 256) with (be_value l); [exact IH |].
  assert (Hb : Byte.to_N b < 256) by (pose proof (Byte.to_N_bounded b); lia).
  rewrite N.add_comm, N.div_add by discriminate.
  rewrite N.div_small by exact Hb. reflexivity.
Qed.

Lemma signature_parts (r s : list Byte.byte) (v : Byte.byte) :
  length r = 32%nat -> length s = 32%nat -> take 32 (r ++ s ++ [v]) = r.
Proof. intros Hr _. apply take_app_length'. symmetry. exact Hr. Qed.

Lemma signature_parts_s (r s : list Byte.byte) (v : Byte.byte) :
  length r = 32%nat -> length s = 32%nat -> take 32 (drop 32 (r ++ s ++ [v])) = s.
Proof.
  intros Hr Hs. rewrite drop_app_length' by (symmetry; exact Hr).
  apply take_app_length'. symmetry. exact Hs.
Qed.

Lemma signature_parts_v (r s : list Byte.byte) (v : Byte.byte) :
  length r = 32%nat -> length s = 32%nat -> take 1 (drop 64 (r ++ s ++ [v])) = [v].
Proof.
  intros Hr Hs. rewrite drop_app_ge by lia. rewrite Hr.
  change (64 - 32)%nat with 32%nat.
  rewrite drop_app_length' by (symmetry; exact Hs). reflexivity.
Qed.

(** *** The packed preimage of a Commitment *)

Lemma be_bytes_inj (n : nat) (v v' : N) :
  v < 256 ^ N.of_nat n -> v' < 256 ^ N.of_nat n -> be_bytes n v = be_bytes n v' -> v = v'.
Proof.
  intros Hv Hv' Heq. apply (f_equal be_value) in Heq.
  rewrite !be_value_be_bytes in Heq. rewrite !N.mod_small in Heq by assumption. exact Heq.
Qed.

(** X21: the bytes [redeem] hashes into a Commitment,
    [abi.encodePacked(amountCents, recipient, nonce, expiry, address(this))],
    are 136 bytes long and determine the five fields: two vouchers with
    the same packed bytes agree on the amount, the recipient, the nonce,
    the expiry and the vault they are for. *)
Theorem packed_voucher_determines_fields (a r n e this a' r' n' e' this' : N) :
  a < 2 ^ 256 -> r < 2 ^ 160 -> n < 2 ^ 256 -> e < 2 ^ 256 -> this < 2 ^ 160 ->
  a' < 2 ^ 256 -> r' < 2 ^ 160 -> n' < 2 ^ 256 -> e' < 2 ^ 256 -> this' < 2 ^ 160 ->
  length (encodePacked [Uint256 a; Address r; Bytes32 n; Uint256 e; Address this]) = 136%nat /\
  (encodePacked [Uint256 a; Address r; Bytes32 n; Uint256 e; Address this]
   = encodePacked [Uint256 a'; Address r'; Bytes32 n'; Uint256 e'; Address this'] ->
   a = a' /\ r = r' /\ n = n' /\ e = e' /\ this = this').
Proof.
  intros Ha Hr Hn He Ht Ha' Hr' Hn' He' Ht'.
  unfold encodePacked. cbn [map concat packed]. split.
  - rewrite !length_app, !length_be_bytes. reflexivity.
  - intros Heq. rewrite !app_nil_r in Heq.
    apply app_inj_1 in Heq as [Ea Heq]; [| rewrite !length_be_bytes; reflexivity].
    apply app_inj_1 in Heq as [Er Heq]; [| rewrite !length_be_bytes; reflexivity].
    apply app_inj_1 in Heq as [En Heq]; [| rewrite !length_be_bytes; reflexivity].
    apply app_inj_1 in Heq as [Ee Et]; [| rewrite !length_be_bytes; reflexivity].
    repeat split.
    + apply (be_bytes_inj 32); assumption.
    + apply (be_bytes_inj 20); assumption.
    + apply (be_bytes_inj 32); assumption.
    + apply (be_bytes_inj 32); assumption.
    + apply (be_bytes_inj 20); assumption.
Qed.

Lemma packed_voucher_determines_fields_witness :
  length (encodePacked
            [Uint256 50; Address Demo.holder; Bytes32 1; Uint256 2000;
             Address Demo.vault_address]) = 136%nat.
Proof.
  apply (packed_voucher_determines_fields 50 Demo.holder 1 2000 Demo.vault_address
           50 Demo.holder 1 2000 Demo.vault_address); reflexivity.
Defined.

(** *** Reading a signature *)

Section Signature.
Context {C : Crypto}.

(** X22: [_recoverSigner] rejects every signature that is not 65 bytes
    long with InvalidSignature; of 65 bytes it reads [r], [s] and [v] in
    this order, and takes a [v] below 27 for [v + 27]: the two encodings
    of one signature recover the same signer. *)
Theorem _recoverSigner_reads_r_s_v (hash : N) (r s signature : list Byte.byte) (v : Byte.byte)
    (st : Vault.State) :
  (length signature <> 65%nat ->
   Vault._recoverSigner hash signature st = Vault.Revert Vault.InvalidSignature) /\
  (length r = 32%nat -> length s = 32%nat ->
   Vault._recoverSigner hash (r ++ s ++ [v]) st
   = Vault.Ok (ecrecover hash
                 (if Byte.to_N v <? 27 then Byte.to_N v + 27 else Byte.to_N v)
                 (be_value r) (be_value s), st) /\
   (Byte.to_N v < 27 ->
    Vault._recoverSigner hash (r ++ s ++ [v]) st
    = Vault._recoverSigner hash (r ++ s ++ [byte_of_N (Byte.to_N v + 27)]) st)).
Proof.
  assert (Hread : forall b : Byte.byte, length r = 32%nat -> length s = 32%nat ->
            Vault._recoverSigner hash (r ++ s ++ [b]) st
            = Vault.Ok (ecrecover hash
                          (if Byte.to_N b <? 27 then Byte.to_N b + 27 else Byte.to_N b)
                          (be_value r) (be_value s), st)).
  { intros b Hr Hs. unfold Vault._recoverSigner. VaultFacts.unfold_monad.
    rewrite !length_app, Hr, Hs. cbn [length].
    change (N.of_nat (32 + (32 + 1)) =? 65) with true. cbv iota. cbn [negb].
    rewrite (signature_parts r s b Hr Hs), (signature_parts_s r s b Hr Hs),
      (signature_parts_v r s b Hr Hs).
    replace (be_value [b]) with (Byte.to_N b) by (unfold be_value; simpl; lia).
    reflexivity. }
  split.
  - intros Hlen. unfold Vault._recoverSigner. VaultFacts.unfold_monad.
    destruct (N.eqb_spec (N.of_nat (length signature)) 65) as [Heq|_]; [| reflexivity].
    exfalso. apply Hlen. apply Nat2N.inj. exact Heq.
  - intros Hr Hs. split; [apply Hread; assumption |].
    intros Hv. rewrite !Hread by assumption. rewrite to_N_byte_of_N.
    rewrite N.mod_small by lia.
    destruct (N.ltb_spec (Byte.to_N v) 27); [| lia].
    destruct (N.ltb_spec (Byte.to_N v + 27) 27); [lia | reflexivity].
Qed.
End Signature.

Section Roundtrip.
Context {C : Crypto} {W : Wallet C}.

(** What the validator reads back from a serialized signature. *)
Lemma recoveredSigner_serialized (key : PrivateKey) (voucherHash : N) :
  Vault.recoveredSigner voucherHash
    (serialized (ecsign key (Vault.ethSignedMessageHashOf voucherHash)))
  = Some (addressOf key).
Proof.
  pose proof (ecsign_range key (Vault.ethSignedMessageHashOf voucherHash)) as [Hr Hs].
  pose proof (ecrecover_ecsign key (Vault.ethSignedMessageHashOf voucherHash)) as Hrec.
  destruct (ecsign key (Vault.ethSignedMessageHashOf voucherHash)) as [[r s] parity].
  cbn [fst snd] in *. unfold Vault.recoveredSigner, serialized.
  rewrite !length_app, !length_be_bytes. cbn [length].
  change (N.of_nat (32 + (32 + 1)) =? 65) with true. cbv iota.
  rewrite (signature_parts (be_bytes 32 r) (be_bytes 32 s)) by apply length_be_bytes.
  rewrite (signature_parts_s (be_bytes 32 r) (be_bytes 32 s)) by apply length_be_bytes.
  rewrite (signature_parts_v (be_bytes 32 r) (be_bytes 32 s)) by apply length_be_bytes.
  rewrite !be_value_be_bytes.
  change (256 ^ N.of_nat 32) with (2 ^ 256).
  rewrite !N.mod_small by assumption.
  rewrite <- Hrec. destruct parity.
  - change (be_value [byte_of_N 28]) with 28. reflexivity.
  - change (be_value [byte_of_N 27]) with 27. reflexivity.
Qed.

(** The digest ethers signs is the one the contract recomputes. *)
Lemma hashMessage_getBytes (voucherHash : N) :
  hashMessage (getBytes voucherHash) = Vault.ethSignedMessageHashOf voucherHash.
Proof.
  unfold hashMessage, getBytes, Vault.ethSignedMessageHashOf, encodePacked.
  rewrite length_be_bytes. cbn [map concat packed].
  rewrite app_nil_r, <- app_assoc. reflexivity.
Qed.

(** What [signVoucher] hashes and what it returns. *)
Lemma signVoucher_commitment (key : PrivateKey) (voucherData : VoucherData)
    (contractAddress signature : list Byte.byte) :
  signVoucher key voucherData contractAddress = Some signature ->
  let h := Vault.voucherHashOf (be_value contractAddress)
             (Z.to_N (amountCents voucherData)) (be_value (recipient voucherData))
             (be_value (nonce voucherData)) (Z.to_N (expiry voucherData)) in
  solidityPackedKeccak256
    [T_uint256; T_address; T_bytes32; T_uint256; T_address]
    [JNumber (amountCents voucherData); JData (recipient voucherData);
     JData (nonce voucherData); JNumber (expiry voucherData); JData contractAddress]
    = Some h /\
  signature = signMessage key (getBytes h).
Proof.
  intros Hsign. cbv zeta.
  unfold signVoucher in Hsign.
  destruct (solidityPackedKeccak256 _ _) as [messageHash|] eqn:Hhash; [| discriminate].
  cbn [mbind option_bind] in Hsign. injection Hsign as <-.
  assert (Hsame : messageHash =
            Vault.voucherHashOf (be_value contractAddress)
              (Z.to_N (amountCents voucherData))
              (be_value (recipient voucherData)) (be_value (nonce voucherData))
              (Z.to_N (expiry voucherData))).
  { unfold solidityPackedKeccak256 in Hhash. cbn [solidityPacked pack] in Hhash.
    destruct ((0 <=? amountCents voucherData)%Z && (amountCents voucherData <? 2 ^ 256)%Z);
      [| discriminate].
    destruct (Nat.eqb_spec (length (recipient voucherData)) 20) as [Hr|]; [| discriminate].
    destruct (Nat.eqb_spec (length (nonce voucherData)) 32) as [Hn|]; [| discriminate].
    destruct ((0 <=? expiry voucherData)%Z && (expiry voucherData <? 2 ^ 256)%Z);
      [| discriminate].
    destruct (Nat.eqb_spec (length contractAddress) 20) as [Hc|]; [| discriminate].
    cbn [mbind option_bind fmap option_fmap option_map] in Hhash. injection Hhash as <-.
    unfold Vault.voucherHashOf, encodePacked. cbn [map concat packed].
    assert (E1 : be_bytes 20 (be_value (recipient voucherData)) = recipient voucherData)
      by (rewrite <- Hr; apply be_bytes_be_value).
    assert (E2 : be_bytes 32 (be_value (nonce voucherData)) = nonce voucherData)
      by (rewrite <- Hn; apply be_bytes_be_value).
    assert (E3 : be_bytes 20 (be_value contractAddress) = contractAddress)
      by (rewrite <- Hc; apply be_bytes_be_value).
    rewrite E1, E2, E3. reflexivity. }
  subst messageHash. split; reflexivity.
Qed.

Lemma signMessage_recovers (key : PrivateKey) (voucherHash : N) :
  Vault.recoveredSigner voucherHash (signMessage key (getBytes voucherHash))
  = Some (getSignerAddress key).
Proof.
  unfold signMessage, getSignerAddress. rewrite hashMessage_getBytes.
  apply recoveredSigner_serialized.
Qed.

(** C5: the Commitment [signVoucher] signs is the hash [redeem]
    recomputes from the plaintext fields (the packed encoding of
    amountCents, recipient, nonce, expiry and the address of the vault
    the issuer is configured with, in that order), and for every voucher
    [signVoucher] issues, the signer the validator recovers from the
    stored signature over the recomputed Commitment is the issuer's
    address. *)
Theorem issued_voucher_verifies (key : PrivateKey) (voucherData : VoucherData)
    (contractAddress signature : list Byte.byte) :
  signVoucher key voucherData contractAddress = Some signature ->
  let this := be_value contractAddress in
  let a := Z.to_N (amountCents voucherData) in
  let r := be_value (recipient voucherData) in
  let n := be_value (nonce voucherData) in
  let e := Z.to_N (expiry voucherData) in
  let h := Vault.voucherHashOf this a r n e in
  solidityPackedKeccak256
    [T_uint256; T_address; T_bytes32; T_uint256; T_address]
    [JNumber (amountCents voucherData); JData (recipient voucherData);
     JData (nonce voucherData); JNumber (expiry voucherData); JData contractAddress]
    = Some h /\
  Vault.recoveredSigner h signature = Some (getSignerAddress key).
Proof.
  intros Hsign. cbv zeta.
  destruct (signVoucher_commitment key voucherData contractAddress signature Hsign)
    as [Hhash ->].
  split; [exact Hhash | apply signMessage_recovers].
Qed.

(** X23, end to end: a voucher the issuer signed for this vault is paid
    out when presented in time by its recipient, the vault being unpaused,
    holding the issuer's address as signer and enough reserve. *)
Lemma issued_voucher_redeems (key : PrivateKey) (voucherData : VoucherData)
    (contractAddress signature : list Byte.byte) (msg : Vault.Msg) (s : Vault.State) :
  signVoucher key voucherData contractAddress = Some signature ->
  be_value contractAddress = Vault.self s ->
  Vault.signer s = getSignerAddress key ->
  let a := Z.to_N (amountCents voucherData) in
  let r := be_value (recipient voucherData) in
  let n := be_value (nonce voucherData) in
  let e := Z.to_N (expiry voucherData) in
  Vault._entered s = false -> Vault._paused s = false ->
  Vault.timestamp msg <= e -> Vault.sender msg = r -> 1 <= a <= 100 ->
  Vault.isRedeemed s (Vault.voucherHashOf (Vault.self s) a r n e) = false ->
  a * 10000 <= Vault.balanceOf (Vault.usdc s) (Vault.self s) ->
  Vault.totalRedeemed s + a * 10000 < UINT256_LIMIT ->
  Vault.totalVouchers s + 1 < UINT256_LIMIT ->
  Vault.run msg (Vault.CallRedeem a r n e signature) s
    = Vault.Ok (Vault.redeemed_state s a r n e).
Proof.
  intros Hsign Hself Hsigner. cbv zeta.
  intros Hent Hpaused Hexp Hsender [Hlo Hhi] Hfresh Hbal Htr Htv.
  destruct (signVoucher_commitment key voucherData contractAddress signature Hsign)
    as [_ ->].
  pose proof (signMessage_recovers key
                (Vault.voucherHashOf (be_value contractAddress)
                   (Z.to_N (amountCents voucherData)) (be_value (recipient voucherData))
                   (be_value (nonce voucherData)) (Z.to_N (expiry voucherData)))) as Hrec.
  rewrite Hself, <- Hsigner in Hrec. rewrite Hself.
  rewrite VaultFacts.run_redeem, Hent, Hpaused, Hfresh, Hrec.
  destruct (N.ltb_spec (Z.to_N (expiry voucherData)) (Vault.timestamp msg)); [lia |].
  rewrite <- Hsender, !N.eqb_refl. simpl.
  replace ((Z.to_N (amountCents voucherData) =? 0) || (100 <? Z.to_N (amountCents voucherData)))
    with false
    by (symmetry; apply orb_false_intro; [apply N.eqb_neq; lia | apply N.ltb_ge; lia]).
  rewrite Hsender in *.
  destruct (N.ltb_spec (Vault.balanceOf (Vault.usdc s) (Vault.self s))
              (Z.to_N (amountCents voucherData) * 10000)); [lia |].
  destruct (N.ltb_spec (Vault.totalRedeemed s + Z.to_N (amountCents voucherData) * 10000)
              UINT256_LIMIT); [| lia].
  destruct (N.ltb_spec (Vault.totalVouchers s + 1) UINT256_LIMIT); [| lia].
  reflexivity.
Qed.

End Roundtrip.

Import Demo.

Lemma issued_voucher_verifies_witness :
  Issuer.signVoucher (W := demo_wallet) issuer_key demo_voucher (be_bytes 20 vault_address)
    = Some demo_signature /\
  Vault.recoveredSigner (C := demo_crypto)
    (Vault.voucherHashOf (C := demo_crypto) vault_address 50 holder 1 2000) demo_signature
    = Some (Vault.signer demo_vault).
Proof.
  assert (Hsign : Issuer.signVoucher (W := demo_wallet) issuer_key demo_voucher
                    (be_bytes 20 vault_address) = Some demo_signature)
    by (vm_compute; reflexivity).
  split; [exact Hsign |].
  apply (issued_voucher_verifies (W := demo_wallet) issuer_key demo_voucher
           (be_bytes 20 vault_address) demo_signature Hsign).
Defined.

Lemma issued_voucher_redeems_witness :
  Vault.run (C := demo_crypto) in_time demo_redeem demo_vault
  = Vault.Ok (Vault.redeemed_state (C := demo_crypto) demo_vault 50 holder 1 2000).
Proof.
  change (Vault.run (C := demo_crypto) in_time
            (Vault.CallRedeem (Z.to_N (amountCents demo_voucher))
               (be_value (recipient demo_voucher)) (be_value (nonce demo_voucher))
               (Z.to_N (expiry demo_voucher)) demo_signature) demo_vault
          = Vault.Ok (Vault.redeemed_state (C := demo_crypto) demo_vault
                        (Z.to_N (amountCents demo_voucher))
                        (be_value (recipient demo_voucher)) (be_value (nonce demo_voucher))
                        (Z.to_N (expiry demo_voucher)))).
  apply (issued_voucher_redeems (W := demo_wallet) issuer_key demo_voucher
           (be_bytes 20 vault_address) demo_signature in_time demo_vault).
  - vm_compute. reflexivity.
  - vm_compute. reflexivity.
  - vm_compute. reflexivity.
  - reflexivity.
  - reflexivity.
  - vm_compute. discriminate.
  - vm_compute. reflexivity.
  - split; vm_compute; discriminate.
  - vm_compute. reflexivity.
  - vm_compute. discriminate.
  - vm_compute. reflexivity.
  - vm_compute. reflexivity.
Defined.

(** *** The authentication challenge *)

(** X24: the text [generateAuthMessage] builds binds the wallet address
    and the nonce when the addresses have one length (the challenge
    endpoint admits addresses of 42 characters only): two such messages
    are equal only for the same address and the same nonce.  Without
    that, an address that runs into the nonce line gives the same text
    for another pair. *)
Theorem generateAuthMessage_binds_wallet_and_nonce (w1 n1 w2 n2 : list Z) :
  (length w1 = length w2 ->
   generateAuthMessage w1 n1 = generateAuthMessage w2 n2 -> w1 = w2 /\ n1 = n2) /\
  generateAuthMessage (js "0xA" ++ [10%Z] ++ js "Nonce: B") (js "C")
  = generateAuthMessage (js "0xA") (js "B" ++ [10%Z] ++ js "Nonce: C").
Proof.
  split.
  - unfold generateAuthMessage. intros Hlen Heq.
    do 3 apply app_inv_head in Heq.
    apply app_inj_1 in Heq as [Hw Heq]; [| exact Hlen].
    do 2 apply app_inv_head in Heq. split; assumption.
  - vm_compute. reflexivity.
Qed.

End IssuerFacts.

(* --------------------------------------------------------------------- *)
(** ** The statistics of the vault at the limit of their type             *)
(* --------------------------------------------------------------------- *)

Module LimitFacts.
Import Evm Vault Demo.
Local Open Scope N_scope.





Section Rounds.
Context {C : Crypto}.

(** The digest is free of collisions, and a signature that carries an
    address as [r] and the digest as [s] recovers the address. *)
Hypothesis keccak256_inj : forall l l' : list Byte.byte, keccak256 l = keccak256 l' -> l = l'.
Hypothesis ecrecover_signed : forall hash r : N, ecrecover hash 27 r (hash mod 2 ^ 256) = r.








End Rounds.



End LimitFacts.

(* --------------------------------------------------------------------- *)
(** ** The draw endpoint                                                  *)
(* --------------------------------------------------------------------- *)

Module RouteFacts.
Import Routes.
Local Open Scope Z_scope.

Lemma valid_amount_positive (r : Plinko.DropResult) :
  Plinko.validateDropResult r = true -> (0 <? Plinko.amountCents r) = true.
Proof.
  unfold Plinko.validateDropResult. intros H.
  repeat (apply andb_prop in H as [H ?]).
  apply Z.leb_le in H. apply Z.ltb_lt. lia.
Qed.

(** What the handler is written to do: were it to answer with the draw
    (for that, the [signVoucher] it is given has to return), it would
    have issued a voucher and inserted two drop-history rows for the
    user, with the same amount and path: the first, written before the
    voucher exists, with [voucherId] null and left as inserted, the
    second with the id of the new voucher. *)
Lemma drop_two_rows_when_signed (signVoucher : VoucherData -> Completion JsString)
    (env : Env) (user : User) (app app' : App)
    (dropResult : Plinko.DropResult) (voucher : option Voucher) (remainingTickets : Z) :
  drop_handler signVoucher env user app = (Json dropResult voucher remainingTickets, app') ->
  exists (v : Voucher) (first second : DropHistory),
    voucher = Some v /\
    Plinko.validateDropResult dropResult = true /\ 0 < Plinko.amountCents dropResult /\
    vouchers (db app') = vouchers (db app) ++ [v] /\
    dropHistory (db app') = dropHistory (db app) ++ [first; second] /\
    drop_row first =
      {| userId := user_id user; drop_amountCents := Plinko.amountCents dropResult;
         pathData := Plinko.path dropResult; voucherId := None |} /\
    drop_row second =
      {| userId := user_id user; drop_amountCents := Plinko.amountCents dropResult;
         pathData := Plinko.path dropResult; voucherId := Some (voucher_id v) |} /\
    drop_id second = drop_id first + 1.
Proof.
  unfold drop_handler, drop_body.
  unfold mbind, H_bind, mret, H_ret, ticketManager_consumeTicket,
    ticketManager_getRemainingTickets, plinkoSimulator_simulateDrop,
    cryptoService_signVoucher, storage_call.
  destruct app as [tk d rnd]. cbn [tickets db random].
  destruct (Tickets.consumeTicket _ _ _ tk) as [[hasTicket|] tk1]; [| discriminate].
  destruct hasTicket; cbn [negb]; [| discriminate].
  unfold with_tickets, with_random, with_db. cbn [tickets db random].
  destruct (Plinko.simulateDrop None rnd) as [result rnd1].
  destruct (Plinko.validateDropResult result) eqn:Hvalid; cbn [negb]; [| discriminate].
  rewrite (valid_amount_positive result Hvalid).
  destruct (storage_up env 0); [| discriminate].
  cbn [createDropHistory tickets db random].
  destruct (signVoucher _) as [sig|]; [| discriminate].
  destruct (storage_up env 1); [| discriminate].
  cbn [createVoucher tickets db random].
  destruct (storage_up env 2); [| discriminate].
  cbn [createDropHistory createVoucher tickets db random vouchers dropHistory
         next_voucher_id next_drop_id voucher_id].
  destruct (Tickets.getRemainingTickets _ _ _ tk1) as [[remaining|] tk2]; [| discriminate].
  intros [= <- <- <- <-]. cbn [db vouchers dropHistory].
  eexists _, _, _.
  split; [reflexivity |]. split; [exact Hvalid |].
  split; [apply Z.ltb_lt, valid_amount_positive, Hvalid |].
  split; [reflexivity |].
  split; [rewrite <- app_assoc; reflexivity |].
  repeat split.
Qed.

(** *** The draw endpoint and the quota *)

Ltac run_handler :=
  unfold drop_handler, drop_body;
  unfold mbind, H_bind, mret, H_ret, ticketManager_consumeTicket,
    ticketManager_getRemainingTickets, plinkoSimulator_simulateDrop,
    cryptoService_signVoucher, storage_call.

(** X25: a request of a principal whose record in force is exhausted is
    answered with status 400, and nothing happens: no sample of
    [Math.random] is taken, no row is written, and both ticket stores
    stay as they were. *)
Theorem drop_without_ticket_changes_nothing
    (signVoucher : VoucherData -> Completion JsString) (env : Env) (user : User) (app : App)
    (r : Tickets.QuotaRecord) :
  Tickets.record_in_force (Tickets.redisAvailable (tickets app) && redis_up env) (now env)
    (tickets app) (Tickets.getTicketKey (walletAddress user)) = Some r ->
  Tickets.remaining r <= 0 ->
  fst (drop_handler signVoucher env user app) = Status 400 "No tickets remaining" /\
  db (snd (drop_handler signVoucher env user app)) = db app /\
  random (snd (drop_handler signVoucher env user app)) = random app /\
  Tickets.redis (tickets (snd (drop_handler signVoucher env user app)))
    = Tickets.redis (tickets app) /\
  Tickets.memoryStore (tickets (snd (drop_handler signVoucher env user app)))
    = Tickets.memoryStore (tickets app).
Proof.
  intros Hrec Hzero. destruct r as [n window]. cbn [Tickets.remaining] in Hzero.
  destruct (TicketFacts.consumeTicket_exhausted _ _ _ _ _ _ Hrec Hzero) as (Hres & _ & _).
  destruct (TicketFacts.consumeTicket_refused _ _ _ _ Hres) as [Hredis Hmem].
  run_handler.
  destruct (Tickets.consumeTicket (redis_up env) (now env) (walletAddress user) (tickets app))
    as [c tk1].
  cbn [fst snd] in Hres, Hredis, Hmem. subst c. cbn [negb fst snd with_tickets db random tickets].
  repeat split; assumption.
Qed.

Lemma drop_without_ticket_changes_nothing_witness :
  fst (drop_handler Demo.demo_signVoucher
         {| now := 1000; redis_up := true; fresh_nonce := js "5f2a";
            storage_up := fun _ => true |}
         Demo.demo_user (with_tickets Demo.exhausted_ledger Demo.demo_app))
  = Status 400 "No tickets remaining".
Proof.
  apply (drop_without_ticket_changes_nothing Demo.demo_signVoucher
           {| now := 1000; redis_up := true; fresh_nonce := js "5f2a";
              storage_up := fun _ => true |}
           Demo.demo_user (with_tickets Demo.exhausted_ledger Demo.demo_app)
           {| Tickets.remaining := 0; Tickets.windowExpiresAt := Some 5000 |}).
  - vm_compute. reflexivity.
  - vm_compute. discriminate.
Defined.



(** *** The draw endpoint with the issuer of the repository *)

Lemma hexDigit_not_x (v : Z) : 0 <= v < 16 -> hexDigit v <> 120 /\ hexDigit v <> 88.
Proof. intros Hv. unfold hexDigit. destruct (Z.ltb_spec v 10); lia. Qed.

(** No text [generateNonce] returns is read as data: it has no "0x". *)
Lemma generateNonce_not_data (randomBytes : list Byte.byte) :
  bytes32_of_text (generateNonce randomBytes) = None.
Proof.
  unfold bytes32_of_text, generateNonce, toHex.
  destruct randomBytes as [|b rest]; [reflexivity |].
  cbn [flat_map app data_of_text].
  destruct (hexDigit_not_x (Z.of_N (Byte.to_N b) mod 16)) as [Hx HX].
  { apply Z.mod_pos_bound. lia. }
  apply Z.eqb_neq in Hx, HX. rewrite Hx, HX, andb_false_r. reflexivity.
Qed.

Lemma signVoucher_generated_nonce {C : Evm.Crypto} {W : Evm.Wallet C}
    (getAddress : JsString -> option (list Byte.byte)) (key : Evm.PrivateKey)
    (voucherData : VoucherData) (contractAddress : JsString) (randomBytes : list Byte.byte) :
  nonce voucherData = generateNonce randomBytes ->
  signVoucher getAddress key voucherData contractAddress = Thrown.
Proof.
  intros Hnonce. unfold signVoucher. rewrite Hnonce, generateNonce_not_data.
  destruct (uint_of_number (amountCents voucherData)); [| reflexivity].
  cbn [mbind option_bind].
  destruct (getAddress (recipient voucherData)); reflexivity.
Qed.

(** C10, on the code: with the nonce [generateNonce] returns (hexadecimal
    digits without "0x"), [signVoucher] throws when it reads the nonce as
    [bytes32], whatever the key, the addresses and the amount are.  So
    the handler never answers with a draw and never stores a voucher; it
    leaves the drop history as it was or with ONE new row, whose
    [voucherId] is null; and for a draw that passes validation, the
    ticket granted and the first insert made, it answers with status 500
    and leaves exactly that one row. *)
Theorem drop_with_generated_nonce_leaves_one_row {C : Evm.Crypto} {W : Evm.Wallet C}
    (getAddress : JsString -> option (list Byte.byte)) (key : Evm.PrivateKey)
    (vaultAddress : JsString) (randomBytes : list Byte.byte)
    (env : Env) (user : User) (app : App) :
  fresh_nonce env = generateNonce randomBytes ->
  let result :=
    drop_handler (fun data => signVoucher getAddress key data vaultAddress) env user app in
  (forall dropResult voucher remainingTickets,
     fst result <> Json dropResult voucher remainingTickets) /\
  vouchers (db (snd result)) = vouchers (db app) /\
  (dropHistory (db (snd result)) = dropHistory (db app) \/
   exists row,
     dropHistory (db (snd result)) = dropHistory (db app) ++ [row] /\
     voucherId (drop_row row) = None /\ userId (drop_row row) = user_id user) /\
  (fst (Tickets.consumeTicket (redis_up env) (now env) (walletAddress user) (tickets app))
     = Returned true ->
   Plinko.validateDropResult (fst (Plinko.simulateDrop None (random app))) = true ->
   storage_up env 0 = true ->
   fst result = Status 500 "Failed to process drop" /\
   exists row,
     dropHistory (db (snd result)) = dropHistory (db app) ++ [row] /\
     voucherId (drop_row row) = None /\ userId (drop_row row) = user_id user /\
     drop_id row = next_drop_id (db app)).
Proof.
  intros Hnonce. cbv zeta. run_handler.
  destruct app as [tk d rnd]. cbn [tickets db random].
  destruct (Tickets.consumeTicket (redis_up env) (now env) (walletAddress user) tk)
    as [[hasTicket|] tk1]; cbn [fst snd];
    [| repeat split; try discriminate; try (left; reflexivity); intros; discriminate].
  destruct hasTicket; cbn [negb fst snd with_tickets db];
    [| repeat split; try discriminate; try (left; reflexivity); intros; discriminate].
  unfold with_tickets, with_random, with_db. cbn [tickets db random].
  destruct (Plinko.simulateDrop None rnd) as [result rnd1]. cbn [fst].
  destruct (Plinko.validateDropResult result) eqn:Hvalid; cbn [negb fst snd db];
    [| repeat split; try discriminate; try (left; reflexivity); intros; discriminate].
  rewrite (valid_amount_positive result Hvalid).
  destruct (storage_up env 0); cbn [fst snd db];
    [| repeat split; try discriminate; try (left; reflexivity); intros; discriminate].
  cbn [createDropHistory tickets db random].
  rewrite (signVoucher_generated_nonce getAddress key _ vaultAddress randomBytes)
    by exact Hnonce.
  cbn [fst snd db vouchers dropHistory].
  split; [discriminate |]. split; [reflexivity |]. split.
  - right. eexists. repeat split.
  - intros _ _ _. split; [reflexivity |]. eexists. repeat split.
Qed.

Lemma drop_with_generated_nonce_leaves_one_row_witness :
  Routes.fresh_nonce Demo.request_env = generateNonce (repeat Byte.x5f 32) /\
  fst (drop_handler
         (fun data =>
            signVoucher (W := Demo.demo_wallet) data_of_text Demo.issuer_key data
              Demo.claimVaultAddress)
         Demo.request_env Demo.player Demo.demo_app)
    = Status 500 "Failed to process drop" /\
  length (dropHistory
            (db (snd (drop_handler
                        (fun data =>
                           signVoucher (W := Demo.demo_wallet) data_of_text Demo.issuer_key
                             data Demo.claimVaultAddress)
                        Demo.request_env Demo.player Demo.demo_app)))) = 1%nat.
Proof.
  split; [reflexivity |].
  destruct (drop_with_generated_nonce_leaves_one_row (W := Demo.demo_wallet) data_of_text
              Demo.issuer_key Demo.claimVaultAddress (repeat Byte.x5f 32)
              Demo.request_env Demo.player Demo.demo_app eq_refl)
    as (_ & _ & _ & Hone).
  destruct Hone as (Hstatus & row & Hrows & _).
  - vm_compute. reflexivity.
  - vm_compute. reflexivity.
  - reflexivity.
  - split; [exact Hstatus |]. rewrite Hrows. reflexivity.
Defined.

(** *** The storage *)

Lemma find_snoc {A : Type} (f : A -> bool) (l : list A) (x : A) :
  List.find f (l ++ [x]) =
    match List.find f l with
    | Some y => Some y
    | None => if f x then Some x else None
    end.
Proof.
  induction l as [|y l IH]; cbn [List.find app]; [reflexivity |].
  destruct (f y); [reflexivity | exact IH].
Qed.


(** X29: the voucher table, by nonce.  A voucher created under a nonce
    no row carries yet is the one [getVoucherByNonce] finds, unredeemed;
    [markVoucherRedeemed] then records the instant and the transaction
    hash on it, keeps its id, its four fields and its signature, and
    leaves the rows of every other nonce, the number of rows and the drop
    history as they were.  It asks nothing of the row it marks: a second
    call overwrites the record of the first. *)
Theorem markVoucherRedeemed_round_trip (data : VoucherData) (sig txHash1 txHash2 : JsString)
    (t1 t2 : Z) (db0 : Db) :
  getVoucherByNonce (nonce data) db0 = None ->
  let created := createVoucher data sig db0 in
  let marked := markVoucherRedeemed t1 (nonce data) txHash1 (snd created) in
  getVoucherByNonce (nonce data) (snd created) = Some (fst created) /\
  redeemedAt (fst created) = None /\
  getVoucherByNonce (nonce data) marked =
    Some {| voucher_id := next_voucher_id db0; voucher_data := data; signature := sig;
            redeemedAt := Some t1; txHash := Some txHash1 |} /\
  (forall other, other <> nonce data ->
     getVoucherByNonce other marked = getVoucherByNonce other db0) /\
  length (vouchers marked) = S (length (vouchers db0)) /\
  dropHistory marked = dropHistory db0 /\
  getVoucherByNonce (nonce data) (markVoucherRedeemed t2 (nonce data) txHash2 marked) =
    Some {| voucher_id := next_voucher_id db0; voucher_data := data; signature := sig;
            redeemedAt := Some t2; txHash := Some txHash2 |}.
Proof.
  unfold getVoucherByNonce, createVoucher, markVoucherRedeemed. cbv zeta.
  cbn [fst snd vouchers dropHistory redeemedAt].
  intros Hfresh.
  assert (Hkeep : forall (t : Z) (h : JsString) (l : list Voucher),
            List.find (fun v => bool_decide (nonce (voucher_data v) = nonce data)) l = None ->
            map (fun v => if bool_decide (nonce (voucher_data v) = nonce data)
                          then {| voucher_id := voucher_id v; voucher_data := voucher_data v;
                                  signature := signature v;
                                  redeemedAt := Some t; txHash := Some h |}
                          else v) l = l).
  { intros t h l. induction l as [|v l IH]; cbn [List.find map]; [reflexivity |].
    destruct (bool_decide (nonce (voucher_data v) = nonce data)); [discriminate |].
    intros Hl. rewrite (IH Hl). reflexivity. }
  assert (Hother : forall (other : JsString) (t : Z) (h : JsString) (l : list Voucher),
            other <> nonce data ->
            List.find (fun v => bool_decide (nonce (voucher_data v) = other))
              (map (fun v => if bool_decide (nonce (voucher_data v) = nonce data)
                             then {| voucher_id := voucher_id v;
                                     voucher_data := voucher_data v;
                                     signature := signature v;
                                     redeemedAt := Some t; txHash := Some h |}
                             else v) l)
            = List.find (fun v => bool_decide (nonce (voucher_data v) = other)) l).
  { intros other t h l Hne. induction l as [|v l IH]; cbn [List.find map]; [reflexivity |].
    destruct (bool_decide_reflect (nonce (voucher_data v) = nonce data)) as [Hv|Hv].
    - cbn [voucher_data]. rewrite Hv.
      destruct (bool_decide_reflect (nonce data = other)); [congruence | exact IH].
    - destruct (bool_decide (nonce (voucher_data v) = other)); [reflexivity | exact IH]. }
  rewrite !map_app, !(Hkeep _ _ _ Hfresh). cbn [map voucher_data].
  rewrite !bool_decide_eq_true_2 by reflexivity.
  cbn [voucher_id voucher_data signature].
  rewrite !find_snoc, Hfresh. cbn [voucher_data].
  rewrite !bool_decide_eq_true_2 by reflexivity.
  split; [reflexivity |]. split; [reflexivity |]. split; [reflexivity |].
  split; [| split; [| split; [reflexivity | reflexivity]]].
  - intros other Hne. rewrite find_snoc. cbn [voucher_data].
    rewrite (bool_decide_eq_false_2 (nonce data = other)) by congruence.
    destruct (List.find (fun v => bool_decide (nonce (voucher_data v) = other))
                (vouchers db0)); reflexivity.
  - rewrite length_app. cbn [length]. lia.
Qed.

Lemma markVoucherRedeemed_round_trip_witness :
  redeemedAt
    <$> getVoucherByNonce (js "5f2a")
          (markVoucherRedeemed 1700000100000 (js "5f2a") (js "0xfeed")
             (snd (createVoucher
                     {| recipient := js "0xabc"; amountCents := 50; nonce := js "5f2a";
                        expiry := 1702592000 |}
                     (js "0x1b") (db Demo.demo_app))))
  = Some (Some 1700000100000).
Proof.
  destruct (markVoucherRedeemed_round_trip
              {| recipient := js "0xabc"; amountCents := 50; nonce := js "5f2a";
                 expiry := 1702592000 |}
              (js "0x1b") (js "0xfeed") (js "0xbeef") 1700000100000 1700000200000
              (db Demo.demo_app) eq_refl) as (_ & _ & Hmarked & _).
  cbn [nonce] in Hmarked. rewrite Hmarked. reflexivity.
Defined.



End RouteFacts.
